(** * Block X Bluster: the simulation core of [src/app/page.tsx]

    A shallow embedding of the [Game] component's simulation code (object
    pool, spawners, motion loops, collision passes, difficulty and power-up
    timers, session transitions, drag and key handlers, block colours, mute
    preference) together with the properties proved about it.

    Conventions of the embedding.
    - JavaScript numbers that hold coordinates and speeds are idealised as
      real numbers ([R]); counters, scores, hit points and millisecond
      values are integers ([Z]).
    - [Bullet] objects are mutated in place and shared between the live
      array and the pool, so they live in an explicit object store
      ([bulletHeap]) and the arrays hold references.  [Block] and [PowerUp]
      objects are rebuilt by [animateObjects] on every frame and are only
      reached through their array, so the arrays hold the values.
    - [useRef] cells and [useState] cells are fields of one record [Game];
      state updaters are applied at once, and the [useEffect] bodies that
      mirror state into refs are gathered in [commitEffects].
    - [Math.random()] draws and [Date.now()] readings are arguments.
    - The browser's list of pending animation-frame callbacks is the field
      [rafQueue]; a frame runs the pending callbacks in registration order. *)

From Stdlib Require Import ZArith List Bool Lia Reals Lra Sorted.
From Stdlib Require String.
Import ListNotations.
Import String.StringSyntax.

Delimit Scope string_scope with string.

Open Scope R_scope.

(** ** Numbers *)

(** [a < b] on numbers, as a boolean. *)
Definition Rltb (a b : R) : bool := if Rlt_dec a b then true else false.

Arguments Rltb : simpl never.

(** [Math.floor]. *)
Definition Math_floor (r : R) : Z := Int_part r.

Arguments Math_floor : simpl never.

(** ** Game objects *)

Module PowerUpType.
Inductive t : Type := fireSpeed | multiDirectional | slowMotion.

Definition eqb (a b : t) : bool :=
  match a, b with
  | fireSpeed, fireSpeed => true
  | multiDirectional, multiDirectional => true
  | slowMotion, slowMotion => true
  | _, _ => false
  end.
End PowerUpType.

Inductive GameState : Type := notStarted | playing | gameOver.

Definition GameState_eqb (a b : GameState) : bool :=
  match a, b with
  | notStarted, notStarted => true
  | playing, playing => true
  | gameOver, gameOver => true
  | _, _ => false
  end.

Module Bullet.
Record t : Type := mk { id : Z; x : R; y : R; angle : R }.
End Bullet.

Module Block.
Record t : Type :=
  mk { id : Z; x : R; y : R; hp : Z; isHit : bool; isBreakable : bool }.
End Block.

Module PowerUp.
Record t : Type := mk { id : Z; x : R; y : R; type : PowerUpType.t }.
End PowerUp.

(** The objects keyed by power-up type ([activePowerUps],
    [powerUpTimeLeft]). *)
Record PowerUpSlots (A : Type) : Type := mkSlots {
  fireSpeed : A;
  multiDirectional : A;
  slowMotion : A
}.

Arguments mkSlots {A}.
Arguments fireSpeed {A}.
Arguments multiDirectional {A}.
Arguments slowMotion {A}.

(** [slots[type]] *)
Definition slot {A} (ty : PowerUpType.t) (s : PowerUpSlots A) : A :=
  match ty with
  | PowerUpType.fireSpeed => fireSpeed s
  | PowerUpType.multiDirectional => multiDirectional s
  | PowerUpType.slowMotion => slowMotion s
  end.

(** [{ ...prev, [type]: v }] *)
Definition setSlot {A} (ty : PowerUpType.t) (v : A) (s : PowerUpSlots A)
  : PowerUpSlots A :=
  match ty with
  | PowerUpType.fireSpeed => mkSlots v (multiDirectional s) (slowMotion s)
  | PowerUpType.multiDirectional => mkSlots (fireSpeed s) v (slowMotion s)
  | PowerUpType.slowMotion => mkSlots (fireSpeed s) (multiDirectional s) v
  end.

Module Keys.
Record t : Type := mk {
  ArrowUp : bool; ArrowDown : bool; ArrowLeft : bool; ArrowRight : bool;
  w : bool; a : bool; s : bool; d : bool
}.
End Keys.

(** The animation-frame loops: [updateRender] and the five loops of
    [startAnimationLoops], named after the keys of [animationFrameIds]. *)
Inductive Loop : Type :=
  | LRender | LPlayer | LBullets | LObjects | LCollisions | LPlayerCollisions.

(** ** The component's cells *)

#[projections(primitive)]
Record Game : Type := mkGame {
  bulletHeap : nat -> Bullet.t;
  heapNext : nat;
  bulletPoolRef : list nat;
  bulletsRef : list nat;
  blocksRef : list Block.t;
  powerUpsRef : list PowerUp.t;
  bulletIdRef : Z;
  blockIdRef : Z;
  powerUpIdRef : Z;
  positionRef : R * R;
  finalScoreRef : Z;
  lastFireTimeRef : Z;
  scoreRef : Z;
  gameStateRef : GameState;
  blockFallSpeedRef : R;
  activePowerUpsRef : PowerUpSlots bool;
  needsRenderRef : bool;
  gameContainerRef : option (R * R);
  playerRef : option (R * R);
  rafQueue : list Loop;
  gameState : GameState;
  gameTime : Z;
  blockSpawnRate : Z;
  blockFallSpeed : R;
  blocksPerWave : Z;
  activePowerUps : PowerUpSlots bool;
  powerUpTimeLeft : PowerUpSlots Z;
  score : Z;
  isDragging : bool;
  dragStart : R * R
}.

Definition set_bulletHeap (v : nat -> Bullet.t) (g : Game) : Game :=
  mkGame v (heapNext g) (bulletPoolRef g) (bulletsRef g) (blocksRef g)
    (powerUpsRef g) (bulletIdRef g) (blockIdRef g) (powerUpIdRef g)
    (positionRef g) (finalScoreRef g) (lastFireTimeRef g) (scoreRef g)
    (gameStateRef g) (blockFallSpeedRef g) (activePowerUpsRef g)
    (needsRenderRef g) (gameContainerRef g) (playerRef g) (rafQueue g)
    (gameState g) (gameTime g) (blockSpawnRate g) (blockFallSpeed g)
    (blocksPerWave g) (activePowerUps g) (powerUpTimeLeft g) (score g)
    (isDragging g) (dragStart g).
Definition set_heapNext (v : nat) (g : Game) : Game :=
  mkGame (bulletHeap g) v (bulletPoolRef g) (bulletsRef g) (blocksRef g)
    (powerUpsRef g) (bulletIdRef g) (blockIdRef g) (powerUpIdRef g)
    (positionRef g) (finalScoreRef g) (lastFireTimeRef g) (scoreRef g)
    (gameStateRef g) (blockFallSpeedRef g) (activePowerUpsRef g)
    (needsRenderRef g) (gameContainerRef g) (playerRef g) (rafQueue g)
    (gameState g) (gameTime g) (blockSpawnRate g) (blockFallSpeed g)
    (blocksPerWave g) (activePowerUps g) (powerUpTimeLeft g) (score g)
    (isDragging g) (dragStart g).
Definition set_bulletPoolRef (v : list nat) (g : Game) : Game :=
  mkGame (bulletHeap g) (heapNext g) v (bulletsRef g) (blocksRef g)
    (powerUpsRef g) (bulletIdRef g) (blockIdRef g) (powerUpIdRef g)
    (positionRef g) (finalScoreRef g) (lastFireTimeRef g) (scoreRef g)
    (gameStateRef g) (blockFallSpeedRef g) (activePowerUpsRef g)
    (needsRenderRef g) (gameContainerRef g) (playerRef g) (rafQueue g)
    (gameState g) (gameTime g) (blockSpawnRate g) (blockFallSpeed g)
    (blocksPerWave g) (activePowerUps g) (powerUpTimeLeft g) (score g)
    (isDragging g) (dragStart g).
Definition set_bulletsRef (v : list nat) (g : Game) : Game :=
  mkGame (bulletHeap g) (heapNext g) (bulletPoolRef g) v (blocksRef g)
    (powerUpsRef g) (bulletIdRef g) (blockIdRef g) (powerUpIdRef g)
    (positionRef g) (finalScoreRef g) (lastFireTimeRef g) (scoreRef g)
    (gameStateRef g) (blockFallSpeedRef g) (activePowerUpsRef g)
    (needsRenderRef g) (gameContainerRef g) (playerRef g) (rafQueue g)
    (gameState g) (gameTime g) (blockSpawnRate g) (blockFallSpeed g)
    (blocksPerWave g) (activePowerUps g) (powerUpTimeLeft g) (score g)
    (isDragging g) (dragStart g).
Definition set_blocksRef (v : list Block.t) (g : Game) : Game :=
  mkGame (bulletHeap g) (heapNext g) (bulletPoolRef g) (bulletsRef g) v
    (powerUpsRef g) (bulletIdRef g) (blockIdRef g) (powerUpIdRef g)
    (positionRef g) (finalScoreRef g) (lastFireTimeRef g) (scoreRef g)
    (gameStateRef g) (blockFallSpeedRef g) (activePowerUpsRef g)
    (needsRenderRef g) (gameContainerRef g) (playerRef g) (rafQueue g)
    (gameState g) (gameTime g) (blockSpawnRate g) (blockFallSpeed g)
    (blocksPerWave g) (activePowerUps g) (powerUpTimeLeft g) (score g)
    (isDragging g) (dragStart g).
Definition set_powerUpsRef (v : list PowerUp.t) (g : Game) : Game :=
  mkGame (bulletHeap g) (heapNext g) (bulletPoolRef g) (bulletsRef g)
    (blocksRef g) v (bulletIdRef g) (blockIdRef g) (powerUpIdRef g)
    (positionRef g) (finalScoreRef g) (lastFireTimeRef g) (scoreRef g)
    (gameStateRef g) (blockFallSpeedRef g) (activePowerUpsRef g)
    (needsRenderRef g) (gameContainerRef g) (playerRef g) (rafQueue g)
    (gameState g) (gameTime g) (blockSpawnRate g) (blockFallSpeed g)
    (blocksPerWave g) (activePowerUps g) (powerUpTimeLeft g) (score g)
    (isDragging g) (dragStart g).
Definition set_bulletIdRef (v : Z) (g : Game) : Game :=
  mkGame (bulletHeap g) (heapNext g) (bulletPoolRef g) (bulletsRef g)
    (blocksRef g) (powerUpsRef g) v (blockIdRef g) (powerUpIdRef g)
    (positionRef g) (finalScoreRef g) (lastFireTimeRef g) (scoreRef g)
    (gameStateRef g) (blockFallSpeedRef g) (activePowerUpsRef g)
    (needsRenderRef g) (gameContainerRef g) (playerRef g) (rafQueue g)
    (gameState g) (gameTime g) (blockSpawnRate g) (blockFallSpeed g)
    (blocksPerWave g) (activePowerUps g) (powerUpTimeLeft g) (score g)
    (isDragging g) (dragStart g).
Definition set_blockIdRef (v : Z) (g : Game) : Game :=
  mkGame (bulletHeap g) (heapNext g) (bulletPoolRef g) (bulletsRef g)
    (blocksRef g) (powerUpsRef g) (bulletIdRef g) v (powerUpIdRef g)
    (positionRef g) (finalScoreRef g) (lastFireTimeRef g) (scoreRef g)
    (gameStateRef g) (blockFallSpeedRef g) (activePowerUpsRef g)
    (needsRenderRef g) (gameContainerRef g) (playerRef g) (rafQueue g)
    (gameState g) (gameTime g) (blockSpawnRate g) (blockFallSpeed g)
    (blocksPerWave g) (activePowerUps g) (powerUpTimeLeft g) (score g)
    (isDragging g) (dragStart g).
Definition set_powerUpIdRef (v : Z) (g : Game) : Game :=
  mkGame (bulletHeap g) (heapNext g) (bulletPoolRef g) (bulletsRef g)
    (blocksRef g) (powerUpsRef g) (bulletIdRef g) (blockIdRef g) v
    (positionRef g) (finalScoreRef g) (lastFireTimeRef g) (scoreRef g)
    (gameStateRef g) (blockFallSpeedRef g) (activePowerUpsRef g)
    (needsRenderRef g) (gameContainerRef g) (playerRef g) (rafQueue g)
    (gameState g) (gameTime g) (blockSpawnRate g) (blockFallSpeed g)
    (blocksPerWave g) (activePowerUps g) (powerUpTimeLeft g) (score g)
    (isDragging g) (dragStart g).
Definition set_positionRef (v : R * R) (g : Game) : Game :=
  mkGame (bulletHeap g) (heapNext g) (bulletPoolRef g) (bulletsRef g)
    (blocksRef g) (powerUpsRef g) (bulletIdRef g) (blockIdRef g) (powerUpIdRef
    g) v (finalScoreRef g) (lastFireTimeRef g) (scoreRef g) (gameStateRef g)
    (blockFallSpeedRef g) (activePowerUpsRef g) (needsRenderRef g)
    (gameContainerRef g) (playerRef g) (rafQueue g) (gameState g) (gameTime g)
    (blockSpawnRate g) (blockFallSpeed g) (blocksPerWave g) (activePowerUps g)
    (powerUpTimeLeft g) (score g) (isDragging g) (dragStart g).
Definition set_finalScoreRef (v : Z) (g : Game) : Game :=
  mkGame (bulletHeap g) (heapNext g) (bulletPoolRef g) (bulletsRef g)
    (blocksRef g) (powerUpsRef g) (bulletIdRef g) (blockIdRef g) (powerUpIdRef
    g) (positionRef g) v (lastFireTimeRef g) (scoreRef g) (gameStateRef g)
    (blockFallSpeedRef g) (activePowerUpsRef g) (needsRenderRef g)
    (gameContainerRef g) (playerRef g) (rafQueue g) (gameState g) (gameTime g)
    (blockSpawnRate g) (blockFallSpeed g) (blocksPerWave g) (activePowerUps g)
    (powerUpTimeLeft g) (score g) (isDragging g) (dragStart g).
Definition set_lastFireTimeRef (v : Z) (g : Game) : Game :=
  mkGame (bulletHeap g) (heapNext g) (bulletPoolRef g) (bulletsRef g)
    (blocksRef g) (powerUpsRef g) (bulletIdRef g) (blockIdRef g) (powerUpIdRef
    g) (positionRef g) (finalScoreRef g) v (scoreRef g) (gameStateRef g)
    (blockFallSpeedRef g) (activePowerUpsRef g) (needsRenderRef g)
    (gameContainerRef g) (playerRef g) (rafQueue g) (gameState g) (gameTime g)
    (blockSpawnRate g) (blockFallSpeed g) (blocksPerWave g) (activePowerUps g)
    (powerUpTimeLeft g) (score g) (isDragging g) (dragStart g).
Definition set_scoreRef (v : Z) (g : Game) : Game :=
  mkGame (bulletHeap g) (heapNext g) (bulletPoolRef g) (bulletsRef g)
    (blocksRef g) (powerUpsRef g) (bulletIdRef g) (blockIdRef g) (powerUpIdRef
    g) (positionRef g) (finalScoreRef g) (lastFireTimeRef g) v (gameStateRef
    g) (blockFallSpeedRef g) (activePowerUpsRef g) (needsRenderRef g)
    (gameContainerRef g) (playerRef g) (rafQueue g) (gameState g) (gameTime g)
    (blockSpawnRate g) (blockFallSpeed g) (blocksPerWave g) (activePowerUps g)
    (powerUpTimeLeft g) (score g) (isDragging g) (dragStart g).
Definition set_gameStateRef (v : GameState) (g : Game) : Game :=
  mkGame (bulletHeap g) (heapNext g) (bulletPoolRef g) (bulletsRef g)
    (blocksRef g) (powerUpsRef g) (bulletIdRef g) (blockIdRef g) (powerUpIdRef
    g) (positionRef g) (finalScoreRef g) (lastFireTimeRef g) (scoreRef g) v
    (blockFallSpeedRef g) (activePowerUpsRef g) (needsRenderRef g)
    (gameContainerRef g) (playerRef g) (rafQueue g) (gameState g) (gameTime g)
    (blockSpawnRate g) (blockFallSpeed g) (blocksPerWave g) (activePowerUps g)
    (powerUpTimeLeft g) (score g) (isDragging g) (dragStart g).
Definition set_blockFallSpeedRef (v : R) (g : Game) : Game :=
  mkGame (bulletHeap g) (heapNext g) (bulletPoolRef g) (bulletsRef g)
    (blocksRef g) (powerUpsRef g) (bulletIdRef g) (blockIdRef g) (powerUpIdRef
    g) (positionRef g) (finalScoreRef g) (lastFireTimeRef g) (scoreRef g)
    (gameStateRef g) v (activePowerUpsRef g) (needsRenderRef g)
    (gameContainerRef g) (playerRef g) (rafQueue g) (gameState g) (gameTime g)
    (blockSpawnRate g) (blockFallSpeed g) (blocksPerWave g) (activePowerUps g)
    (powerUpTimeLeft g) (score g) (isDragging g) (dragStart g).
Definition set_activePowerUpsRef (v : PowerUpSlots bool) (g : Game) : Game :=
  mkGame (bulletHeap g) (heapNext g) (bulletPoolRef g) (bulletsRef g)
    (blocksRef g) (powerUpsRef g) (bulletIdRef g) (blockIdRef g) (powerUpIdRef
    g) (positionRef g) (finalScoreRef g) (lastFireTimeRef g) (scoreRef g)
    (gameStateRef g) (blockFallSpeedRef g) v (needsRenderRef g)
    (gameContainerRef g) (playerRef g) (rafQueue g) (gameState g) (gameTime g)
    (blockSpawnRate g) (blockFallSpeed g) (blocksPerWave g) (activePowerUps g)
    (powerUpTimeLeft g) (score g) (isDragging g) (dragStart g).
Definition set_needsRenderRef (v : bool) (g : Game) : Game :=
  mkGame (bulletHeap g) (heapNext g) (bulletPoolRef g) (bulletsRef g)
    (blocksRef g) (powerUpsRef g) (bulletIdRef g) (blockIdRef g) (powerUpIdRef
    g) (positionRef g) (finalScoreRef g) (lastFireTimeRef g) (scoreRef g)
    (gameStateRef g) (blockFallSpeedRef g) (activePowerUpsRef g) v
    (gameContainerRef g) (playerRef g) (rafQueue g) (gameState g) (gameTime g)
    (blockSpawnRate g) (blockFallSpeed g) (blocksPerWave g) (activePowerUps g)
    (powerUpTimeLeft g) (score g) (isDragging g) (dragStart g).
Definition set_gameContainerRef (v : option (R * R)) (g : Game) : Game :=
  mkGame (bulletHeap g) (heapNext g) (bulletPoolRef g) (bulletsRef g)
    (blocksRef g) (powerUpsRef g) (bulletIdRef g) (blockIdRef g) (powerUpIdRef
    g) (positionRef g) (finalScoreRef g) (lastFireTimeRef g) (scoreRef g)
    (gameStateRef g) (blockFallSpeedRef g) (activePowerUpsRef g)
    (needsRenderRef g) v (playerRef g) (rafQueue g) (gameState g) (gameTime g)
    (blockSpawnRate g) (blockFallSpeed g) (blocksPerWave g) (activePowerUps g)
    (powerUpTimeLeft g) (score g) (isDragging g) (dragStart g).
Definition set_playerRef (v : option (R * R)) (g : Game) : Game :=
  mkGame (bulletHeap g) (heapNext g) (bulletPoolRef g) (bulletsRef g)
    (blocksRef g) (powerUpsRef g) (bulletIdRef g) (blockIdRef g) (powerUpIdRef
    g) (positionRef g) (finalScoreRef g) (lastFireTimeRef g) (scoreRef g)
    (gameStateRef g) (blockFallSpeedRef g) (activePowerUpsRef g)
    (needsRenderRef g) (gameContainerRef g) v (rafQueue g) (gameState g)
    (gameTime g) (blockSpawnRate g) (blockFallSpeed g) (blocksPerWave g)
    (activePowerUps g) (powerUpTimeLeft g) (score g) (isDragging g) (dragStart
    g).
Definition set_rafQueue (v : list Loop) (g : Game) : Game :=
  mkGame (bulletHeap g) (heapNext g) (bulletPoolRef g) (bulletsRef g)
    (blocksRef g) (powerUpsRef g) (bulletIdRef g) (blockIdRef g) (powerUpIdRef
    g) (positionRef g) (finalScoreRef g) (lastFireTimeRef g) (scoreRef g)
    (gameStateRef g) (blockFallSpeedRef g) (activePowerUpsRef g)
    (needsRenderRef g) (gameContainerRef g) (playerRef g) v (gameState g)
    (gameTime g) (blockSpawnRate g) (blockFallSpeed g) (blocksPerWave g)
    (activePowerUps g) (powerUpTimeLeft g) (score g) (isDragging g) (dragStart
    g).
Definition set_gameState (v : GameState) (g : Game) : Game :=
  mkGame (bulletHeap g) (heapNext g) (bulletPoolRef g) (bulletsRef g)
    (blocksRef g) (powerUpsRef g) (bulletIdRef g) (blockIdRef g) (powerUpIdRef
    g) (positionRef g) (finalScoreRef g) (lastFireTimeRef g) (scoreRef g)
    (gameStateRef g) (blockFallSpeedRef g) (activePowerUpsRef g)
    (needsRenderRef g) (gameContainerRef g) (playerRef g) (rafQueue g) v
    (gameTime g) (blockSpawnRate g) (blockFallSpeed g) (blocksPerWave g)
    (activePowerUps g) (powerUpTimeLeft g) (score g) (isDragging g) (dragStart
    g).
Definition set_gameTime (v : Z) (g : Game) : Game :=
  mkGame (bulletHeap g) (heapNext g) (bulletPoolRef g) (bulletsRef g)
    (blocksRef g) (powerUpsRef g) (bulletIdRef g) (blockIdRef g) (powerUpIdRef
    g) (positionRef g) (finalScoreRef g) (lastFireTimeRef g) (scoreRef g)
    (gameStateRef g) (blockFallSpeedRef g) (activePowerUpsRef g)
    (needsRenderRef g) (gameContainerRef g) (playerRef g) (rafQueue g)
    (gameState g) v (blockSpawnRate g) (blockFallSpeed g) (blocksPerWave g)
    (activePowerUps g) (powerUpTimeLeft g) (score g) (isDragging g) (dragStart
    g).
Definition set_blockSpawnRate (v : Z) (g : Game) : Game :=
  mkGame (bulletHeap g) (heapNext g) (bulletPoolRef g) (bulletsRef g)
    (blocksRef g) (powerUpsRef g) (bulletIdRef g) (blockIdRef g) (powerUpIdRef
    g) (positionRef g) (finalScoreRef g) (lastFireTimeRef g) (scoreRef g)
    (gameStateRef g) (blockFallSpeedRef g) (activePowerUpsRef g)
    (needsRenderRef g) (gameContainerRef g) (playerRef g) (rafQueue g)
    (gameState g) (gameTime g) v (blockFallSpeed g) (blocksPerWave g)
    (activePowerUps g) (powerUpTimeLeft g) (score g) (isDragging g) (dragStart
    g).
Definition set_blockFallSpeed (v : R) (g : Game) : Game :=
  mkGame (bulletHeap g) (heapNext g) (bulletPoolRef g) (bulletsRef g)
    (blocksRef g) (powerUpsRef g) (bulletIdRef g) (blockIdRef g) (powerUpIdRef
    g) (positionRef g) (finalScoreRef g) (lastFireTimeRef g) (scoreRef g)
    (gameStateRef g) (blockFallSpeedRef g) (activePowerUpsRef g)
    (needsRenderRef g) (gameContainerRef g) (playerRef g) (rafQueue g)
    (gameState g) (gameTime g) (blockSpawnRate g) v (blocksPerWave g)
    (activePowerUps g) (powerUpTimeLeft g) (score g) (isDragging g) (dragStart
    g).
Definition set_blocksPerWave (v : Z) (g : Game) : Game :=
  mkGame (bulletHeap g) (heapNext g) (bulletPoolRef g) (bulletsRef g)
    (blocksRef g) (powerUpsRef g) (bulletIdRef g) (blockIdRef g) (powerUpIdRef
    g) (positionRef g) (finalScoreRef g) (lastFireTimeRef g) (scoreRef g)
    (gameStateRef g) (blockFallSpeedRef g) (activePowerUpsRef g)
    (needsRenderRef g) (gameContainerRef g) (playerRef g) (rafQueue g)
    (gameState g) (gameTime g) (blockSpawnRate g) (blockFallSpeed g) v
    (activePowerUps g) (powerUpTimeLeft g) (score g) (isDragging g) (dragStart
    g).
Definition set_activePowerUps (v : PowerUpSlots bool) (g : Game) : Game :=
  mkGame (bulletHeap g) (heapNext g) (bulletPoolRef g) (bulletsRef g)
    (blocksRef g) (powerUpsRef g) (bulletIdRef g) (blockIdRef g) (powerUpIdRef
    g) (positionRef g) (finalScoreRef g) (lastFireTimeRef g) (scoreRef g)
    (gameStateRef g) (blockFallSpeedRef g) (activePowerUpsRef g)
    (needsRenderRef g) (gameContainerRef g) (playerRef g) (rafQueue g)
    (gameState g) (gameTime g) (blockSpawnRate g) (blockFallSpeed g)
    (blocksPerWave g) v (powerUpTimeLeft g) (score g) (isDragging g)
    (dragStart g).
Definition set_powerUpTimeLeft (v : PowerUpSlots Z) (g : Game) : Game :=
  mkGame (bulletHeap g) (heapNext g) (bulletPoolRef g) (bulletsRef g)
    (blocksRef g) (powerUpsRef g) (bulletIdRef g) (blockIdRef g) (powerUpIdRef
    g) (positionRef g) (finalScoreRef g) (lastFireTimeRef g) (scoreRef g)
    (gameStateRef g) (blockFallSpeedRef g) (activePowerUpsRef g)
    (needsRenderRef g) (gameContainerRef g) (playerRef g) (rafQueue g)
    (gameState g) (gameTime g) (blockSpawnRate g) (blockFallSpeed g)
    (blocksPerWave g) (activePowerUps g) v (score g) (isDragging g) (dragStart
    g).
Definition set_score (v : Z) (g : Game) : Game :=
  mkGame (bulletHeap g) (heapNext g) (bulletPoolRef g) (bulletsRef g)
    (blocksRef g) (powerUpsRef g) (bulletIdRef g) (blockIdRef g) (powerUpIdRef
    g) (positionRef g) (finalScoreRef g) (lastFireTimeRef g) (scoreRef g)
    (gameStateRef g) (blockFallSpeedRef g) (activePowerUpsRef g)
    (needsRenderRef g) (gameContainerRef g) (playerRef g) (rafQueue g)
    (gameState g) (gameTime g) (blockSpawnRate g) (blockFallSpeed g)
    (blocksPerWave g) (activePowerUps g) (powerUpTimeLeft g) v (isDragging g)
    (dragStart g).
Definition set_isDragging (v : bool) (g : Game) : Game :=
  mkGame (bulletHeap g) (heapNext g) (bulletPoolRef g) (bulletsRef g)
    (blocksRef g) (powerUpsRef g) (bulletIdRef g) (blockIdRef g) (powerUpIdRef
    g) (positionRef g) (finalScoreRef g) (lastFireTimeRef g) (scoreRef g)
    (gameStateRef g) (blockFallSpeedRef g) (activePowerUpsRef g)
    (needsRenderRef g) (gameContainerRef g) (playerRef g) (rafQueue g)
    (gameState g) (gameTime g) (blockSpawnRate g) (blockFallSpeed g)
    (blocksPerWave g) (activePowerUps g) (powerUpTimeLeft g) (score g) v
    (dragStart g).
Definition set_dragStart (v : R * R) (g : Game) : Game :=
  mkGame (bulletHeap g) (heapNext g) (bulletPoolRef g) (bulletsRef g)
    (blocksRef g) (powerUpsRef g) (bulletIdRef g) (blockIdRef g) (powerUpIdRef
    g) (positionRef g) (finalScoreRef g) (lastFireTimeRef g) (scoreRef g)
    (gameStateRef g) (blockFallSpeedRef g) (activePowerUpsRef g)
    (needsRenderRef g) (gameContainerRef g) (playerRef g) (rafQueue g)
    (gameState g) (gameTime g) (blockSpawnRate g) (blockFallSpeed g)
    (blocksPerWave g) (activePowerUps g) (powerUpTimeLeft g) (score g)
    (isDragging g) v.

(** ** Helpers on arrays and on the object store *)

(** [array.pop()]: the array without its last element, and that element. *)
Fixpoint pop {A} (l : list A) : option (list A * A) :=
  match l with
  | [] => None
  | a :: l' =>
      match pop l' with
      | None => Some ([], a)
      | Some (r, z) => Some (a :: r, z)
      end
  end.

(** Assignment to the fields of the object at reference [r]. *)
Definition heapSet (h : nat -> Bullet.t) (r : nat) (b : Bullet.t)
  : nat -> Bullet.t :=
  fun r' => if Nat.eqb r' r then b else h r'.

Definition MAX_BULLETS : Z := 100.

(** ** Animation frames *)

Definition requestAnimationFrame (l : Loop) (g : Game) : Game :=
  set_rafQueue (rafQueue g ++ [l]) g.

Definition isRenderLoop (l : Loop) : bool :=
  match l with LRender => true | _ => false end.

(** [Object.values(animationFrameIds.current).forEach(cancelAnimationFrame);
    animationFrameIds.current = {}]: every pending callback of the five game
    loops is withdrawn; [updateRender] keeps its own id and stays. *)
Definition cancelAnimationFrames (g : Game) : Game :=
  set_rafQueue (filter isRenderLoop (rafQueue g)) g.

(** ** Object pool *)

(** [createBullet] (lines 213-225). *)
Definition createBullet (x y angle : R) (g : Game) : nat * Game :=
  match pop (bulletPoolRef g) with
  | Some (rest, r) =>
      let b := bulletHeap g r in
      (r, set_bulletHeap
            (heapSet (bulletHeap g) r (Bullet.mk (Bullet.id b) x y angle))
            (set_bulletPoolRef rest g))
  | None =>
      let r := heapNext g in
      (r, set_bulletIdRef (bulletIdRef g + 1)%Z
            (set_heapNext (S r)
               (set_bulletHeap
                  (heapSet (bulletHeap g) r
                     (Bullet.mk (bulletIdRef g) x y angle)) g)))
  end.

(** The pool's release, written twice in the source (lines 926-932 and
    1047-1051): [availableSpace = MAX_BULLETS - pool.length; if
    (availableSpace > 0) pool.push(...bs.slice(0, availableSpace))]. *)
Definition releaseBullets (bs : list nat) (g : Game) : Game :=
  let availableSpace := (MAX_BULLETS - Z.of_nat (length (bulletPoolRef g)))%Z in
  if (0 <? availableSpace)%Z
  then set_bulletPoolRef
         (bulletPoolRef g ++ firstn (Z.to_nat availableSpace) bs) g
  else g.

(** ** Power-ups *)

Definition powerUpTypes : list PowerUpType.t :=
  [PowerUpType.fireSpeed; PowerUpType.multiDirectional;
   PowerUpType.slowMotion].

(** [spawnPowerUp] (lines 228-251); [r1] and [r2] are its two
    [Math.random()] draws.  The index [Math.floor(r2 * 3)] is within the
    array for every draw in [0, 1); the default of [nth] is never read
    then.  The products [r1 * (containerWidth - 30)] and [r2 * 3] are exact
    here and rounded to a double in the source: for a draw within a rounding
    step below 1/3 or 2/3 the source can take the next index. *)
Definition spawnPowerUp (r1 r2 : R) (g : Game) : Game :=
  match gameContainerRef g with
  | Some (containerWidth, _) =>
      if GameState_eqb (gameStateRef g) playing then
        let powerUpWidth := 30 in
        let powerUpX := r1 * (containerWidth - powerUpWidth) in
        let randomType :=
          nth (Z.to_nat (Math_floor (r2 * INR (length powerUpTypes))))
              powerUpTypes PowerUpType.slowMotion in
        let newPowerUp :=
          PowerUp.mk (powerUpIdRef g) powerUpX (-50) randomType in
        set_needsRenderRef true
          (set_powerUpIdRef (powerUpIdRef g + 1)%Z
             (set_powerUpsRef (powerUpsRef g ++ [newPowerUp]) g))
      else g
  | None => g
  end.

(** [activatePowerUp] (lines 254-270). *)
Definition activatePowerUp (ty : PowerUpType.t) (g : Game) : Game :=
  let updated := setSlot ty true (activePowerUps g) in
  let g := set_activePowerUpsRef updated (set_activePowerUps updated g) in
  set_powerUpTimeLeft
    (setSlot ty (if PowerUpType.eqb ty PowerUpType.slowMotion then 5 else 10)%Z
       (powerUpTimeLeft g)) g.

(** The body of [powerUpTimerInterval] (lines 547-564), run once per second
    while [gameState] is ["playing"]. *)
Definition powerUpTimerTick (g : Game) : Game :=
  if GameState_eqb (gameState g) playing then
    let prev := powerUpTimeLeft g in
    let newTimeLeft :=
      mkSlots (Z.max 0 (fireSpeed prev - 1))
              (Z.max 0 (multiDirectional prev - 1))
              (Z.max 0 (slowMotion prev - 1)) in
    set_powerUpTimeLeft newTimeLeft
      (set_activePowerUps
         (mkSlots (0 <? fireSpeed newTimeLeft)%Z
                  (0 <? multiDirectional newTimeLeft)%Z
                  (0 <? slowMotion newTimeLeft)%Z) g)
  else g.

(** ** Session *)

(** [triggerGameOver] (lines 273-296), without its sounds and the red
    flash. *)
Definition triggerGameOver (g : Game) : Game :=
  set_gameStateRef gameOver (set_gameState gameOver (cancelAnimationFrames g)).

(** The body of [gameTimerInterval] (lines 512-538), run once per second
    while [gameState] is ["playing"]; [r1], [r2] are the draws of the
    [spawnPowerUp] it may call.  JavaScript's [%] is [Z.rem].  The updater
    passed to [setGameTime] runs once per tick, as React runs it outside
    its development checks. *)
Definition gameTimerTick (r1 r2 : R) (g : Game) : Game :=
  if GameState_eqb (gameState g) playing then
    let newTime := (gameTime g + 1)%Z in
    let g1 :=
      if ((Z.rem newTime 10 =? 0) && (blocksPerWave g <? 5))%Z
      then set_blocksPerWave (Z.min (blocksPerWave g + 1) 5) g else g in
    let g2 :=
      if (Z.rem newTime 15 =? 0)%Z
      then set_blockFallSpeed (blockFallSpeed g1 + 0.5) g1 else g1 in
    let g3 :=
      if ((Z.rem newTime 20 =? 0) && (500 <? blockSpawnRate g))%Z
      then set_blockSpawnRate (Z.max (blockSpawnRate g2 - 300) 500) g2
      else g2 in
    let g4 :=
      if (Z.rem newTime 20 =? 0)%Z then spawnPowerUp r1 r2 g3 else g3 in
    set_gameTime newTime g4
  else g.

(** The effects that follow a render (lines 492-506, 570-574, 592-600) and
    the attachment of [playerRef], whose element (48px by 48px, lines
    1336-1344) is rendered only while playing. *)
Definition commitEffects (g : Game) : Game :=
  let g := set_playerRef
             (if GameState_eqb (gameState g) playing
              then Some (48, 48) else None) g in
  let g := set_gameStateRef (gameState g) g in
  let g := set_blockFallSpeedRef (blockFallSpeed g) g in
  let g := set_activePowerUpsRef (activePowerUps g) g in
  let g := if GameState_eqb (gameState g) gameOver
           then set_finalScoreRef (score g) g else g in
  if GameState_eqb (gameState g) playing then g else cancelAnimationFrames g.

(** ** Dragging (lines 342-399) *)

Definition handleTouchStart (clientX clientY : R) (g : Game) : Game :=
  if GameState_eqb (gameState g) playing then
    set_dragStart (clientX - fst (positionRef g), clientY - snd (positionRef g))
      (set_isDragging true g)
  else g.

Definition handleTouchMove (clientX clientY : R) (g : Game) : Game :=
  if isDragging g && GameState_eqb (gameState g) playing then
    match playerRef g, gameContainerRef g with
    | Some (playerWidth, playerHeight), Some (containerWidth, containerHeight) =>
        let newX := clientX - fst (dragStart g) in
        let newY := clientY - snd (dragStart g) in
        let newX := Rmax 0 (Rmin (containerWidth - playerWidth) newX) in
        let newY := Rmax 0 (Rmin (containerHeight - playerHeight) newY) in
        set_positionRef (newX, newY) g
    | _, _ => g
    end
  else g.

Definition handleTouchEnd (g : Game) : Game :=
  if isDragging g then set_isDragging false g else g.

(** ** Firing (lines 639-670) *)

(** [fireBullet]; [now] is the reading of [Date.now()]. *)
Definition fireBullet (now : Z) (g : Game) : Game :=
  match playerRef g with
  | Some (playerWidth, _) =>
      if GameState_eqb (gameStateRef g) playing then
        let currentPosition := positionRef g in
        let fireRate :=
          (if fireSpeed (activePowerUpsRef g) then 100 else 200)%Z in
        if (now - lastFireTimeRef g <? fireRate)%Z then g
        else
          let g := set_lastFireTimeRef now g in
          let bulletX := fst currentPosition + playerWidth / 2 - 4 in
          let bulletY := snd currentPosition - 8 in
          let g :=
            if multiDirectional (activePowerUpsRef g) then
              let '(b1, g1) := createBullet bulletX bulletY 0 g in
              let '(b2, g2) := createBullet (bulletX - 8) bulletY (-30) g1 in
              let '(b3, g3) := createBullet (bulletX + 8) bulletY 30 g2 in
              set_bulletsRef (bulletsRef g3 ++ [b1; b2; b3]) g3
            else
              let '(b1, g1) := createBullet bulletX bulletY 0 g in
              set_bulletsRef (bulletsRef g1 ++ [b1]) g1 in
          set_needsRenderRef true g
      else g
  | None => g
  end.

(** ** Block spawning (lines 684-715) *)

(** The block made by iteration [i] of the loop; [rand k] is the [k]-th
    [Math.random()] draw of the call. *)
Definition newBlock (rand : nat -> R) (containerWidth : R) (i : nat) (id : Z)
  : Block.t :=
  let blockWidth := 40 in
  let blockX := rand (3 * i)%nat * (containerWidth - blockWidth) in
  let blockHp := (Math_floor (rand (3 * i + 1)%nat * 10) + 1)%Z in
  let isBreakable := Rltb 0.1 (rand (3 * i + 2)%nat) in
  Block.mk id blockX (-50 - INR i * 60)
           (if isBreakable then blockHp else 999%Z) false isBreakable.

Definition spawnBlock (rand : nat -> R) (g : Game) : Game :=
  match gameContainerRef g with
  | Some (containerWidth, _) =>
      if GameState_eqb (gameStateRef g) playing then
        let g :=
          fold_left
            (fun g i =>
               set_blockIdRef (blockIdRef g + 1)%Z
                 (set_blocksRef
                    (blocksRef g ++
                       [newBlock rand containerWidth i (blockIdRef g)]) g))
            (seq 0 (Z.to_nat (blocksPerWave g))) g in
        set_needsRenderRef true g
      else g
  | None => g
  end.

(** ** The animation loops (lines 843-1145) *)

(** [animatePlayer]; [keys] and [dragging] are the values of [keys] and
    [isDragging] that the callback closed over. *)
Definition animatePlayer (keys : Keys.t) (dragging : bool) (g : Game) : Game :=
  if GameState_eqb (gameStateRef g) playing then
    match gameContainerRef g, playerRef g with
    | Some (containerWidth, containerHeight), Some (playerWidth, playerHeight) =>
        let speed := 5 in
        let up := Keys.ArrowUp keys || Keys.w keys in
        let down := Keys.ArrowDown keys || Keys.s keys in
        let left := Keys.ArrowLeft keys || Keys.a keys in
        let right := Keys.ArrowRight keys || Keys.d keys in
        let newX := fst (positionRef g) in
        let newY := snd (positionRef g) in
        let newY := if up then newY - speed else newY in
        let newY := if down then newY + speed else newY in
        let newX := if left then newX - speed else newX in
        let newX := if right then newX + speed else newX in
        let positionChanged := up || down || left || right in
        let g :=
          if positionChanged && negb dragging then
            let newX := Rmax 0 (Rmin (containerWidth - playerWidth) newX) in
            let newY := Rmax 0 (Rmin (containerHeight - playerHeight) newY) in
            set_positionRef (newX, newY) g
          else g in
        requestAnimationFrame LPlayer g
    | _, _ => g
    end
  else g.

(** One bullet's move (lines 905-912).  [bullet.angle || 0] is
    [bullet.angle]: [createBullet] always stores a number.  [sin], [cos],
    the products and the sums are exact here and rounded to doubles in the
    source, where the steps of a tilted bullet are 4.999999999999999 and
    8.660254037844387. *)
Definition moveBullet (bullet : Bullet.t) : Bullet.t :=
  let angle := Bullet.angle bullet in
  let radians := angle * PI / 180 in
  let speedX := sin radians * 10 in
  let speedY := - cos radians * 10 in
  Bullet.mk (Bullet.id bullet) (Bullet.x bullet + speedX)
            (Bullet.y bullet + speedY) (Bullet.angle bullet).

(** The loop of [animateBullets] over the live array: each object is moved
    in the store and its reference goes to [keptBullets] or
    [recycledBullets]. *)
Fixpoint moveBullets (bs : list nat) (h : nat -> Bullet.t)
    (keptBullets recycledBullets : list nat)
  : (nat -> Bullet.t) * list nat * list nat :=
  match bs with
  | [] => (h, keptBullets, recycledBullets)
  | r :: bs' =>
      let bullet := moveBullet (h r) in
      let h' := heapSet h r bullet in
      if Rltb (-20) (Bullet.y bullet)
      then moveBullets bs' h' (keptBullets ++ [r]) recycledBullets
      else moveBullets bs' h' keptBullets (recycledBullets ++ [r])
  end.

(** [animateBullets] (lines 897-936). *)
Definition animateBullets (g : Game) : Game :=
  if GameState_eqb (gameStateRef g) playing then
    let '(h, keptBullets, recycledBullets) :=
      moveBullets (bulletsRef g) (bulletHeap g) [] [] in
    let g := set_bulletsRef keptBullets (set_bulletHeap h g) in
    let g :=
      match recycledBullets with
      | [] => g
      | _ :: _ => releaseBullets recycledBullets g
      end in
    requestAnimationFrame LBullets (set_needsRenderRef true g)
  else g.

(** [animateObjects] (lines 939-974). *)
Definition animateObjects (g : Game) : Game :=
  if GameState_eqb (gameStateRef g) playing then
    match gameContainerRef g with
    | Some (_, containerHeight) =>
        let currentFallSpeed :=
          if slowMotion (activePowerUpsRef g)
          then blockFallSpeedRef g * 0.5 else blockFallSpeedRef g in
        let updatedBlocks :=
          filter
            (fun block =>
               Rltb (Block.y block) (containerHeight + 50) &&
               (if Block.isBreakable block then (0 <? Block.hp block)%Z
                else true))
            (map (fun block =>
                    Block.mk (Block.id block) (Block.x block)
                             (Block.y block + currentFallSpeed)
                             (Block.hp block) (Block.isHit block)
                             (Block.isBreakable block))
                 (blocksRef g)) in
        let updatedPowerUps :=
          filter
            (fun powerUp => Rltb (PowerUp.y powerUp) (containerHeight + 50))
            (map (fun powerUp =>
                    PowerUp.mk (PowerUp.id powerUp) (PowerUp.x powerUp)
                               (PowerUp.y powerUp + 2) (PowerUp.type powerUp))
                 (powerUpsRef g)) in
        requestAnimationFrame LObjects
          (set_needsRenderRef true
             (set_powerUpsRef updatedPowerUps (set_blocksRef updatedBlocks g)))
    | None => g
    end
  else g.

(** The overlap test of [checkCollisions] (lines 1000-1022). *)
Definition bulletOverlapsBlock (bullet : Bullet.t) (block : Block.t) : bool :=
  let bulletLeft := Bullet.x bullet in
  let bulletRight := Bullet.x bullet + 8 in
  let bulletTop := Bullet.y bullet in
  let bulletBottom := Bullet.y bullet + 16 in
  let blockLeft := Block.x block in
  let blockRight := Block.x block + 40 in
  let blockTop := Block.y block in
  let blockBottom := Block.y block + 40 in
  Rltb blockLeft bulletRight && Rltb bulletLeft blockRight &&
  Rltb blockTop bulletBottom && Rltb bulletTop blockBottom.

(** The update of the block that a bullet hit (lines 1031-1036). *)
Definition hitBlock (block : Block.t) : Block.t :=
  Block.mk (Block.id block) (Block.x block) (Block.y block)
           (if Block.isBreakable block then Block.hp block - 1
            else Block.hp block)%Z
           true (Block.isBreakable block).

(** The inner loop (lines 1006-1039): the first overlapping block is
    updated and the loop breaks.  The result is the updated array and that
    block's [isBreakable], or [None] when no block overlaps. *)
Fixpoint scanBlocks (bullet : Bullet.t) (blocks : list Block.t)
  : option (list Block.t * bool) :=
  match blocks with
  | [] => None
  | block :: rest =>
      if bulletOverlapsBlock bullet block
      then Some (hitBlock block :: rest, Block.isBreakable block)
      else match scanBlocks bullet rest with
           | Some (rest', breakable) => Some (block :: rest', breakable)
           | None => None
           end
  end.

(** The outer loop (lines 995-1040) with its locals [bulletsToRecycle] and
    [hitDetected]. *)
Fixpoint collideBullets (bs : list nat) (g : Game)
    (bulletsToRecycle : list nat) (hitDetected : bool)
  : Game * list nat * bool :=
  match bs with
  | [] => (g, bulletsToRecycle, hitDetected)
  | r :: bs' =>
      match scanBlocks (bulletHeap g r) (blocksRef g) with
      | Some (blocks', breakable) =>
          let g := if breakable then set_scoreRef (scoreRef g + 1)%Z g
                   else g in
          collideBullets bs' (set_blocksRef blocks' g)
                         (bulletsToRecycle ++ [r]) true
      | None => collideBullets bs' g bulletsToRecycle hitDetected
      end
  end.

(** [!bulletsToRecycle.some((b) => b.id === bullet.id)] (line 1045). *)
Definition notRecycled (h : nat -> Bullet.t) (bulletsToRecycle : list nat)
    (r : nat) : bool :=
  negb (existsb (fun r' => (Bullet.id (h r') =? Bullet.id (h r))%Z)
                bulletsToRecycle).

(** [!block.isBreakable || block.hp > 0] (line 1057). *)
Definition blockSurvives (block : Block.t) : bool :=
  negb (Block.isBreakable block) || (0 <? Block.hp block)%Z.

(** [checkCollisions] (lines 978-1070).  The reset of [isHit] that it
    defers by 50ms is [clearIsHit] below. *)
Definition checkCollisions (g : Game) : Game :=
  if GameState_eqb (gameStateRef g) playing then
    match bulletsRef g, blocksRef g with
    | _ :: _, _ :: _ =>
        let '(g, bulletsToRecycle, hitDetected) :=
          collideBullets (bulletsRef g) g [] false in
        let g :=
          match bulletsToRecycle with
          | [] => g
          | _ :: _ =>
              releaseBullets bulletsToRecycle
                (set_bulletsRef
                   (filter (notRecycled (bulletHeap g) bulletsToRecycle)
                           (bulletsRef g)) g)
          end in
        let g :=
          if hitDetected
          then set_needsRenderRef true
                 (set_blocksRef (filter blockSurvives (blocksRef g)) g)
          else g in
        requestAnimationFrame LCollisions g
    | _, _ => requestAnimationFrame LCollisions g
    end
  else g.

(** The deferred callback of lines 1061-1066. *)
Definition clearIsHit (g : Game) : Game :=
  set_needsRenderRef true
    (set_blocksRef
       (map (fun block =>
               Block.mk (Block.id block) (Block.x block) (Block.y block)
                        (Block.hp block) false (Block.isBreakable block))
            (blocksRef g)) g).

(** The overlap tests of [checkPlayerCollisions] (lines 1077-1096 and
    1109-1121). *)
Definition playerOverlapsBlock (position : R * R) (block : Block.t) : bool :=
  let playerWidth := 48 in
  let playerHeight := 48 in
  let playerLeft := fst position in
  let playerRight := fst position + playerWidth in
  let playerTop := snd position in
  let playerBottom := snd position + playerHeight in
  let blockWidth := 40 in
  let blockHeight := 40 in
  let blockLeft := Block.x block in
  let blockRight := Block.x block + blockWidth in
  let blockTop := Block.y block in
  let blockBottom := Block.y block + blockHeight in
  Rltb playerLeft blockRight && Rltb blockLeft playerRight &&
  Rltb playerTop blockBottom && Rltb blockTop playerBottom.

Definition playerOverlapsPowerUp (position : R * R) (powerUp : PowerUp.t)
  : bool :=
  let playerWidth := 48 in
  let playerHeight := 48 in
  let playerLeft := fst position in
  let playerRight := fst position + playerWidth in
  let playerTop := snd position in
  let playerBottom := snd position + playerHeight in
  let powerUpWidth := 30 in
  let powerUpHeight := 30 in
  let powerUpLeft := PowerUp.x powerUp in
  let powerUpRight := PowerUp.x powerUp + powerUpWidth in
  let powerUpTop := PowerUp.y powerUp in
  let powerUpBottom := PowerUp.y powerUp + powerUpHeight in
  Rltb playerLeft powerUpRight && Rltb powerUpLeft playerRight &&
  Rltb playerTop powerUpBottom && Rltb powerUpTop playerBottom.

(** The loop over the power-ups (lines 1106-1128). *)
Fixpoint collectPowerUps (position : R * R) (ps : list PowerUp.t) (g : Game)
    (powerUpsToCollect : list Z) : Game * list Z :=
  match ps with
  | [] => (g, powerUpsToCollect)
  | powerUp :: ps' =>
      if playerOverlapsPowerUp position powerUp
      then collectPowerUps position ps'
             (activatePowerUp (PowerUp.type powerUp) g)
             (powerUpsToCollect ++ [PowerUp.id powerUp])
      else collectPowerUps position ps' g powerUpsToCollect
  end.

(** [checkPlayerCollisions] (lines 1073-1137). *)
Definition checkPlayerCollisions (g : Game) : Game :=
  if GameState_eqb (gameStateRef g) playing then
    match playerRef g with
    | Some _ =>
        if existsb (playerOverlapsBlock (positionRef g)) (blocksRef g)
        then triggerGameOver g
        else
          let '(g, powerUpsToCollect) :=
            collectPowerUps (positionRef g) (powerUpsRef g) g [] in
          let g :=
            match powerUpsToCollect with
            | [] => g
            | _ :: _ =>
                set_needsRenderRef true
                  (set_powerUpsRef
                     (filter
                        (fun powerUp =>
                           negb (existsb (Z.eqb (PowerUp.id powerUp))
                                         powerUpsToCollect))
                        (powerUpsRef g)) g)
            end in
          requestAnimationFrame LPlayerCollisions g
    | None => g
    end
  else g.

(** [updateRender] (lines 471-480); of the published snapshot only the
    score is kept. *)
Definition updateRender (g : Game) : Game :=
  let g :=
    if needsRenderRef g && GameState_eqb (gameStateRef g) playing
    then set_needsRenderRef false (set_score (scoreRef g) g)
    else g in
  requestAnimationFrame LRender g.

(** [startAnimationLoops], its last five lines (1140-1144). *)
Definition startAnimationLoops (g : Game) : Game :=
  requestAnimationFrame LPlayerCollisions
    (requestAnimationFrame LCollisions
       (requestAnimationFrame LObjects
          (requestAnimationFrame LBullets
             (requestAnimationFrame LPlayer g)))).

(** [startGame] (lines 754-840), without its sounds. *)
Definition startGame (g : Game) : Game :=
  match gameContainerRef g with
  | Some (containerWidth, containerHeight) =>
      let g := cancelAnimationFrames g in
      let newPosition := (containerWidth / 2 - 24, containerHeight - 100) in
      let g := set_positionRef newPosition g in
      let g := set_gameStateRef playing (set_gameState playing g) in
      let g := set_powerUpsRef [] (set_blocksRef [] (set_bulletsRef [] g)) in
      let g := set_gameTime 0%Z (set_score 0%Z (set_scoreRef 0%Z g)) in
      let g := set_blockSpawnRate 2000%Z g in
      let g := set_blockFallSpeedRef 3 (set_blockFallSpeed 3 g) in
      let g := set_blocksPerWave 1%Z g in
      let g := set_activePowerUps (mkSlots false false false) g in
      let g := set_activePowerUpsRef (mkSlots false false false) g in
      let g := set_powerUpTimeLeft (mkSlots 0 0 0)%Z g in
      let g := set_powerUpIdRef 0%Z
                 (set_blockIdRef 0%Z (set_bulletIdRef 0%Z g)) in
      let g := set_bulletPoolRef [] g in
      startAnimationLoops g
  | None => g
  end.

(** ** Frames *)

Definition runLoop (keys : Keys.t) (dragging : bool) (l : Loop) (g : Game)
  : Game :=
  match l with
  | LRender => updateRender g
  | LPlayer => animatePlayer keys dragging g
  | LBullets => animateBullets g
  | LObjects => animateObjects g
  | LCollisions => checkCollisions g
  | LPlayerCollisions => checkPlayerCollisions g
  end.

Definition runLoops (keys : Keys.t) (dragging : bool) (ls : list Loop)
    (g : Game) : Game :=
  fold_left (fun g l => runLoop keys dragging l g) ls g.

(** One animation frame: the callbacks pending at its start run in the
    order of their registration; what they register is pending for the next
    frame.  A callback withdrawn during the frame ([triggerGameOver]) is
    one of the five game loops, which return at once when [gameStateRef] is
    not ["playing"], so running it changes nothing. *)
Definition runFrame (keys : Keys.t) (dragging : bool) (g : Game) : Game :=
  runLoops keys dragging (rafQueue g) (set_rafQueue [] g).

(** ** The component at mount and its events *)

(** The cells as their [useRef] and [useState] initialise them, with the
    container element of size [w] by [h] attached and [updateRender]
    registered by its effect. *)
Definition initialGame (w h : R) : Game :=
  mkGame (fun _ => Bullet.mk 0 0 0 0) 0 [] [] [] [] 0%Z 0%Z 0%Z (0, 0) 0%Z 0%Z
         0%Z notStarted 3 (mkSlots false false false) false (Some (w, h)) None
         [LRender] notStarted 0%Z 2000%Z 3 1%Z (mkSlots false false false)
         (mkSlots 0 0 0)%Z 0%Z false (0, 0).

(** A draw of [Math.random()]. *)
Definition isRandom (r : R) : Prop := 0 <= r < 1.

(** One event of the component.  Timers, effects and the deferred
    [clearIsHit] may fire in any order; this includes every order the
    browser produces.  The [position] state is not kept: its effect (lines
    496-498) writes to [positionRef] a position that was set earlier, here
    any position ([step_position]). *)
Inductive step : Game -> Game -> Prop :=
  | step_startGame g : step g (commitEffects (startGame g))
  | step_commit g : step g (commitEffects g)
  | step_fire now g : step g (fireBullet now g)
  | step_spawnBlock rand g :
      (forall k, isRandom (rand k)) -> step g (spawnBlock rand g)
  | step_gameTimer r1 r2 g :
      isRandom r1 -> isRandom r2 -> step g (gameTimerTick r1 r2 g)
  | step_powerUpTimer g : step g (powerUpTimerTick g)
  | step_frame keys dragging g : step g (runFrame keys dragging g)
  | step_clearIsHit g : step g (clearIsHit g)
  | step_touchStart cx cy g : step g (handleTouchStart cx cy g)
  | step_touchMove cx cy g : step g (handleTouchMove cx cy g)
  | step_touchEnd g : step g (handleTouchEnd g)
  | step_resize w h g :
      gameContainerRef g <> None ->
      step g (set_gameContainerRef (Some (w, h)) g)
  | step_position x y g : step g (set_positionRef (x, y) g).

(** The states the component can be in. *)
Inductive reachable : Game -> Prop :=
  | reachable_init w h : reachable (initialGame w h)
  | reachable_step g g' : reachable g -> step g g' -> reachable g'.

(** ** Keyboard (lines 732-742) *)

(** [Object.keys(keys)] *)
Definition keyNames : list String.string :=
  ["ArrowUp"; "ArrowDown"; "ArrowLeft"; "ArrowRight"; "w"; "a"; "s"; "d"]%string.

(** [{ ...prev, [key]: v }]; the handlers call it for the names of
    [keyNames] only. *)
Definition setKey (key : String.string) (v : bool) (prev : Keys.t) : Keys.t :=
  let '(Keys.mk kU kD kL kR kw ka ks kd) := prev in
  if String.eqb key "ArrowUp" then Keys.mk v kD kL kR kw ka ks kd
  else if String.eqb key "ArrowDown" then Keys.mk kU v kL kR kw ka ks kd
  else if String.eqb key "ArrowLeft" then Keys.mk kU kD v kR kw ka ks kd
  else if String.eqb key "ArrowRight" then Keys.mk kU kD kL v kw ka ks kd
  else if String.eqb key "w" then Keys.mk kU kD kL kR v ka ks kd
  else if String.eqb key "a" then Keys.mk kU kD kL kR kw v ks kd
  else if String.eqb key "s" then Keys.mk kU kD kL kR kw ka v kd
  else if String.eqb key "d" then Keys.mk kU kD kL kR kw ka ks v
  else prev.

(** [handleKeyDown] and [handleKeyUp], as functions of [e.key] and of the
    [keys] state. *)
Definition handleKeyDown (key : String.string) (keys : Keys.t) : Keys.t :=
  if existsb (String.eqb key) keyNames then setKey key true keys else keys.

Definition handleKeyUp (key : String.string) (keys : Keys.t) : Keys.t :=
  if existsb (String.eqb key) keyNames then setKey key false keys else keys.

(** ** Rendering helpers (lines 1148-1181) *)

(** [getBlockColor]; [isHit] is the flag of the block, [false] when
    absent. *)
Definition getBlockColor (hp : Z) (isBreakable isHit : bool) : String.string :=
  if isHit then "bg-white"%string
  else if negb isBreakable then "bg-gray-700 border border-gray-500"%string
  else
    match hp with
    | 1%Z => "bg-red-500"
    | 2%Z => "bg-orange-500"
    | 3%Z => "bg-yellow-500"
    | 4%Z => "bg-lime-500"
    | 5%Z => "bg-green-500"
    | 6%Z => "bg-teal-500"
    | 7%Z => "bg-blue-500"
    | 8%Z => "bg-indigo-500"
    | 9%Z => "bg-purple-500"
    | 10%Z => "bg-pink-500"
    | _ => "bg-gray-500"
    end%string.

(** ** The mute preference (lines 108-115, 308-320, 459-463) *)

(** The initial value of [isMuted]; [saved] is the result of
    [localStorage.getItem("gameMuted")], [None] for [null], and [hasWindow]
    is [typeof window !== "undefined"]. *)
Definition initialMuted (hasWindow : bool) (saved : option String.string)
  : bool :=
  if hasWindow then
    match saved with
    | Some savedMute => String.eqb savedMute "true"
    | None => false
    end
  else false.

(** [b.toString()] on a boolean. *)
Definition Boolean_toString (b : bool) : String.string :=
  if b then "true"%string else "false"%string.

(** The effect that follows a change of [isMuted], on the stored item. *)
Definition saveMuted (hasWindow : bool) (isMuted : bool)
    (saved : option String.string) : option String.string :=
  if hasWindow then Some (Boolean_toString isMuted) else saved.

(** [toggleMute], on [isMuted] and on the [muted] flag of the background
    music element, [None] when the element is absent. *)
Definition toggleMute (prev : bool) (bgmMuted : option bool)
  : bool * option bool :=
  let newMuted := negb prev in
  (newMuted,
   match bgmMuted with
   | Some _ => Some newMuted
   | None => None
   end).

(** * Vocabulary of the statements *)

(** The [Math.random()] draws of one call: [a], then [b], then [c] for all
    later ones. *)
Definition draws (a b c : R) : nat -> R :=
  fun k => match k with O => a | S O => b | _ => c end.

(** No key is held. *)
Definition noKeys : Keys.t :=
  Keys.mk false false false false false false false false.

(** The closed forms, in the specification's words. *)
Definition spec_obstaclesPerWave (t : Z) : Z := Z.min (1 + t / 10) 5.
Definition spec_fallSpeed (t : Z) : R := 3 + 0.5 * IZR (t / 15).
Definition spec_spawnInterval (t : Z) : Z := Z.max (2000 - 300 * (t / 20)) 500.

(** What every state of the component satisfies about its timers. *)
Record DifficultyInv (g : Game) : Prop := mkDifficultyInv {
  di_time : (0 <= gameTime g)%Z;
  di_sync : gameStateRef g = gameState g;
  di_container : gameContainerRef g <> None;
  di_wave : blocksPerWave g = spec_obstaclesPerWave (gameTime g);
  di_speed : blockFallSpeed g = spec_fallSpeed (gameTime g);
  di_rate : blockSpawnRate g = spec_spawnInterval (gameTime g);
  di_spawns : powerUpIdRef g = (gameTime g / 20)%Z
}.

(** A session left alone for [n] seconds: [n] ticks of the game timer,
    the [k]-th with the draws [rand (2k)] and [rand (2k+1)]. *)
Fixpoint playFor (n : nat) (rand : nat -> R) (g : Game) : Game :=
  match n with
  | O => g
  | S n' =>
      gameTimerTick (rand (2 * n')%nat) (rand (2 * n' + 1)%nat)
                    (playFor n' rand g)
  end.

(** The session right after the start button was pressed in a container of
    [w] by [h]. *)
Definition newSession (w h : R) : Game :=
  commitEffects (startGame (initialGame w h)).

(** Draws that are all 0. *)
Definition zeroDraws : nat -> R := fun _ => 0.

(** The bookkeeping of the [Bullet] objects referenced by [all]: no object
    is referenced twice, no two of them share an [id], every one was
    allocated and carries an [id] already minted. *)
Definition tracked (h : nat -> Bullet.t) (next : nat) (idRef : Z)
    (all : list nat) : Prop :=
  NoDup all /\
  (forall r r', In r all -> In r' all ->
                Bullet.id (h r) = Bullet.id (h r') -> r = r') /\
  (forall r, In r all -> (r < next)%nat /\ (Bullet.id (h r) < idRef)%Z).

(** The invariant of the object pool; [extra] are bullets just acquired and
    not yet pushed on the live array. *)
Definition BulletInvX (extra : list nat) (g : Game) : Prop :=
  tracked (bulletHeap g) (heapNext g) (bulletIdRef g)
          (extra ++ bulletsRef g ++ bulletPoolRef g) /\
  (length (bulletPoolRef g) <= 100)%nat.

Definition BulletInv (g : Game) : Prop := BulletInvX [] g.

(** Whether the bullet at [r] is still on screen after its move. *)
Definition staysOnScreen (h : nat -> Bullet.t) (r : nat) : bool :=
  Rltb (-20) (Bullet.y (moveBullet (h r))).

(** The position in the array of the first block, in iteration order, that
    the bullet overlaps. *)
Fixpoint firstOverlap (bullet : Bullet.t) (blocks : list Block.t)
  : option nat :=
  match blocks with
  | [] => None
  | block :: rest =>
      if bulletOverlapsBlock bullet block then Some 0%nat
      else option_map S (firstOverlap bullet rest)
  end.

(** The bullet at [r] overlaps some block. *)
Definition hitsAny (h : nat -> Bullet.t) (blocks : list Block.t) (r : nat)
  : bool :=
  existsb (bulletOverlapsBlock (h r)) blocks.

(** The first block that the bullet at [r] overlaps is at position [j]. *)
Definition firstHitIs (h : nat -> Bullet.t) (blocks : list Block.t) (j r : nat)
  : bool :=
  match firstOverlap (h r) blocks with
  | Some i => Nat.eqb i j
  | None => false
  end.

(** The first block that the bullet at [r] overlaps is breakable. *)
Definition firstHitBreakable (h : nat -> Bullet.t) (blocks : list Block.t)
    (r : nat) : bool :=
  match firstOverlap (h r) blocks with
  | Some i =>
      match nth_error blocks i with
      | Some block => Block.isBreakable block
      | None => false
      end
  | None => false
  end.

(** How many of the bullets [bs] have the block at [j] as their first
    overlapping block. *)
Definition hitsOn (h : nat -> Bullet.t) (blocks : list Block.t)
    (bs : list nat) (j : nat) : nat :=
  length (filter (firstHitIs h blocks j) bs).

(** A block after [k] bullets were resolved against it. *)
Definition blockAfter (k : nat) (block : Block.t) : Block.t :=
  Block.mk (Block.id block) (Block.x block) (Block.y block)
           (if Block.isBreakable block then Block.hp block - Z.of_nat k
            else Block.hp block)%Z
           (Block.isHit block || negb (Nat.eqb k 0))
           (Block.isBreakable block).

(** What the pass never changes in a block. *)
Definition blockShape (block : Block.t) : Z * R * R * bool :=
  (Block.id block, Block.x block, Block.y block, Block.isBreakable block).

(** The states the component goes through: the reachable ones and, within a
    frame, the states between its callbacks. *)
Inductive visited : Game -> Prop :=
  | visited_reachable g : reachable g -> visited g
  | visited_frame keys dragging g n :
      reachable g ->
      visited (runLoops keys dragging (firstn n (rafQueue g))
                        (set_rafQueue [] g)).

(** Each slot is active exactly when it has seconds left. *)
Definition SlotInv (g : Game) : Prop :=
  forall ty, slot ty (activePowerUps g) = (0 <? slot ty (powerUpTimeLeft g))%Z.

(** The duration of an effect, in the specification's words. *)
Definition spec_duration (ty : PowerUpType.t) : Z :=
  match ty with
  | PowerUpType.slowMotion => 5
  | _ => 10
  end.

(** [n] ticks of the power-up timer. *)
Fixpoint countdown (n : nat) (g : Game) : Game :=
  match n with
  | O => g
  | S n' => powerUpTimerTick (countdown n' g)
  end.

(** The pending callbacks of a playing session, in registration order. *)
Definition fullQueue : list Loop :=
  [LRender; LPlayer; LBullets; LObjects; LCollisions; LPlayerCollisions].

Record QueueInv (g : Game) : Prop := mkQueueInv {
  qi_sync : gameStateRef g = gameState g;
  qi_container : gameContainerRef g <> None;
  qi_player : gameState g = playing -> playerRef g <> None;
  qi_queue :
    rafQueue g =
    if GameState_eqb (gameState g) playing then fullQueue else [LRender]
}.

(** A callback that ran to its end in a playing session: the session cells
    are as before and the callback is pending again, behind the others. *)
Definition advances (l : Loop) (g g' : Game) : Prop :=
  gameStateRef g' = gameStateRef g /\ gameState g' = gameState g /\
  gameContainerRef g' = gameContainerRef g /\ playerRef g' = playerRef g /\
  rafQueue g' = rafQueue g ++ [l].

(** [n] successive acquisitions, the [k]-th with arguments [args k]. *)
Definition acquireAll (args : list (R * R * R)) (g : Game) : Game :=
  fold_left (fun g '(x, y, angle) => snd (createBullet x y angle g)) args g.

(** A session in a 400 by 100 container in which a breakable block with 5
    hit points was spawned at x = 180 and fell for three frames. *)
Definition c1_before_fire : Game :=
  runFrame noKeys false
    (runFrame noKeys false
       (runFrame noKeys false
          (spawnBlock (draws 0.5 0.45 0.5) (newSession 400 100)))).

(** Then the ship fires: the bullet is under the block, the block is about
    to reach the ship. *)
Definition c1_state : Game := fireBullet 1000 c1_before_fire.

(** A new session, a breakable block spawned at x = 180, one shot; then the
    motion callbacks of the next frame: the bullet is inside the block. *)
Definition c3_before : Game :=
  fireBullet 1000 (spawnBlock (draws 0.5 0.45 0.5) (newSession 400 100)).

Definition c3_state : Game :=
  runLoops noKeys false (firstn 4 (rafQueue c3_before))
           (set_rafQueue [] c3_before).

(** Two shots before the next frame at a block with 1 hit point. *)
Definition c10_before : Game :=
  fireBullet 1200
    (fireBullet 1000 (spawnBlock (draws 0.5 0 0.5) (newSession 400 100))).

Definition c10_state : Game :=
  runLoops noKeys false (firstn 4 (rafQueue c10_before))
           (set_rafQueue [] c10_before).

(** The block of [c10_state]. *)
Definition c10_block : Block.t := Block.mk 0 180 (-47) 1 false true.

(** Two blocks side by side, [A] at x = 160 before [B] at x = 190, and two
    shots at x = 196 that overlap both. *)
Definition c10x_before : Game :=
  fireBullet 1200
    (fireBullet 1000
       (spawnBlock (draws (19 / 36) 0 0.5)
          (spawnBlock (draws (4 / 9) 0 0.5) (newSession 400 100)))).

Definition c10x_state : Game :=
  runLoops noKeys false (firstn 4 (rafQueue c10x_before))
           (set_rafQueue [] c10x_before).

(** A session in a 400 by 108 container: the ship is at y = 8, its bullet
    starts at y = 0 and is at y = -10 after one frame. *)
Definition c5_before : Game :=
  runFrame noKeys false (fireBullet 1000 (newSession 400 108)).

(** The state that [animateBullets] finds in the second frame. *)
Definition c5_state : Game :=
  runLoops noKeys false (firstn 2 (rafQueue c5_before))
           (set_rafQueue [] c5_before).

(** The state after the second frame: the bullet is in the pool. *)
Definition c4_state : Game := runFrame noKeys false c5_before.

(** A session in a 400 by 108 container.  The ship fires bullet 0, a frame
    passes, it fires bullet 1, is dragged 100 to the left and fires
    bullet 2; then a breakable block is spawned at x = 80, above
    bullet 2. *)
Definition c9_before : Game :=
  spawnBlock (draws (2 / 9) 0.45 0.5)
    (fireBullet 1400
       (handleTouchMove 100 20
          (handleTouchStart 200 20
             (fireBullet 1200
                (runFrame noKeys false
                   (fireBullet 1000 (newSession 400 108))))))).

(** The state that [checkCollisions] finds in the next frame: bullet 0 left
    the screen and is in the pool, bullets 1 and 2 are live, and bullet 2
    is inside the block. *)
Definition c9_state : Game :=
  runLoops noKeys false (firstn 4 (rafQueue c9_before))
           (set_rafQueue [] c9_before).

(** What holds of a block while the next block id is [next]: its id was
    handed out, and its [hp] is within 1..10, or 999 when unbreakable. *)
Definition blockOk (next : Z) (b : Block.t) : Prop :=
  (0 <= Block.id b < next)%Z /\
  if Block.isBreakable b then (1 <= Block.hp b <= 10)%Z
  else Block.hp b = 999%Z.

(** The block array: every block is as above and the ids increase along
    the array. *)
Definition blocksOk (next : Z) (bl : list Block.t) : Prop :=
  (0 <= next)%Z /\ Forall (blockOk next) bl /\
  StronglySorted Z.lt (map Block.id bl).

(** The same for the power-ups. *)
Definition powerUpsOk (next : Z) (ps : list PowerUp.t) : Prop :=
  (0 <= next)%Z /\ Forall (fun p => (0 <= PowerUp.id p < next)%Z) ps /\
  StronglySorted Z.lt (map PowerUp.id ps).

(** The angles that [fireBullet] gives to a bullet. *)
Definition allowedAngle (a : R) : Prop := a = 0 \/ a = -30 \/ a = 30.

Record WorldInv (g : Game) : Prop := mkWorldInv {
  wi_blocks : blocksOk (blockIdRef g) (blocksRef g);
  wi_powerUps : powerUpsOk (powerUpIdRef g) (powerUpsRef g);
  wi_score : (0 <= score g <= scoreRef g)%Z;
  wi_pending : score g <> scoreRef g -> needsRenderRef g = true;
  wi_angles : forall r, allowedAngle (Bullet.angle (bulletHeap g r))
}.

(** The session cells that no motion callback writes. *)
Definition sameCore (g g' : Game) : Prop :=
  gameStateRef g' = gameStateRef g /\ gameState g' = gameState g /\
  gameContainerRef g' = gameContainerRef g /\ playerRef g' = playerRef g /\
  scoreRef g' = scoreRef g /\ finalScoreRef g' = finalScoreRef g /\
  activePowerUpsRef g' = activePowerUpsRef g /\
  blockFallSpeedRef g' = blockFallSpeedRef g /\
  blockIdRef g' = blockIdRef g /\ powerUpIdRef g' = powerUpIdRef g /\
  activePowerUps g' = activePowerUps g /\
  powerUpTimeLeft g' = powerUpTimeLeft g /\
  lastFireTimeRef g' = lastFireTimeRef g /\
  isDragging g' = isDragging g /\ dragStart g' = dragStart g.

(** The speed at which [animateObjects] moves the blocks. *)
Definition currentFallSpeed (g : Game) : R :=
  if slowMotion (activePowerUpsRef g)
  then blockFallSpeedRef g * 0.5 else blockFallSpeedRef g.

(** A block moved down by [v]. *)
Definition fallBlock (v : R) (block : Block.t) : Block.t :=
  Block.mk (Block.id block) (Block.x block) (Block.y block + v)
           (Block.hp block) (Block.isHit block) (Block.isBreakable block).

(** A power-up moved down by 2. *)
Definition fallPowerUp (powerUp : PowerUp.t) : PowerUp.t :=
  PowerUp.mk (PowerUp.id powerUp) (PowerUp.x powerUp) (PowerUp.y powerUp + 2)
             (PowerUp.type powerUp).

(** The state that the two collision passes of a frame find: the state
    after the render and the three motion callbacks. *)
Definition afterMotion (keys : Keys.t) (dragging : bool) (g : Game) : Game :=
  animateObjects
    (animateBullets (animatePlayer keys dragging
                       (updateRender (set_rafQueue [] g)))).

(** The class that the render gives to a block. *)
Definition blockColor (b : Block.t) : String.string :=
  getBlockColor (Block.hp b) (Block.isBreakable b) (Block.isHit b).


(** [n] animation frames with no key held. *)
Fixpoint frames (n : nat) (g : Game) : Game :=
  match n with
  | O => g
  | S n' => runFrame noKeys false (frames n' g)
  end.

(** Draws that alternate between [a] and [b]. *)
Definition alternate (a b : R) : nat -> R :=
  fun k => if Nat.even k then a else b.



(** The position, in the store [h], of the bullets referenced by [rs]. *)
Definition shots (h : nat -> Bullet.t) (rs : list nat) : list (R * R * R) :=
  map (fun r => (Bullet.x (h r), Bullet.y (h r), Bullet.angle (h r))) rs.

(** [Math.max(0, Math.min(hi, v))] *)
Definition clampTo (hi v : R) : R := Rmax 0 (Rmin hi v).

(** The step that [animatePlayer] adds along one axis: 5 for the key that
    increases the coordinate, minus 5 for the opposite key. *)
Definition keyStep (minus plus : bool) : R :=
  (if plus then 5 else 0) - (if minus then 5 else 0).

(** ArrowLeft and a together. *)
Definition leftKeys : Keys.t :=
  Keys.mk false false true false false true false false.

(** [keys[key]], with the falsy [undefined] of a name that is not a field
    read as [false]. *)
Definition keyHeld (key : String.string) (keys : Keys.t) : bool :=
  if String.eqb key "ArrowUp" then Keys.ArrowUp keys
  else if String.eqb key "ArrowDown" then Keys.ArrowDown keys
  else if String.eqb key "ArrowLeft" then Keys.ArrowLeft keys
  else if String.eqb key "ArrowRight" then Keys.ArrowRight keys
  else if String.eqb key "w" then Keys.w keys
  else if String.eqb key "a" then Keys.a keys
  else if String.eqb key "s" then Keys.s keys
  else if String.eqb key "d" then Keys.d keys
  else false.

(** A session in a 400 by 100 container in which the power-up of the 20th
    second, of type [multiDirectional], was collected in the 11th frame;
    then the ship fires a volley. *)
Definition c15_before : Game :=
  fireBullet 30000
    (frames 11 (playFor 20 (alternate 0.45 0.5) (newSession 400 100))).

(** The state that [animateBullets] finds in the next frame. *)
Definition c15_state : Game :=
  runLoops noKeys false (firstn 2 (rafQueue c15_before))
           (set_rafQueue [] c15_before).

(** The two fall-speed cells and the two score cells. *)
Definition speeds (g : Game) : R * R := (blockFallSpeedRef g, blockFallSpeed g).

Definition scores (g : Game) : Z * Z := (score g, scoreRef g).

(** The fall speed that the loops read is never below the base speed and
    never above the speed of the current difficulty. *)
Definition SpeedInv (g : Game) : Prop :=
  3 <= blockFallSpeedRef g <= blockFallSpeed g.

(** During a session neither score cell goes down. *)
Definition scoreGrows (g g' : Game) : Prop :=
  (score g <= score g')%Z /\ (scoreRef g <= scoreRef g')%Z.

(** * Properties *)

(** ** Tactics and basic facts *)

Ltac break_match :=
  match goal with
  | |- context [match ?x with _ => _ end] => destruct x eqn:?
  end.

Ltac break_let :=
  match goal with
  | |- context [let '(_, _) := ?x in _] => destruct x eqn:?
  end.

Lemma Rltb_true (a b : R) : a < b -> Rltb a b = true.
Proof. unfold Rltb; destruct (Rlt_dec a b); [reflexivity | contradiction]. Qed.

Lemma Rltb_false (a b : R) : b <= a -> Rltb a b = false.
Proof. unfold Rltb; destruct (Rlt_dec a b); [lra | reflexivity]. Qed.

Lemma Rltb_spec (a b : R) : Rltb a b = true <-> a < b.
Proof.
  unfold Rltb; destruct (Rlt_dec a b); split; intros; auto; discriminate.
Qed.

Lemma GameState_eqb_eq (a b : GameState) : GameState_eqb a b = true <-> a = b.
Proof. destruct a, b; simpl; split; intros; congruence. Qed.

Lemma pop_snoc {A} (l : list A) (z : A) : pop (l ++ [z]) = Some (l, z).
Proof.
  induction l as [|a l IH]; simpl; [reflexivity|].
  rewrite IH; reflexivity.
Qed.

Lemma pop_Some {A} (l r : list A) (z : A) : pop l = Some (r, z) -> l = r ++ [z].
Proof.
  revert r; induction l as [|a l IH]; simpl; intros r H; [discriminate|].
  destruct (pop l) as [[r' z']|] eqn:E.
  - inversion H; subst. rewrite (IH r' eq_refl). reflexivity.
  - inversion H; subst. destruct l; [reflexivity|].
    simpl in E. destruct (pop l) as [[? ?]|]; discriminate.
Qed.

Lemma pop_None {A} (l : list A) : pop l = None -> l = [].
Proof.
  destruct l; simpl; [reflexivity|]. destruct (pop l) as [[? ?]|]; discriminate.
Qed.

(** The loops return their argument with a few cells rewritten. *)

Lemma collideBullets_shape bs : forall g rec hit g' rec' hit',
  collideBullets bs g rec hit = (g', rec', hit') ->
  g' = set_blocksRef (blocksRef g') (set_scoreRef (scoreRef g') g).
Proof.
  induction bs as [|r bs IH]; simpl; intros g rec hit g' rec' hit' H.
  - inversion H; subst. destruct g'; reflexivity.
  - destruct (scanBlocks (bulletHeap g r) (blocksRef g)) as [[bl brk]|].
    + apply IH in H. rewrite H. destruct brk; reflexivity.
    + eauto.
Qed.

Lemma collectPowerUps_shape pos ps : forall g ids g' ids',
  collectPowerUps pos ps g ids = (g', ids') ->
  g' = set_powerUpTimeLeft (powerUpTimeLeft g')
         (set_activePowerUpsRef (activePowerUpsRef g')
            (set_activePowerUps (activePowerUps g') g)).
Proof.
  induction ps as [|p ps IH]; simpl; intros g ids g' ids' H.
  - inversion H; subst. destruct g'; reflexivity.
  - destruct (playerOverlapsPowerUp pos p).
    + apply IH in H. rewrite H. reflexivity.
    + eauto.
Qed.

Lemma spawnLoop_shape rand w idx : forall g,
  let g' :=
    fold_left
      (fun g i =>
         set_blockIdRef (blockIdRef g + 1)%Z
           (set_blocksRef (blocksRef g ++ [newBlock rand w i (blockIdRef g)]) g))
      idx g in
  g' = set_blockIdRef (blockIdRef g') (set_blocksRef (blocksRef g') g).
Proof.
  induction idx as [|i idx IH]; simpl; intros g.
  - destruct g; reflexivity.
  - rewrite IH. reflexivity.
Qed.

Lemma createBullet_shape x y a g r g' :
  createBullet x y a g = (r, g') ->
  g' = set_bulletIdRef (bulletIdRef g')
         (set_heapNext (heapNext g')
            (set_bulletHeap (bulletHeap g')
               (set_bulletPoolRef (bulletPoolRef g') g))).
Proof.
  unfold createBullet. destruct (pop (bulletPoolRef g)) as [[rest z]|];
    intros H; inversion H; subst; destruct g; reflexivity.
Qed.

Lemma fireBullet_shape now g :
  let g' := fireBullet now g in
  g' = set_needsRenderRef (needsRenderRef g')
         (set_lastFireTimeRef (lastFireTimeRef g')
            (set_bulletsRef (bulletsRef g')
               (set_bulletIdRef (bulletIdRef g')
                  (set_heapNext (heapNext g')
                     (set_bulletHeap (bulletHeap g')
                        (set_bulletPoolRef (bulletPoolRef g') g)))))).
Proof.
  unfold fireBullet.
  destruct (playerRef g) as [[pw ph]|]; [|destruct g; reflexivity].
  destruct (GameState_eqb _ _); [|destruct g; reflexivity].
  destruct (_ <? _)%Z; [destruct g; reflexivity|].
  cbv zeta. destruct (multiDirectional _).
  - destruct (createBullet _ _ 0 _) as [b1 g1] eqn:E1.
    destruct (createBullet _ _ (-30) _) as [b2 g2] eqn:E2.
    destruct (createBullet _ _ 30 _) as [b3 g3] eqn:E3.
    apply createBullet_shape in E1, E2, E3.
    rewrite E3, E2, E1. reflexivity.
  - destruct (createBullet _ _ 0 _) as [b1 g1] eqn:E1.
    apply createBullet_shape in E1. rewrite E1. reflexivity.
Qed.

(** ** Difficulty (sections 4.6 and 8 of the specification) *)

Lemma div_succ (t k : Z) :
  (0 <= t)%Z -> (0 < k)%Z ->
  ((t + 1) / k)%Z = if (Z.rem (t + 1) k =? 0)%Z then (t / k + 1)%Z else (t / k)%Z.
Proof.
  intros Ht Hk.
  rewrite Z.rem_mod_nonneg by lia.
  pose proof (Z.div_mod t k ltac:(lia)) as E.
  pose proof (Z.mod_pos_bound t k Hk) as B.
  destruct (Z.eqb_spec ((t + 1) mod k) 0) as [H0|H0].
  - symmetry. apply Z.div_unique with (r := 0%Z); [lia|].
    apply Z.mod_divide in H0; [|lia]. destruct H0 as [q Hq].
    assert (q = t / k + 1)%Z by nia. nia.
  - symmetry. apply Z.div_unique with (r := (t mod k + 1)%Z); [|lia].
    left. split; [lia|].
    assert (t mod k + 1 <> k)%Z; [|lia].
    intro C. apply H0.
    replace (t + 1)%Z with (k * (t / k + 1))%Z by lia.
    rewrite Z.mul_comm. apply Z.mod_mul. lia.
Qed.

Lemma spec_fallSpeed_0 : spec_fallSpeed 0 = 3.
Proof. unfold spec_fallSpeed. rewrite Zdiv_0_l. lra. Qed.

Ltac di_same :=
  let H := fresh in
  solve [intros H; destruct H; constructor; cbn in *; auto; congruence].

Lemma di_requestAnimationFrame l g :
  DifficultyInv g -> DifficultyInv (requestAnimationFrame l g).
Proof. di_same. Qed.

Lemma di_cancelAnimationFrames g :
  DifficultyInv g -> DifficultyInv (cancelAnimationFrames g).
Proof. di_same. Qed.

Lemma di_updateRender g : DifficultyInv g -> DifficultyInv (updateRender g).
Proof. unfold updateRender; repeat break_match; di_same. Qed.

Lemma di_animatePlayer keys dragging g :
  DifficultyInv g -> DifficultyInv (animatePlayer keys dragging g).
Proof. unfold animatePlayer; repeat break_match; di_same. Qed.

Lemma di_releaseBullets bs g :
  DifficultyInv g -> DifficultyInv (releaseBullets bs g).
Proof. unfold releaseBullets; repeat break_match; di_same. Qed.

Lemma di_animateBullets g : DifficultyInv g -> DifficultyInv (animateBullets g).
Proof.
  unfold animateBullets, releaseBullets; repeat break_match; di_same.
Qed.

Lemma di_animateObjects g : DifficultyInv g -> DifficultyInv (animateObjects g).
Proof. unfold animateObjects; repeat break_match; di_same. Qed.

Lemma di_checkCollisions g : DifficultyInv g -> DifficultyInv (checkCollisions g).
Proof.
  unfold checkCollisions.
  destruct (GameState_eqb (gameStateRef g) playing); [|auto].
  destruct (bulletsRef g) eqn:Eb; [di_same|].
  destruct (blocksRef g) eqn:Ek; [di_same|].
  destruct (collideBullets _ _ _ _) as [[g1 rec] hit] eqn:E.
  apply collideBullets_shape in E. rewrite E.
  unfold releaseBullets; repeat break_match; di_same.
Qed.

Lemma di_checkPlayerCollisions g :
  DifficultyInv g -> DifficultyInv (checkPlayerCollisions g).
Proof.
  unfold checkPlayerCollisions, triggerGameOver.
  destruct (GameState_eqb (gameStateRef g) playing); [|auto].
  destruct (playerRef g); [|auto].
  destruct (existsb _ _); [di_same|].
  destruct (collectPowerUps _ _ _ _) as [g1 ids] eqn:E.
  apply collectPowerUps_shape in E. rewrite E.
  repeat break_match; di_same.
Qed.

Lemma di_runLoop keys dragging l g :
  DifficultyInv g -> DifficultyInv (runLoop keys dragging l g).
Proof.
  destruct l; simpl;
    auto using di_updateRender, di_animatePlayer, di_animateBullets,
      di_animateObjects, di_checkCollisions, di_checkPlayerCollisions.
Qed.

Lemma di_runLoops keys dragging ls : forall g,
  DifficultyInv g -> DifficultyInv (runLoops keys dragging ls g).
Proof.
  induction ls as [|l ls IH]; simpl; intros g H; [assumption|].
  apply IH, di_runLoop, H.
Qed.

Lemma di_runFrame keys dragging g :
  DifficultyInv g -> DifficultyInv (runFrame keys dragging g).
Proof. intros H. apply di_runLoops. revert H. di_same. Qed.

Lemma di_commitEffects g : DifficultyInv g -> DifficultyInv (commitEffects g).
Proof. unfold commitEffects; repeat break_match; di_same. Qed.

Lemma di_startGame g : DifficultyInv g -> DifficultyInv (startGame g).
Proof.
  unfold startGame. destruct (gameContainerRef g) as [[w h]|] eqn:E; [|auto].
  intros []. constructor; cbn; auto; try congruence; try lia.
  symmetry; apply spec_fallSpeed_0.
Qed.

Lemma di_createBullet x y a g :
  DifficultyInv g -> DifficultyInv (snd (createBullet x y a g)).
Proof. unfold createBullet; repeat break_match; di_same. Qed.

Lemma di_fireBullet now g : DifficultyInv g -> DifficultyInv (fireBullet now g).
Proof. rewrite fireBullet_shape. di_same. Qed.

Lemma di_spawnBlock rand g : DifficultyInv g -> DifficultyInv (spawnBlock rand g).
Proof.
  unfold spawnBlock. repeat break_match; try di_same.
  rewrite spawnLoop_shape. di_same.
Qed.

Lemma di_powerUpTimerTick g :
  DifficultyInv g -> DifficultyInv (powerUpTimerTick g).
Proof. unfold powerUpTimerTick; repeat break_match; di_same. Qed.

Lemma di_clearIsHit g : DifficultyInv g -> DifficultyInv (clearIsHit g).
Proof. di_same. Qed.

Lemma di_handleTouchStart cx cy g :
  DifficultyInv g -> DifficultyInv (handleTouchStart cx cy g).
Proof. unfold handleTouchStart; repeat break_match; di_same. Qed.

Lemma di_handleTouchMove cx cy g :
  DifficultyInv g -> DifficultyInv (handleTouchMove cx cy g).
Proof. unfold handleTouchMove; repeat break_match; di_same. Qed.

Lemma di_handleTouchEnd g : DifficultyInv g -> DifficultyInv (handleTouchEnd g).
Proof. unfold handleTouchEnd; repeat break_match; di_same. Qed.

Lemma di_gameTimerTick r1 r2 g :
  DifficultyInv g -> DifficultyInv (gameTimerTick r1 r2 g).
Proof.
  intros [Ht Hs Hc Hw Hv Hr Hp]. unfold gameTimerTick.
  destruct (GameState_eqb (gameState g) playing) eqn:Epl;
    [|constructor; assumption].
  apply GameState_eqb_eq in Epl.
  pose proof (div_succ (gameTime g) 10 Ht ltac:(lia)) as D10.
  pose proof (div_succ (gameTime g) 15 Ht ltac:(lia)) as D15.
  pose proof (div_succ (gameTime g) 20 Ht ltac:(lia)) as D20.
  pose proof (Z.div_pos (gameTime g) 10 Ht ltac:(lia)) as P10.
  pose proof (Z.div_pos (gameTime g) 20 Ht ltac:(lia)) as P20.
  unfold spawnPowerUp.
  destruct (gameContainerRef g) as [[w h]|] eqn:Ec; [|congruence].
  unfold spec_obstaclesPerWave, spec_fallSpeed, spec_spawnInterval in *.
  destruct (Z.rem (gameTime g + 1) 10 =? 0)%Z;
    destruct (Z.rem (gameTime g + 1) 15 =? 0)%Z;
    destruct (Z.rem (gameTime g + 1) 20 =? 0)%Z;
    destruct (Z.ltb_spec (blocksPerWave g) 5);
    destruct (Z.ltb_spec 500 (blockSpawnRate g));
    cbn; rewrite ?Ec; cbn; rewrite ?Hs, ?Epl; cbn;
    (constructor; cbn;
     unfold spec_obstaclesPerWave, spec_fallSpeed, spec_spawnInterval;
     rewrite ?D10, ?D15, ?D20, ?plus_IZR;
     try congruence; try lia; try lra).
Qed.

Lemma di_step g g' : step g g' -> DifficultyInv g -> DifficultyInv g'.
Proof.
  intros S H; destruct S;
    auto using di_commitEffects, di_startGame, di_fireBullet, di_spawnBlock,
      di_gameTimerTick, di_powerUpTimerTick, di_runFrame, di_clearIsHit,
      di_handleTouchStart, di_handleTouchMove, di_handleTouchEnd.
  all: destruct H; constructor; cbn; auto; discriminate.
Qed.

Lemma di_initialGame w h : DifficultyInv (initialGame w h).
Proof.
  constructor; cbn; try reflexivity; try lia; try discriminate.
  symmetry; apply spec_fallSpeed_0.
Qed.

Lemma reachable_DifficultyInv g : reachable g -> DifficultyInv g.
Proof.
  induction 1; eauto using di_initialGame, di_step.
Qed.

Lemma reachable_newSession w h : reachable (newSession w h).
Proof.
  unfold newSession. eapply reachable_step; [apply reachable_init|].
  apply step_startGame.
Qed.

Lemma reachable_playFor n rand g :
  (forall k, isRandom (rand k)) -> reachable g -> reachable (playFor n rand g).
Proof.
  intros Hr Hg. induction n as [|n IH]; simpl; [assumption|].
  eapply reachable_step; [exact IH|]. apply step_gameTimer; apply Hr.
Qed.

Lemma isRandom_zeroDraws : forall k : nat, isRandom (zeroDraws k).
Proof. intros k. unfold isRandom, zeroDraws. lra. Qed.

Lemma playFor_gameTime n rand g :
  gameState g = playing ->
  gameState (playFor n rand g) = playing /\
  gameTime (playFor n rand g) = (gameTime g + Z.of_nat n)%Z.
Proof.
  intros Hg. induction n as [|n [IH1 IH2]].
  - simpl. split; [assumption|lia].
  - change (playFor (S n) rand g)
      with (gameTimerTick (rand (2 * n)%nat) (rand (2 * n + 1)%nat)
                          (playFor n rand g)).
    unfold gameTimerTick, spawnPowerUp. rewrite IH1. cbn [GameState_eqb].
    cbv zeta. repeat break_match; cbn; rewrite ?IH1, ?IH2; split; auto; lia.
Qed.



(** C7. Between any two states the component can reach, the later one by
    elapsed seconds has a fall speed at least as large, at least as many
    blocks per wave and a spawn interval at most as large; blocks per wave
    never exceed 5 and the spawn interval never goes below 500ms. *)
Theorem C7_difficulty_monotone (g1 g2 : Game) :
  reachable g1 -> reachable g2 -> (gameTime g1 < gameTime g2)%Z ->
  blockFallSpeed g1 <= blockFallSpeed g2 /\
  (blocksPerWave g1 <= blocksPerWave g2)%Z /\
  (blocksPerWave g1 <= 5)%Z /\ (blocksPerWave g2 <= 5)%Z /\
  (blockSpawnRate g2 <= blockSpawnRate g1)%Z /\
  (500 <= blockSpawnRate g1)%Z /\ (500 <= blockSpawnRate g2)%Z.
Proof.
  intros H1 H2 Hlt.
  destruct (reachable_DifficultyInv g1 H1) as [Ht1 _ _ Hw1 Hv1 Hr1 _].
  destruct (reachable_DifficultyInv g2 H2) as [Ht2 _ _ Hw2 Hv2 Hr2 _].
  rewrite Hw1, Hw2, Hv1, Hv2, Hr1, Hr2.
  unfold spec_obstaclesPerWave, spec_fallSpeed, spec_spawnInterval.
  assert (D10 : (gameTime g1 / 10 <= gameTime g2 / 10)%Z)
    by (apply Z.div_le_mono; lia).
  assert (D15 : (gameTime g1 / 15 <= gameTime g2 / 15)%Z)
    by (apply Z.div_le_mono; lia).
  assert (D20 : (gameTime g1 / 20 <= gameTime g2 / 20)%Z)
    by (apply Z.div_le_mono; lia).
  apply IZR_le in D15.
  repeat split; try lia; lra.
Qed.

Lemma C7_difficulty_monotone_witness :
  let g1 := playFor 14 zeroDraws (newSession 400 800) in
  let g2 := playFor 15 zeroDraws (newSession 400 800) in
  (gameTime g1 < gameTime g2)%Z /\
  blockFallSpeed g1 <= blockFallSpeed g2 /\
  (blocksPerWave g1 <= blocksPerWave g2)%Z /\
  (blocksPerWave g1 <= 5)%Z /\ (blocksPerWave g2 <= 5)%Z /\
  (blockSpawnRate g2 <= blockSpawnRate g1)%Z /\
  (500 <= blockSpawnRate g1)%Z /\ (500 <= blockSpawnRate g2)%Z.
Proof.
  cbv zeta.
  assert (T : (gameTime (playFor 14 zeroDraws (newSession 400 800))
               < gameTime (playFor 15 zeroDraws (newSession 400 800)))%Z).
  { rewrite (proj2 (playFor_gameTime 14 zeroDraws (newSession 400 800)
                      eq_refl)).
    rewrite (proj2 (playFor_gameTime 15 zeroDraws (newSession 400 800)
                      eq_refl)).
    lia. }
  split; [exact T|].
  apply (C7_difficulty_monotone
           (playFor 14 zeroDraws (newSession 400 800))
           (playFor 15 zeroDraws (newSession 400 800))
           (reachable_playFor 14 zeroDraws (newSession 400 800)
              isRandom_zeroDraws (reachable_newSession 400 800))
           (reachable_playFor 15 zeroDraws (newSession 400 800)
              isRandom_zeroDraws (reachable_newSession 400 800))
           T).
Defined.

(** ** The bullets and their pool *)

Lemma tracked_sub h h' next idRef all all' :
  tracked h next idRef all ->
  NoDup all' -> incl all' all ->
  (forall r, In r all' -> Bullet.id (h' r) = Bullet.id (h r)) ->
  tracked h' next idRef all'.
Proof.
  intros (Hnd & Hinj & Hb) Hnd' Hincl Hid. repeat split.
  - assumption.
  - intros r r' Hr Hr' E. rewrite (Hid r Hr), (Hid r' Hr') in E.
    apply Hinj; auto.
  - apply Hb; auto.
  - rewrite (Hid r H). apply Hb; auto.
Qed.

Lemma tracked_rearrange h next idRef all all' :
  tracked h next idRef all ->
  (length all' <= length all)%nat -> incl all all' -> incl all' all ->
  tracked h next idRef all'.
Proof.
  intros H Hlen H1 H2. apply (tracked_sub h h next idRef all all'); auto.
  apply (@NoDup_incl_NoDup _ all all'); auto. apply H.
Qed.

Lemma tracked_fresh h next idRef all b :
  tracked h next idRef all ->
  Bullet.id b = idRef ->
  tracked (heapSet h next b) (S next) (idRef + 1)%Z (next :: all).
Proof.
  intros (Hnd & Hinj & Hb) Hid.
  assert (Hnot : ~ In next all) by (intros C; apply Hb in C; lia).
  assert (Hold : forall r, In r all -> heapSet h next b r = h r).
  { intros r Hr. unfold heapSet. destruct (Nat.eqb_spec r next); [|reflexivity].
    subst. contradiction. }
  assert (Hnew : heapSet h next b next = b)
    by (unfold heapSet; rewrite Nat.eqb_refl; reflexivity).
  repeat split.
  - constructor; assumption.
  - intros r r' [Hr|Hr] [Hr'|Hr'] E; subst; auto.
    + rewrite Hnew, (Hold r' Hr') in E. apply Hb in Hr'. lia.
    + rewrite Hnew, (Hold r Hr) in E. apply Hb in Hr. lia.
    + rewrite (Hold r Hr), (Hold r' Hr') in E. auto.
  - destruct H as [H|H]; [subst; lia|]. apply Hb in H. lia.
  - destruct H as [H|H]; [subst; rewrite Hnew; lia|].
    rewrite (Hold r H). apply Hb in H. lia.
Qed.

Lemma BulletInvX_createBullet extra x y a g r g' :
  BulletInvX extra g -> createBullet x y a g = (r, g') ->
  BulletInvX (extra ++ [r]) g'.
Proof.
  intros [Ht Hcap] E. unfold createBullet in E.
  destruct (pop (bulletPoolRef g)) as [[rest z]|] eqn:Ep.
  - apply pop_Some in Ep. inversion E; subst r g'; clear E.
    unfold BulletInvX; cbn. rewrite Ep in *. split.
    + apply (tracked_sub (bulletHeap g) _ _ _
               (extra ++ bulletsRef g ++ rest ++ [z])); auto.
      * apply (@NoDup_incl_NoDup _ (extra ++ bulletsRef g ++ rest ++ [z])).
        -- apply Ht.
        -- rewrite !length_app; simpl; lia.
        -- intros u; rewrite !in_app_iff; simpl; tauto.
      * intros u; rewrite !in_app_iff; simpl; tauto.
      * intros u _. unfold heapSet. destruct (Nat.eqb_spec u z);
          [subst; reflexivity | reflexivity].
    + rewrite length_app in Hcap; simpl in Hcap; lia.
  - apply pop_None in Ep. inversion E; subst r g'; clear E.
    unfold BulletInvX; cbn. rewrite Ep in *. split; [|simpl; lia].
    apply (tracked_rearrange _ _ _
             (heapNext g :: extra ++ bulletsRef g ++ [])).
    + apply tracked_fresh; [assumption | reflexivity].
    + rewrite !length_app; simpl; rewrite !length_app; simpl; lia.
    + intros u; simpl; rewrite !in_app_iff; simpl; tauto.
    + intros u; simpl; rewrite !in_app_iff; simpl; tauto.
Qed.

Lemma BulletInv_push extra g :
  BulletInvX extra g -> BulletInv (set_bulletsRef (bulletsRef g ++ extra) g).
Proof.
  intros [Ht Hcap]. split; [|exact Hcap]. cbn.
  apply (tracked_rearrange _ _ _ _ _ Ht).
  - rewrite !length_app; lia.
  - intros u; rewrite !in_app_iff; tauto.
  - intros u; rewrite !in_app_iff; tauto.
Qed.

Lemma BulletInv_fireBullet now g : BulletInv g -> BulletInv (fireBullet now g).
Proof.
  intros H. unfold fireBullet.
  destruct (playerRef g) as [[pw ph]|]; [|assumption].
  destruct (GameState_eqb _ _); [|assumption].
  destruct (_ <? _)%Z; [assumption|].
  cbv zeta.
  assert (H0 : BulletInvX [] (set_lastFireTimeRef now g)) by exact H.
  destruct (multiDirectional _).
  - destruct (createBullet _ _ 0 _) as [b1 g1] eqn:E1.
    destruct (createBullet _ _ (-30) _) as [b2 g2] eqn:E2.
    destruct (createBullet _ _ 30 _) as [b3 g3] eqn:E3.
    apply (BulletInvX_createBullet [] _ _ _ _ _ _ H0) in E1.
    apply (BulletInvX_createBullet _ _ _ _ _ _ _ E1) in E2.
    apply (BulletInvX_createBullet _ _ _ _ _ _ _ E2) in E3.
    apply BulletInv_push in E3. exact E3.
  - destruct (createBullet _ _ 0 _) as [b1 g1] eqn:E1.
    apply (BulletInvX_createBullet [] _ _ _ _ _ _ H0) in E1.
    apply BulletInv_push in E1. exact E1.
Qed.

Lemma NoDup_app_iff {A} (l1 l2 : list A) :
  NoDup (l1 ++ l2) <->
  NoDup l1 /\ NoDup l2 /\ (forall a, In a l1 -> ~ In a l2).
Proof.
  split.
  - intros H. repeat split.
    + eapply NoDup_app_remove_r; eauto.
    + eapply NoDup_app_remove_l; eauto.
    + induction l1 as [|b l1 IH]; simpl in *; [tauto|].
      inversion H; subst. intros a [Ha|Ha] Hin.
      * subst. apply H2. apply in_or_app. auto.
      * apply (IH H3 a Ha Hin).
  - intros (H1 & H2 & H3). apply NoDup_app; assumption.
Qed.

Lemma firstn_incl {A} k (l : list A) : incl (firstn k l) l.
Proof.
  intros a Ha. rewrite <- (firstn_skipn k l). apply in_or_app. auto.
Qed.

Lemma NoDup_app_firstn {A} k (l bs : list A) :
  NoDup (l ++ bs) -> NoDup (l ++ firstn k bs).
Proof.
  intros H. rewrite <- (firstn_skipn k bs), app_assoc in H.
  eapply NoDup_app_remove_r; eauto.
Qed.

(** What the pool holds after a release. *)
Lemma releaseBullets_pool bs g :
  bulletPoolRef (releaseBullets bs g) =
  bulletPoolRef g ++
  firstn (Z.to_nat (MAX_BULLETS - Z.of_nat (length (bulletPoolRef g)))) bs.
Proof.
  unfold releaseBullets.
  destruct (Z.ltb_spec 0 (MAX_BULLETS - Z.of_nat (length (bulletPoolRef g)))).
  - reflexivity.
  - replace (Z.to_nat _) with 0%nat by lia. simpl. rewrite app_nil_r.
    reflexivity.
Qed.

Lemma releaseBullets_shape bs g :
  releaseBullets bs g = set_bulletPoolRef (bulletPoolRef (releaseBullets bs g)) g.
Proof.
  unfold releaseBullets. destruct (_ <? _)%Z; [reflexivity|].
  destruct g; reflexivity.
Qed.

Lemma BulletInv_releaseBullets bs g :
  tracked (bulletHeap g) (heapNext g) (bulletIdRef g)
          (bulletsRef g ++ bulletPoolRef g ++ bs) ->
  (length (bulletPoolRef g) <= 100)%nat ->
  BulletInv (releaseBullets bs g).
Proof.
  intros Ht Hcap.
  assert (Hgen : forall k, (k <= 100 - length (bulletPoolRef g))%nat ->
            BulletInv (set_bulletPoolRef (bulletPoolRef g ++ firstn k bs) g)).
  { intros k Hk. split.
    - cbn. apply (tracked_sub _ _ _ _ _ _ Ht).
      + rewrite app_assoc. apply NoDup_app_firstn. rewrite <- app_assoc.
        apply Ht.
      + intros u. rewrite !in_app_iff. intros [H|[H|H]]; auto.
        apply firstn_incl in H. auto.
      + reflexivity.
    - cbn. rewrite length_app, length_firstn. lia. }
  unfold releaseBullets, MAX_BULLETS.
  destruct (Z.ltb_spec 0 (100 - Z.of_nat (length (bulletPoolRef g)))).
  - apply Hgen. lia.
  - specialize (Hgen 0%nat ltac:(lia)). simpl in Hgen.
    rewrite app_nil_r in Hgen. exact Hgen.
Qed.

(** The loop of [animateBullets] on an array without repeated references:
    every object is moved once, and the array is split by
    [staysOnScreen]. *)
Lemma moveBullets_spec bs : forall h kept rec h' kept' rec',
  NoDup bs ->
  moveBullets bs h kept rec = (h', kept', rec') ->
  kept' = kept ++ filter (staysOnScreen h) bs /\
  rec' = rec ++ filter (fun r => negb (staysOnScreen h r)) bs /\
  (forall r, h' r = if existsb (Nat.eqb r) bs then moveBullet (h r) else h r).
Proof.
  induction bs as [|r bs IH]; intros h kept rec h' kept' rec' Hnd E.
  - simpl in *. inversion E; subst. rewrite !app_nil_r. auto.
  - inversion Hnd as [|? ? Hnotin Hnd']; subst.
    cbn [moveBullets] in E; cbv zeta in E.
    set (h1 := heapSet h r (moveBullet (h r))) in *.
    assert (Hsame : forall u, In u bs -> h1 u = h u).
    { intros u Hu. unfold h1, heapSet. destruct (Nat.eqb_spec u r);
        [subst; contradiction | reflexivity]. }
    assert (F1 : filter (staysOnScreen h1) bs = filter (staysOnScreen h) bs).
    { apply filter_ext_in. intros u Hu. unfold staysOnScreen.
      rewrite (Hsame u Hu). reflexivity. }
    assert (F2 : filter (fun u => negb (staysOnScreen h1 u)) bs
                 = filter (fun u => negb (staysOnScreen h u)) bs).
    { apply filter_ext_in. intros u Hu. unfold staysOnScreen.
      rewrite (Hsame u Hu). reflexivity. }
    assert (Hheap : forall u h2,
      (forall v, h2 v = if existsb (Nat.eqb v) bs
                        then moveBullet (h1 v) else h1 v) ->
      h2 u = if existsb (Nat.eqb u) (r :: bs)
             then moveBullet (h u) else h u).
    { intros u h2 H2. rewrite H2. simpl.
      destruct (Nat.eqb_spec u r) as [->|Hne]; simpl.
      - destruct (existsb (Nat.eqb r) bs) eqn:Ex.
        + apply existsb_exists in Ex. destruct Ex as [v [Hv Ev]].
          apply Nat.eqb_eq in Ev. subst. contradiction.
        + unfold h1, heapSet. rewrite Nat.eqb_refl. reflexivity.
      - unfold h1, heapSet. destruct (Nat.eqb_spec u r); [contradiction|].
        reflexivity. }
    change (Rltb (-20) (Bullet.y (moveBullet (h r))))
      with (staysOnScreen h r) in E.
    cbn [filter].
    destruct (staysOnScreen h r); cbn [negb].
    + apply IH in E; [|assumption]. destruct E as (E1 & E2 & E3).
      rewrite E1, E2, F1, F2, <- app_assoc. cbn [app]. auto.
    + apply IH in E; [|assumption]. destruct E as (E1 & E2 & E3).
      rewrite E1, E2, F1, F2, <- app_assoc. cbn [app]. auto.
Qed.

Lemma moveBullet_id b : Bullet.id (moveBullet b) = Bullet.id b.
Proof. reflexivity. Qed.

Lemma BulletInv_animateBullets g : BulletInv g -> BulletInv (animateBullets g).
Proof.
  intros [Ht Hcap]. unfold animateBullets.
  destruct (GameState_eqb _ _); [|split; assumption].
  destruct (moveBullets _ _ _ _) as [[h kept] rec] eqn:E.
  simpl in Ht.
  assert (Hnd : NoDup (bulletsRef g)).
  { destruct Ht as [Hnd _]. apply NoDup_app_remove_r in Hnd. exact Hnd. }
  apply moveBullets_spec in E; [|assumption].
  destruct E as (E1 & E2 & E3). simpl in E1, E2. subst kept rec.
  set (p := staysOnScreen (bulletHeap g)) in *.
  assert (Hid : forall r, Bullet.id (h r) = Bullet.id (bulletHeap g r)).
  { intros r. rewrite E3. destruct (existsb _ _); reflexivity. }
  assert (Hall : tracked h (heapNext g) (bulletIdRef g)
                   (filter p (bulletsRef g) ++ bulletPoolRef g ++
                    filter (fun r => negb (p r)) (bulletsRef g))).
  { apply (tracked_sub _ _ _ _ _ _ Ht).
    - destruct Ht as [Hn _]. apply NoDup_app_iff in Hn.
      destruct Hn as (N1 & N2 & N3).
      apply NoDup_app_iff. repeat split.
      + apply NoDup_filter; assumption.
      + apply NoDup_app_iff. repeat split.
        * assumption.
        * apply NoDup_filter; assumption.
        * intros a Ha Hf. apply filter_In in Hf. apply (N3 a); tauto.
      + intros a Ha Hin. apply filter_In in Ha. destruct Ha as [Ha Hp].
        apply in_app_or in Hin. destruct Hin as [Hin|Hin].
        * apply (N3 a); assumption.
        * apply filter_In in Hin. rewrite Hp in Hin. destruct Hin; discriminate.
    - intros u. rewrite !in_app_iff, !filter_In. tauto.
    - intros r _. apply Hid. }
  assert (Hinv : forall g0 : Game,
    bulletHeap g0 = h -> heapNext g0 = heapNext g ->
    bulletIdRef g0 = bulletIdRef g ->
    bulletsRef g0 = filter p (bulletsRef g) ->
    bulletPoolRef g0 = bulletPoolRef g ->
    BulletInv (match filter (fun r => negb (p r)) (bulletsRef g) with
               | [] => g0
               | _ :: _ =>
                   releaseBullets (filter (fun r => negb (p r)) (bulletsRef g))
                                  g0
               end)).
  { intros g0 G1 G2 G3 G4 G5.
    destruct (filter (fun r => negb (p r)) (bulletsRef g)) as [|a l] eqn:Ef.
    - split; [|rewrite G5; assumption]. simpl.
      rewrite G1, G2, G3, G4, G5. rewrite app_nil_r in Hall. exact Hall.
    - apply BulletInv_releaseBullets; [|rewrite G5; assumption].
      rewrite G1, G2, G3, G4, G5. exact Hall. }
  specialize (Hinv (set_bulletsRef (filter p (bulletsRef g))
                      (set_bulletHeap h g))
                   eq_refl eq_refl eq_refl eq_refl eq_refl).
  revert Hinv. destruct (filter _ _) as [|a l].
  - intros H. exact H.
  - rewrite releaseBullets_shape. intros H. exact H.
Qed.

(** ** The projectile-obstacle pass *)

Lemma blockAfter_0 block : blockAfter 0 block = block.
Proof.
  destruct block as [i x y hp hit brk]. unfold blockAfter; simpl.
  rewrite orb_false_r, Z.sub_0_r. destruct brk; reflexivity.
Qed.

Lemma blockAfter_S k block :
  blockAfter k (hitBlock block) = blockAfter (S k) block.
Proof.
  destruct block as [i x y hp hit brk]. unfold blockAfter, hitBlock.
  cbn [Block.id Block.x Block.y Block.hp Block.isHit Block.isBreakable].
  cbn [orb Nat.eqb negb]. rewrite orb_true_r.
  destruct brk; f_equal. lia.
Qed.

Lemma firstOverlap_shape bullet : forall bl bl',
  map blockShape bl = map blockShape bl' ->
  firstOverlap bullet bl = firstOverlap bullet bl'.
Proof.
  induction bl as [|b bl IH]; intros [|b' bl'] E; simpl in E;
    try discriminate; [reflexivity|].
  inversion E as [[E1 E2 E3 E4 E5]]. simpl.
  unfold bulletOverlapsBlock. rewrite E2, E3, (IH bl' E5). reflexivity.
Qed.

Lemma hitsAny_firstOverlap h bl r :
  hitsAny h bl r = match firstOverlap (h r) bl with
                   | Some _ => true
                   | None => false
                   end.
Proof.
  unfold hitsAny. induction bl as [|b bl IH]; simpl; [reflexivity|].
  destruct (bulletOverlapsBlock (h r) b); simpl; [reflexivity|].
  rewrite IH. destruct (firstOverlap (h r) bl); reflexivity.
Qed.

Lemma nth_error_shape {bl bl' : list Block.t} j :
  map blockShape bl = map blockShape bl' ->
  option_map blockShape (nth_error bl j) =
  option_map blockShape (nth_error bl' j).
Proof.
  intros E. rewrite <- !nth_error_map, E. reflexivity.
Qed.

Lemma firstHitBreakable_shape h bl bl' r :
  map blockShape bl = map blockShape bl' ->
  firstHitBreakable h bl r = firstHitBreakable h bl' r.
Proof.
  intros E. unfold firstHitBreakable.
  rewrite (firstOverlap_shape _ _ _ E).
  destruct (firstOverlap (h r) bl') as [i|]; [|reflexivity].
  pose proof (nth_error_shape i E) as N.
  destruct (nth_error bl i), (nth_error bl' i); simpl in N;
    try discriminate; [|reflexivity].
  inversion N. reflexivity.
Qed.

(** The inner loop, by the first overlapping block. *)
Lemma scanBlocks_None bullet blocks :
  scanBlocks bullet blocks = None -> firstOverlap bullet blocks = None.
Proof.
  induction blocks as [|b bl IH]; simpl; [reflexivity|].
  destruct (bulletOverlapsBlock bullet b); [discriminate|].
  destruct (scanBlocks bullet bl) as [[? ?]|]; [discriminate|].
  intros _. rewrite IH; reflexivity.
Qed.

Lemma scanBlocks_Some bullet : forall blocks blocks' brk,
  scanBlocks bullet blocks = Some (blocks', brk) ->
  exists j block,
    firstOverlap bullet blocks = Some j /\
    nth_error blocks j = Some block /\
    brk = Block.isBreakable block /\
    map blockShape blocks' = map blockShape blocks /\
    (forall i, nth_error blocks' i =
               if Nat.eqb i j then Some (hitBlock block)
               else nth_error blocks i).
Proof.
  induction blocks as [|b bl IH]; simpl; intros blocks' brk E; [discriminate|].
  destruct (bulletOverlapsBlock bullet b).
  - inversion E; subst. exists 0%nat, b. repeat split.
    intros [|i]; reflexivity.
  - destruct (scanBlocks bullet bl) as [[rest' brk']|] eqn:Es; [|discriminate].
    inversion E; subst.
    destruct (IH rest' brk eq_refl) as (j & block & F & N & B & Sh & P).
    exists (Datatypes.S j), block. rewrite F. repeat split; auto.
    + simpl. rewrite Sh. reflexivity.
    + intros [|i]; [reflexivity|]. simpl. apply P.
Qed.

(** The outer loop: which bullets are marked, what is scored, and what
    becomes of each block. *)
Lemma collideBullets_spec bs : forall g rec hit g' rec' hit',
  collideBullets bs g rec hit = (g', rec', hit') ->
  let h := bulletHeap g in
  let bl := blocksRef g in
  rec' = rec ++ filter (hitsAny h bl) bs /\
  hit' = hit || existsb (hitsAny h bl) bs /\
  scoreRef g' =
    (scoreRef g + Z.of_nat (length (filter (firstHitBreakable h bl) bs)))%Z /\
  map blockShape (blocksRef g') = map blockShape bl /\
  (forall j block,
     nth_error bl j = Some block ->
     nth_error (blocksRef g') j = Some (blockAfter (hitsOn h bl bs j) block)).
Proof.
  induction bs as [|r bs IH]; intros g rec hit g' rec' hit' E; cbv zeta.
  - simpl in E. inversion E; subst. simpl.
    rewrite app_nil_r, orb_false_r, Z.add_0_r. repeat split.
    intros j block N. unfold hitsOn; simpl. rewrite blockAfter_0. exact N.
  - cbn [collideBullets] in E.
    destruct (scanBlocks (bulletHeap g r) (blocksRef g)) as [[bl1 brk]|] eqn:Es.
    + apply scanBlocks_Some in Es.
      destruct Es as (j0 & b0 & F & N0 & B & Sh & P).
      apply IH in E. cbv zeta in E.
      assert (Hh : bulletHeap
                     (set_blocksRef bl1
                        (if brk then set_scoreRef (scoreRef g + 1)%Z g else g))
                   = bulletHeap g) by (destruct brk; reflexivity).
      assert (Hb : blocksRef
                     (set_blocksRef bl1
                        (if brk then set_scoreRef (scoreRef g + 1)%Z g else g))
                   = bl1) by reflexivity.
      assert (Hs : scoreRef
                     (set_blocksRef bl1
                        (if brk then set_scoreRef (scoreRef g + 1)%Z g else g))
                   = (scoreRef g + if brk then 1 else 0)%Z)
        by (destruct brk; cbn; lia).
      rewrite Hh, Hb, Hs in E. destruct E as (E1 & E2 & E3 & E4 & E5).
      assert (A1 : hitsAny (bulletHeap g) (blocksRef g) r = true)
        by (rewrite hitsAny_firstOverlap, F; reflexivity).
      assert (A2 : firstHitBreakable (bulletHeap g) (blocksRef g) r = brk)
        by (unfold firstHitBreakable; rewrite F, N0; auto).
      assert (X1 : filter (hitsAny (bulletHeap g) bl1) bs
                   = filter (hitsAny (bulletHeap g) (blocksRef g)) bs).
      { apply filter_ext. intros u. rewrite !hitsAny_firstOverlap.
        rewrite (firstOverlap_shape _ _ _ Sh). reflexivity. }
      assert (X2 : filter (firstHitBreakable (bulletHeap g) bl1) bs
                   = filter (firstHitBreakable (bulletHeap g) (blocksRef g)) bs).
      { apply filter_ext. intros u. apply firstHitBreakable_shape, Sh. }
      assert (X3 : forall j, hitsOn (bulletHeap g) bl1 bs j
                             = hitsOn (bulletHeap g) (blocksRef g) bs j).
      { intros j. unfold hitsOn. f_equal. apply filter_ext. intros u.
        unfold firstHitIs. rewrite (firstOverlap_shape _ _ _ Sh). reflexivity. }
      cbn [filter existsb]. rewrite A1, A2. repeat split.
      * rewrite E1, X1, <- app_assoc. reflexivity.
      * rewrite E2. destruct hit; reflexivity.
      * rewrite E3, X2. destruct brk; cbn [length]; lia.
      * rewrite E4. exact Sh.
      * intros j block N. rewrite (E5 j (if Nat.eqb j j0 then hitBlock block
                                        else block)).
        -- assert (A3 : firstHitIs (bulletHeap g) (blocksRef g) j r
                        = Nat.eqb j0 j)
             by (unfold firstHitIs; rewrite F; reflexivity).
           rewrite X3. unfold hitsOn at 2. cbn [filter].
           rewrite A3, (Nat.eqb_sym j0 j).
           destruct (Nat.eqb_spec j j0) as [->|Hne].
           ++ cbn [length]. rewrite blockAfter_S. reflexivity.
           ++ reflexivity.
        -- rewrite P. destruct (Nat.eqb_spec j j0) as [->|Hne].
           ++ rewrite N0 in N. inversion N. reflexivity.
           ++ exact N.
    + apply scanBlocks_None in Es. apply IH in E. cbv zeta in E.
      destruct E as (E1 & E2 & E3 & E4 & E5).
      assert (A1 : hitsAny (bulletHeap g) (blocksRef g) r = false)
        by (rewrite hitsAny_firstOverlap, Es; reflexivity).
      assert (A2 : firstHitBreakable (bulletHeap g) (blocksRef g) r = false)
        by (unfold firstHitBreakable; rewrite Es; reflexivity).
      cbn [filter existsb]. rewrite A1, A2. repeat split; auto.
      intros j block N.
      assert (A3 : firstHitIs (bulletHeap g) (blocksRef g) j r = false)
        by (unfold firstHitIs; rewrite Es; reflexivity).
      rewrite (E5 j block N). unfold hitsOn. cbn [filter].
      rewrite A3. reflexivity.
Qed.

Lemma no_hits h bl bs :
  existsb (hitsAny h bl) bs = false ->
  filter (hitsAny h bl) bs = [] /\
  filter (firstHitBreakable h bl) bs = [] /\
  (forall j, hitsOn h bl bs j = 0%nat).
Proof.
  unfold hitsOn. induction bs as [|r bs IH]; simpl; intros E; [auto|].
  apply orb_false_iff in E. destruct E as [E1 E2].
  destruct (IH E2) as (I1 & I2 & I3). rewrite E1, I1, I2.
  rewrite hitsAny_firstOverlap in E1.
  unfold firstHitBreakable, firstHitIs.
  destruct (firstOverlap (h r) bl); [discriminate|]. auto.
Qed.

Lemma existsb_hitsAny_nil h bs : existsb (hitsAny h []) bs = false.
Proof. induction bs; simpl; auto. Qed.

Lemma filter_notRecycled_nil h bs : filter (notRecycled h []) bs = bs.
Proof. induction bs as [|r bs IH]; simpl; [reflexivity|]. rewrite IH; auto. Qed.

Lemma filter_nil_existsb {A} (f : A -> bool) l :
  filter f l = [] -> existsb f l = false.
Proof.
  induction l as [|a l IH]; simpl; [reflexivity|].
  destruct (f a); [discriminate|]. exact IH.
Qed.

Lemma filter_cons_existsb {A} (f : A -> bool) l a l' :
  filter f l = a :: l' -> existsb f l = true.
Proof.
  intros E. apply existsb_exists. exists a.
  assert (H : In a (filter f l)) by (rewrite E; left; reflexivity).
  apply filter_In in H. exact H.
Qed.

(** The whole of [checkCollisions] while playing: the marked bullets are
    the overlapping ones, they leave the live array through the filter on
    ids and go through the pool's release; [scanned] is the block array at
    the end of the loops, before the removal. *)
Lemma checkCollisions_spec g :
  gameStateRef g = playing ->
  let h := bulletHeap g in
  let bl := blocksRef g in
  let bs := bulletsRef g in
  let marked := filter (hitsAny h bl) bs in
  let g' := checkCollisions g in
  bulletHeap g' = h /\ heapNext g' = heapNext g /\
  bulletIdRef g' = bulletIdRef g /\
  bulletsRef g' = filter (notRecycled h marked) bs /\
  bulletPoolRef g' =
    bulletPoolRef g ++
    firstn (Z.to_nat (MAX_BULLETS - Z.of_nat (length (bulletPoolRef g)))) marked /\
  scoreRef g' =
    (scoreRef g + Z.of_nat (length (filter (firstHitBreakable h bl) bs)))%Z /\
  exists scanned,
    map blockShape scanned = map blockShape bl /\
    (forall j block,
       nth_error bl j = Some block ->
       nth_error scanned j = Some (blockAfter (hitsOn h bl bs j) block)) /\
    blocksRef g' = if existsb (hitsAny h bl) bs
                   then filter blockSurvives scanned else scanned.
Proof.
  intros Hp. cbv zeta. unfold checkCollisions. rewrite Hp. cbn [GameState_eqb].
  assert (Early : forall l,
    existsb (hitsAny (bulletHeap g) (blocksRef g)) (bulletsRef g) = false ->
    let g' := requestAnimationFrame l g in
    bulletHeap g' = bulletHeap g /\ heapNext g' = heapNext g /\
    bulletIdRef g' = bulletIdRef g /\
    bulletsRef g' =
      filter (notRecycled (bulletHeap g)
                (filter (hitsAny (bulletHeap g) (blocksRef g)) (bulletsRef g)))
             (bulletsRef g) /\
    bulletPoolRef g' =
      bulletPoolRef g ++
      firstn (Z.to_nat (MAX_BULLETS - Z.of_nat (length (bulletPoolRef g))))
             (filter (hitsAny (bulletHeap g) (blocksRef g)) (bulletsRef g)) /\
    scoreRef g' =
      (scoreRef g +
       Z.of_nat (length (filter (firstHitBreakable (bulletHeap g) (blocksRef g))
                                (bulletsRef g))))%Z /\
    exists scanned,
      map blockShape scanned = map blockShape (blocksRef g) /\
      (forall j block,
         nth_error (blocksRef g) j = Some block ->
         nth_error scanned j =
         Some (blockAfter (hitsOn (bulletHeap g) (blocksRef g) (bulletsRef g) j)
                          block)) /\
      blocksRef g' =
        if existsb (hitsAny (bulletHeap g) (blocksRef g)) (bulletsRef g)
        then filter blockSurvives scanned else scanned).
  { intros l E. cbv zeta. destruct (no_hits _ _ _ E) as (N1 & N2 & N3).
    rewrite N1, N2, E, firstn_nil, app_nil_r, filter_notRecycled_nil.
    cbn. rewrite Z.add_0_r. repeat split.
    exists (blocksRef g). repeat split.
    intros j block N. rewrite N3, blockAfter_0. exact N. }
  destruct (bulletsRef g) as [|r0 bs0] eqn:Ebs.
  { apply Early. reflexivity. }
  destruct (blocksRef g) as [|b0 bl0] eqn:Ebl.
  { apply Early. apply existsb_hitsAny_nil. }
  clear Early. rewrite <- Ebs, <- Ebl.
  destruct (collideBullets (bulletsRef g) g [] false) as [[g1 rec] hit] eqn:E.
  pose proof (collideBullets_shape _ _ _ _ _ _ _ E) as Sh.
  apply collideBullets_spec in E. cbv zeta in E.
  destruct E as (E1 & E2 & E3 & E4 & E5). simpl in E1, E2.
  set (marked := filter (hitsAny (bulletHeap g) (blocksRef g)) (bulletsRef g))
    in *.
  set (scanned := blocksRef g1) in *.
  assert (G1 : bulletHeap g1 = bulletHeap g) by (rewrite Sh; reflexivity).
  assert (G2 : bulletsRef g1 = bulletsRef g) by (rewrite Sh; reflexivity).
  assert (G3 : bulletPoolRef g1 = bulletPoolRef g) by (rewrite Sh; reflexivity).
  assert (G4 : heapNext g1 = heapNext g) by (rewrite Sh; reflexivity).
  assert (G5 : bulletIdRef g1 = bulletIdRef g) by (rewrite Sh; reflexivity).
  subst rec hit.
  assert (Mid : forall g2,
    g2 = match marked with
         | [] => g1
         | _ :: _ =>
             releaseBullets marked
               (set_bulletsRef
                  (filter (notRecycled (bulletHeap g1) marked) (bulletsRef g1))
                  g1)
         end ->
    bulletHeap g2 = bulletHeap g /\ heapNext g2 = heapNext g /\
    bulletIdRef g2 = bulletIdRef g /\
    bulletsRef g2 = filter (notRecycled (bulletHeap g) marked) (bulletsRef g) /\
    bulletPoolRef g2 =
      bulletPoolRef g ++
      firstn (Z.to_nat (MAX_BULLETS - Z.of_nat (length (bulletPoolRef g))))
             marked /\
    scoreRef g2 = scoreRef g1 /\ blocksRef g2 = scanned).
  { intros g2 ->. destruct marked as [|m ms] eqn:Em.
    - rewrite firstn_nil, app_nil_r, filter_notRecycled_nil.
      repeat split; auto.
    - rewrite releaseBullets_pool. rewrite releaseBullets_shape.
      cbn. rewrite G1, G2, G3. repeat split; auto. }
  specialize (Mid _ eq_refl).
  destruct Mid as (M1 & M2 & M3 & M4 & M5 & M6 & M7).
  set (g2 := match marked with [] => g1 | _ :: _ => _ end) in *.
  destruct (existsb (hitsAny (bulletHeap g) (blocksRef g)) (bulletsRef g));
    cbn; rewrite ?M1, ?M2, ?M3, ?M4, ?M5, ?M6, ?M7, ?E3; repeat split;
    exists scanned; repeat split; auto.
Qed.

(** On an array whose bullets carry pairwise distinct ids, the filter on
    ids of line 1045 keeps exactly the bullets that were not marked. *)
Lemma notRecycled_marked h (p : nat -> bool) bs :
  (forall r r', In r bs -> In r' bs ->
                Bullet.id (h r) = Bullet.id (h r') -> r = r') ->
  filter (notRecycled h (filter p bs)) bs = filter (fun r => negb (p r)) bs.
Proof.
  intros Hinj. apply filter_ext_in. intros r Hr. unfold notRecycled.
  f_equal. destruct (p r) eqn:Ep.
  - apply existsb_exists. exists r. split.
    + apply filter_In; auto.
    + apply Z.eqb_refl.
  - destruct (existsb _ _) eqn:Ex; [|reflexivity].
    apply existsb_exists in Ex. destruct Ex as [r' [Hin Heq]].
    apply filter_In in Hin. destruct Hin as [Hin Hp'].
    apply Z.eqb_eq in Heq. rewrite (Hinj r' r Hin Hr Heq) in Hp'. congruence.
Qed.

Lemma BulletInv_checkCollisions g : BulletInv g -> BulletInv (checkCollisions g).
Proof.
  intros [Ht Hcap].
  destruct (GameState_eqb (gameStateRef g) playing) eqn:Ep.
  2:{ unfold checkCollisions. rewrite Ep. split; assumption. }
  apply GameState_eqb_eq in Ep.
  destruct (checkCollisions_spec g Ep)
    as (S1 & S2 & S3 & S4 & S5 & _).
  simpl in Ht. pose proof Ht as (Hnd & Hinj & Hb).
  apply NoDup_app_iff in Hnd. destruct Hnd as (N1 & N2 & N3).
  rewrite notRecycled_marked in S4
    by (intros r r' Hr Hr'; apply Hinj; apply in_or_app; auto).
  unfold BulletInv, BulletInvX. rewrite S1, S2, S3, S4, S5. unfold MAX_BULLETS.
  split.
  - simpl. apply (tracked_sub (bulletHeap g) _ _ _
                    (bulletsRef g ++ bulletPoolRef g)).
    + exact Ht.
    + apply NoDup_app_iff. repeat split.
      * apply NoDup_filter; assumption.
      * apply NoDup_app_iff. repeat split.
        -- assumption.
        -- apply NoDup_app_remove_l with (l := @nil nat).
           apply (NoDup_app_firstn _ []). simpl. apply NoDup_filter.
           assumption.
        -- intros a Ha Hf. apply firstn_incl, filter_In in Hf.
           apply (N3 a); tauto.
      * intros a Ha Hin. apply filter_In in Ha. destruct Ha as [Ha Hp].
        apply in_app_or in Hin. destruct Hin as [Hin|Hin].
        -- apply (N3 a); assumption.
        -- apply firstn_incl, filter_In in Hin. destruct Hin as [_ Hq].
           rewrite Hq in Hp. discriminate.
    + intros u. rewrite !in_app_iff, filter_In. intros [H|[H|H]]; try tauto.
      apply firstn_incl, filter_In in H. tauto.
    + reflexivity.
  - rewrite length_app, length_firstn. lia.
Qed.

Ltac bi_same := let H := fresh in intros H; exact H.

Lemma BulletInv_updateRender g : BulletInv g -> BulletInv (updateRender g).
Proof. unfold updateRender; repeat break_match; bi_same. Qed.

Lemma BulletInv_animatePlayer keys dragging g :
  BulletInv g -> BulletInv (animatePlayer keys dragging g).
Proof. unfold animatePlayer; repeat break_match; bi_same. Qed.

Lemma BulletInv_animateObjects g : BulletInv g -> BulletInv (animateObjects g).
Proof. unfold animateObjects; repeat break_match; bi_same. Qed.

Lemma BulletInv_checkPlayerCollisions g :
  BulletInv g -> BulletInv (checkPlayerCollisions g).
Proof.
  unfold checkPlayerCollisions, triggerGameOver.
  destruct (GameState_eqb (gameStateRef g) playing); [|auto].
  destruct (playerRef g); [|auto].
  destruct (existsb _ _); [bi_same|].
  destruct (collectPowerUps _ _ _ _) as [g1 ids] eqn:E.
  apply collectPowerUps_shape in E. rewrite E.
  repeat break_match; bi_same.
Qed.

Lemma BulletInv_runLoop keys dragging l g :
  BulletInv g -> BulletInv (runLoop keys dragging l g).
Proof.
  destruct l; simpl;
    auto using BulletInv_updateRender, BulletInv_animatePlayer,
      BulletInv_animateBullets, BulletInv_animateObjects,
      BulletInv_checkCollisions, BulletInv_checkPlayerCollisions.
Qed.

Lemma BulletInv_runLoops keys dragging ls : forall g,
  BulletInv g -> BulletInv (runLoops keys dragging ls g).
Proof.
  induction ls as [|l ls IH]; simpl; intros g H; [assumption|].
  apply IH, BulletInv_runLoop, H.
Qed.

Lemma BulletInv_startGame g : BulletInv g -> BulletInv (startGame g).
Proof.
  unfold startGame. destruct (gameContainerRef g) as [[w h]|]; [|auto].
  intros _. split; [|simpl; lia]. simpl. repeat split.
  - constructor.
  - intros r r' [].
  - destruct H.
  - destruct H.
Qed.

Lemma BulletInv_commitEffects g : BulletInv g -> BulletInv (commitEffects g).
Proof. unfold commitEffects; repeat break_match; bi_same. Qed.

Lemma BulletInv_step g g' : step g g' -> BulletInv g -> BulletInv g'.
Proof.
  intros S H; destruct S.
  - apply BulletInv_commitEffects, BulletInv_startGame, H.
  - apply BulletInv_commitEffects, H.
  - apply BulletInv_fireBullet, H.
  - revert H. unfold spawnBlock. repeat break_match; try bi_same.
    rewrite spawnLoop_shape. bi_same.
  - revert H. unfold gameTimerTick, spawnPowerUp. repeat break_match; bi_same.
  - revert H. unfold powerUpTimerTick. repeat break_match; bi_same.
  - apply BulletInv_runLoops. exact H.
  - exact H.
  - revert H. unfold handleTouchStart. repeat break_match; bi_same.
  - revert H. unfold handleTouchMove. repeat break_match; bi_same.
  - revert H. unfold handleTouchEnd. repeat break_match; bi_same.
  - exact H.
  - exact H.
Qed.

Lemma BulletInv_initialGame w h : BulletInv (initialGame w h).
Proof.
  split; [|simpl; lia]. simpl. repeat split.
  - constructor.
  - intros r r' [].
  - destruct H.
  - destruct H.
Qed.

Lemma reachable_BulletInv g : reachable g -> BulletInv g.
Proof.
  induction 1; eauto using BulletInv_initialGame, BulletInv_step.
Qed.

Lemma visited_BulletInv g : visited g -> BulletInv g.
Proof.
  intros [g' H|keys dragging g' n H].
  - apply reachable_BulletInv, H.
  - apply BulletInv_runLoops. exact (reachable_BulletInv g' H).
Qed.

(** ** Power-up effect slots *)

Lemma slot_setSlot_same {A} ty (v : A) s : slot ty (setSlot ty v s) = v.
Proof. destruct ty; reflexivity. Qed.

Lemma slot_setSlot_other {A} ty ty' (v : A) s :
  ty' <> ty -> slot ty' (setSlot ty v s) = slot ty' s.
Proof. destruct ty, ty'; intros H; try reflexivity; contradiction. Qed.

Lemma activatePowerUp_slots ty g :
  let g' := activatePowerUp ty g in
  slot ty (activePowerUps g') = true /\
  slot ty (powerUpTimeLeft g') = spec_duration ty /\
  (forall ty', ty' <> ty ->
     slot ty' (activePowerUps g') = slot ty' (activePowerUps g) /\
     slot ty' (powerUpTimeLeft g') = slot ty' (powerUpTimeLeft g)).
Proof.
  unfold activatePowerUp. cbn. repeat split.
  - apply slot_setSlot_same.
  - rewrite slot_setSlot_same. destruct ty; reflexivity.
  - apply slot_setSlot_other; assumption.
  - apply slot_setSlot_other; assumption.
Qed.

Lemma PowerUpType_eq_dec (a b : PowerUpType.t) : {a = b} + {a <> b}.
Proof. decide equality. Defined.

Lemma SlotInv_activatePowerUp ty g : SlotInv g -> SlotInv (activatePowerUp ty g).
Proof.
  intros H ty'. destruct (activatePowerUp_slots ty g) as (A1 & A2 & A3).
  destruct (PowerUpType_eq_dec ty' ty) as [->|Hne].
  - rewrite A1, A2. destruct ty; reflexivity.
  - destruct (A3 ty' Hne) as [B1 B2]. rewrite B1, B2. apply H.
Qed.

Lemma powerUpTimerTick_slots g ty :
  gameState g = playing ->
  let g' := powerUpTimerTick g in
  slot ty (powerUpTimeLeft g') = Z.max 0 (slot ty (powerUpTimeLeft g) - 1) /\
  slot ty (activePowerUps g') = (0 <? slot ty (powerUpTimeLeft g'))%Z.
Proof.
  intros Hp. unfold powerUpTimerTick. rewrite Hp. destruct ty; cbn; auto.
Qed.

Lemma SlotInv_powerUpTimerTick g : SlotInv g -> SlotInv (powerUpTimerTick g).
Proof.
  intros H ty. destruct (GameState_eqb (gameState g) playing) eqn:E.
  - apply GameState_eqb_eq in E. apply (powerUpTimerTick_slots g ty E).
  - unfold powerUpTimerTick. rewrite E. apply H.
Qed.

Lemma SlotInv_collectPowerUps pos ps : forall g ids,
  SlotInv g -> SlotInv (fst (collectPowerUps pos ps g ids)).
Proof.
  induction ps as [|p ps IH]; simpl; intros g ids H; [assumption|].
  destruct (playerOverlapsPowerUp pos p); auto using SlotInv_activatePowerUp.
Qed.

Ltac si_same := let H := fresh in intros H; exact H.

Lemma SlotInv_checkPlayerCollisions g :
  SlotInv g -> SlotInv (checkPlayerCollisions g).
Proof.
  intros H. unfold checkPlayerCollisions, triggerGameOver.
  destruct (GameState_eqb (gameStateRef g) playing); [|auto].
  destruct (playerRef g); [|auto].
  destruct (existsb _ _); [exact H|].
  pose proof (SlotInv_collectPowerUps (positionRef g) (powerUpsRef g) g [] H)
    as H'.
  destruct (collectPowerUps _ _ _ _) as [g1 ids]. simpl in H'.
  destruct ids; exact H'.
Qed.

Lemma SlotInv_checkCollisions g : SlotInv g -> SlotInv (checkCollisions g).
Proof.
  unfold checkCollisions.
  destruct (GameState_eqb (gameStateRef g) playing); [|auto].
  destruct (bulletsRef g) eqn:Eb; [si_same|].
  destruct (blocksRef g) eqn:Ek; [si_same|].
  destruct (collideBullets _ _ _ _) as [[g1 rec] hit] eqn:E.
  apply collideBullets_shape in E. rewrite E.
  unfold releaseBullets; repeat break_match; si_same.
Qed.

Lemma SlotInv_runLoop keys dragging l g :
  SlotInv g -> SlotInv (runLoop keys dragging l g).
Proof.
  destruct l; simpl;
    auto using SlotInv_checkCollisions, SlotInv_checkPlayerCollisions.
  - unfold updateRender; repeat break_match; si_same.
  - unfold animatePlayer; repeat break_match; si_same.
  - unfold animateBullets, releaseBullets; repeat break_match; si_same.
  - unfold animateObjects; repeat break_match; si_same.
Qed.

Lemma SlotInv_runLoops keys dragging ls : forall g,
  SlotInv g -> SlotInv (runLoops keys dragging ls g).
Proof.
  induction ls as [|l ls IH]; simpl; intros g H; [assumption|].
  apply IH, SlotInv_runLoop, H.
Qed.

Lemma SlotInv_startGame g : SlotInv g -> SlotInv (startGame g).
Proof.
  unfold startGame. destruct (gameContainerRef g) as [[w h]|]; [|auto].
  intros _ ty. destruct ty; reflexivity.
Qed.

Lemma SlotInv_commitEffects g : SlotInv g -> SlotInv (commitEffects g).
Proof. unfold commitEffects; repeat break_match; si_same. Qed.

Lemma SlotInv_step g g' : step g g' -> SlotInv g -> SlotInv g'.
Proof.
  intros S H; destruct S.
  - apply SlotInv_commitEffects, SlotInv_startGame, H.
  - apply SlotInv_commitEffects, H.
  - rewrite fireBullet_shape. exact H.
  - revert H. unfold spawnBlock. repeat break_match; try si_same.
    rewrite spawnLoop_shape. si_same.
  - revert H. unfold gameTimerTick, spawnPowerUp. repeat break_match; si_same.
  - apply SlotInv_powerUpTimerTick, H.
  - apply SlotInv_runLoops. exact H.
  - exact H.
  - revert H. unfold handleTouchStart. repeat break_match; si_same.
  - revert H. unfold handleTouchMove. repeat break_match; si_same.
  - revert H. unfold handleTouchEnd. repeat break_match; si_same.
  - exact H.
  - exact H.
Qed.

Lemma reachable_SlotInv g : reachable g -> SlotInv g.
Proof.
  induction 1; eauto using SlotInv_step.
  intros ty; destruct ty; reflexivity.
Qed.

Lemma countdown_slots n : forall g ty,
  gameState g = playing ->
  (0 <= slot ty (powerUpTimeLeft g))%Z ->
  gameState (countdown n g) = playing /\
  slot ty (powerUpTimeLeft (countdown n g)) =
    Z.max 0 (slot ty (powerUpTimeLeft g) - Z.of_nat n) /\
  slot ty (activePowerUps (countdown n g)) =
    match n with
    | O => slot ty (activePowerUps g)
    | S _ => (Z.of_nat n <? slot ty (powerUpTimeLeft g))%Z
    end.
Proof.
  induction n as [|n IH]; intros g ty Hp H0.
  - simpl. repeat split; auto. lia.
  - destruct (IH g ty Hp H0) as (I1 & I2 & I3).
    change (countdown (S n) g) with (powerUpTimerTick (countdown n g)).
    destruct (powerUpTimerTick_slots (countdown n g) ty I1) as [T1 T2].
    cbv zeta in T1, T2. repeat split.
    + unfold powerUpTimerTick. rewrite I1. cbn. exact I1.
    + rewrite T1, I2. lia.
    + rewrite T2, T1, I2.
      destruct (Z.ltb_spec (Z.of_nat (S n)) (slot ty (powerUpTimeLeft g)));
        destruct (Z.ltb_spec 0
          (Z.max 0 (Z.max 0 (slot ty (powerUpTimeLeft g) - Z.of_nat n) - 1)));
        auto; lia.
Qed.

(** ** The order of the callbacks within a frame *)

Ltac adv_same := unfold advances; cbn; repeat split; reflexivity.

Lemma advances_updateRender g : advances LRender g (updateRender g).
Proof. unfold updateRender; repeat break_match; adv_same. Qed.

Lemma advances_animatePlayer keys dragging g :
  gameStateRef g = playing -> gameContainerRef g <> None ->
  playerRef g <> None ->
  advances LPlayer g (animatePlayer keys dragging g).
Proof.
  intros Hp Hc Hr. unfold animatePlayer. rewrite Hp. cbn [GameState_eqb].
  destruct (gameContainerRef g) as [[cw ch]|]; [|congruence].
  destruct (playerRef g) as [[pw ph]|]; [|congruence].
  cbv zeta. repeat break_match; adv_same.
Qed.

Lemma advances_animateBullets g :
  gameStateRef g = playing -> advances LBullets g (animateBullets g).
Proof.
  intros Hp. unfold animateBullets, releaseBullets. rewrite Hp.
  cbn [GameState_eqb]. repeat break_match; adv_same.
Qed.

Lemma advances_animateObjects g :
  gameStateRef g = playing -> gameContainerRef g <> None ->
  advances LObjects g (animateObjects g).
Proof.
  intros Hp Hc. unfold animateObjects. rewrite Hp. cbn [GameState_eqb].
  destruct (gameContainerRef g) as [[cw ch]|]; [|congruence].
  adv_same.
Qed.

Lemma advances_checkCollisions g :
  gameStateRef g = playing -> advances LCollisions g (checkCollisions g).
Proof.
  intros Hp. unfold checkCollisions. rewrite Hp. cbn [GameState_eqb].
  destruct (bulletsRef g) eqn:Eb; [adv_same|].
  destruct (blocksRef g) eqn:Ek; [adv_same|].
  destruct (collideBullets _ _ _ _) as [[g1 rec] hit] eqn:E.
  apply collideBullets_shape in E. rewrite E.
  unfold releaseBullets; repeat break_match; adv_same.
Qed.

(** [checkPlayerCollisions] either ends the session, which withdraws the
    game loops, or runs to its end. *)
Lemma checkPlayerCollisions_queue g :
  gameStateRef g = playing -> playerRef g <> None ->
  let g' := checkPlayerCollisions g in
  (gameStateRef g' = gameOver /\ gameState g' = gameOver /\
   gameContainerRef g' = gameContainerRef g /\
   rafQueue g' = filter isRenderLoop (rafQueue g)) \/
  advances LPlayerCollisions g g'.
Proof.
  intros Hp Hr. unfold checkPlayerCollisions, triggerGameOver.
  rewrite Hp. cbn [GameState_eqb].
  destruct (playerRef g); [|congruence].
  destruct (existsb _ _); [left; cbn; auto|].
  right. destruct (collectPowerUps _ _ _ _) as [g1 ids] eqn:E.
  apply collectPowerUps_shape in E. rewrite E.
  destruct ids; adv_same.
Qed.

Lemma QueueInv_runFrame keys dragging g :
  QueueInv g -> QueueInv (runFrame keys dragging g).
Proof.
  intros [Hs Hc Hr Hq]. unfold runFrame. rewrite Hq.
  destruct (GameState_eqb (gameState g) playing) eqn:Ep.
  - apply GameState_eqb_eq in Ep. specialize (Hr Ep).
    assert (Hp : gameStateRef g = playing) by congruence.
    cbn [runLoops fullQueue fold_left runLoop].
    set (g0 := set_rafQueue [] g).
    destruct (advances_updateRender g0) as (A1 & A2 & A3 & A4 & A5).
    set (g1 := updateRender g0) in *.
    assert (P1 : gameStateRef g1 = playing) by (rewrite A1; exact Hp).
    assert (K1 : gameContainerRef g1 <> None) by (rewrite A3; exact Hc).
    assert (R1 : playerRef g1 <> None) by (rewrite A4; exact Hr).
    destruct (advances_animatePlayer keys dragging g1 P1 K1 R1)
      as (B1 & B2 & B3 & B4 & B5).
    set (g2 := animatePlayer keys dragging g1) in *.
    assert (P2 : gameStateRef g2 = playing) by congruence.
    destruct (advances_animateBullets g2 P2) as (C1 & C2 & C3 & C4 & C5).
    set (g3 := animateBullets g2) in *.
    assert (P3 : gameStateRef g3 = playing) by congruence.
    assert (K3 : gameContainerRef g3 <> None) by congruence.
    destruct (advances_animateObjects g3 P3 K3) as (D1 & D2 & D3 & D4 & D5).
    set (g4 := animateObjects g3) in *.
    assert (P4 : gameStateRef g4 = playing) by congruence.
    destruct (advances_checkCollisions g4 P4) as (E1 & E2 & E3 & E4 & E5).
    set (g5 := checkCollisions g4) in *.
    assert (P5 : gameStateRef g5 = playing) by congruence.
    assert (K5 : gameContainerRef g5 <> None) by congruence.
    assert (R5 : playerRef g5 <> None) by congruence.
    assert (Q5 : rafQueue g5
                 = [LRender; LPlayer; LBullets; LObjects; LCollisions])
      by (rewrite E5, D5, C5, B5, A5; reflexivity).
    destruct (checkPlayerCollisions_queue g5 P5 R5)
      as [(F1 & F2 & F3 & F4)|(F1 & F2 & F3 & F4 & F5)].
    + constructor; try congruence.
      rewrite F4, F2, Q5. reflexivity.
    + assert (S5 : gameState (checkPlayerCollisions g5) = playing)
        by (rewrite F2, E2, D2, C2, B2, A2; exact Ep).
      constructor; try congruence.
      rewrite F5, Q5, S5. reflexivity.
  - cbn [runLoops fold_left runLoop].
    destruct (advances_updateRender (set_rafQueue [] g))
      as (A1 & A2 & A3 & A4 & A5).
    constructor.
    + rewrite A1, A2. exact Hs.
    + rewrite A3. exact Hc.
    + rewrite A2, A4. exact Hr.
    + rewrite A5, A2. change (gameState (set_rafQueue [] g))
        with (gameState g). rewrite Ep. reflexivity.
Qed.

Ltac qi_same :=
  let H := fresh in
  solve [intros H; destruct H; constructor; cbn in *; auto].

Lemma QueueInv_commitEffects g : QueueInv g -> QueueInv (commitEffects g).
Proof.
  intros [Hs Hc Hr Hq]. unfold commitEffects, cancelAnimationFrames.
  destruct (gameState g) eqn:Eg; simpl in Hq; simpl; rewrite ?Eg; simpl;
    constructor; simpl; do 2 (rewrite ?Eg, ?Hq; simpl); auto; congruence.
Qed.

Lemma QueueInv_step g g' : step g g' -> QueueInv g -> QueueInv g'.
Proof.
  intros S H; destruct S.
  - destruct H as [Hs Hc Hr Hq].
    unfold startGame, commitEffects, cancelAnimationFrames.
    destruct (gameContainerRef g) as [[w h]|] eqn:Ec; [|congruence].
    assert (F : filter isRenderLoop (rafQueue g) = [LRender])
      by (rewrite Hq; destruct (GameState_eqb _ _); reflexivity).
    constructor; cbn; rewrite ?F, ?Ec; auto; discriminate.
  - apply QueueInv_commitEffects, H.
  - rewrite fireBullet_shape. revert H. qi_same.
  - revert H. unfold spawnBlock. repeat break_match; try qi_same.
    rewrite spawnLoop_shape. qi_same.
  - revert H. unfold gameTimerTick, spawnPowerUp. repeat break_match; qi_same.
  - revert H. unfold powerUpTimerTick. repeat break_match; qi_same.
  - apply QueueInv_runFrame, H.
  - revert H. qi_same.
  - revert H. unfold handleTouchStart. repeat break_match; qi_same.
  - revert H. unfold handleTouchMove. repeat break_match; qi_same.
  - revert H. unfold handleTouchEnd. repeat break_match; qi_same.
  - destruct H; constructor; cbn; auto; discriminate.
  - destruct H; constructor; cbn; auto; discriminate.
Qed.

Lemma reachable_QueueInv g : reachable g -> QueueInv g.
Proof.
  induction 1; eauto using QueueInv_step.
  constructor; cbn; auto; discriminate.
Qed.

(** C8. In every playing state the component can reach, the next frame
    runs [updateRender], then the motion callbacks [animatePlayer],
    [animateBullets] and [animateObjects], then [checkCollisions], whose
    result (with its removals done) is what [checkPlayerCollisions], the
    last to run, starts from. *)
Theorem C8_tick_ordering (keys : Keys.t) (dragging : bool) (g : Game) :
  reachable g -> gameState g = playing ->
  rafQueue g = fullQueue /\
  runFrame keys dragging g =
    checkPlayerCollisions
      (checkCollisions
         (animateObjects
            (animateBullets
               (animatePlayer keys dragging
                  (updateRender (set_rafQueue [] g)))))).
Proof.
  intros Hg Hp. destruct (reachable_QueueInv g Hg) as [_ _ _ Hq].
  rewrite Hp in Hq. cbn [GameState_eqb] in Hq. split; [exact Hq|].
  unfold runFrame. rewrite Hq. reflexivity.
Qed.

Lemma C8_tick_ordering_witness :
  rafQueue (newSession 400 800) = fullQueue /\
  runFrame noKeys false (newSession 400 800) =
    checkPlayerCollisions
      (checkCollisions
         (animateObjects
            (animateBullets
               (animatePlayer noKeys false
                  (updateRender (set_rafQueue [] (newSession 400 800))))))).
Proof.
  exact (C8_tick_ordering noKeys false (newSession 400 800)
           (reachable_newSession 400 800) eq_refl).
Defined.

(** ** Claims on the pool *)

Lemma createBullet_reuse x y angle g :
  bulletPoolRef g <> [] ->
  let r := fst (createBullet x y angle g) in
  let g' := snd (createBullet x y angle g) in
  bulletPoolRef g = bulletPoolRef g' ++ [r] /\
  bulletHeap g' r = Bullet.mk (Bullet.id (bulletHeap g r)) x y angle /\
  (forall r', r' <> r -> bulletHeap g' r' = bulletHeap g r') /\
  bulletIdRef g' = bulletIdRef g /\ heapNext g' = heapNext g.
Proof.
  intros Hne. unfold createBullet.
  destruct (pop (bulletPoolRef g)) as [[rest z]|] eqn:Ep.
  - apply pop_Some in Ep. cbn. repeat split; auto.
    + unfold heapSet. rewrite Nat.eqb_refl. reflexivity.
    + intros r' Hr'. unfold heapSet.
      destruct (Nat.eqb_spec r' z); [contradiction|reflexivity].
  - apply pop_None in Ep. contradiction.
Qed.

Lemma createBullet_fresh x y angle g :
  bulletPoolRef g = [] ->
  let r := fst (createBullet x y angle g) in
  let g' := snd (createBullet x y angle g) in
  r = heapNext g /\
  bulletHeap g' r = Bullet.mk (bulletIdRef g) x y angle /\
  (forall r', r' <> r -> bulletHeap g' r' = bulletHeap g r') /\
  bulletIdRef g' = (bulletIdRef g + 1)%Z /\ heapNext g' = S (heapNext g).
Proof.
  intros He. unfold createBullet. rewrite He. cbn. repeat split.
  - unfold heapSet. rewrite Nat.eqb_refl. reflexivity.
  - intros r' Hr'. unfold heapSet.
    destruct (Nat.eqb_spec r' (heapNext g)); [contradiction|reflexivity].
Qed.

Lemma acquireAll_reuse args : forall g,
  (length args <= length (bulletPoolRef g))%nat ->
  bulletIdRef (acquireAll args g) = bulletIdRef g /\
  heapNext (acquireAll args g) = heapNext g.
Proof.
  induction args as [|[[x y] a] args IH]; intros g Hlen; [split; reflexivity|].
  simpl in Hlen. unfold acquireAll. cbn [fold_left].
  fold (acquireAll args (snd (createBullet x y a g))).
  assert (Hne : bulletPoolRef g <> [])
    by (destruct (bulletPoolRef g); [simpl in Hlen; lia | discriminate]).
  destruct (createBullet_reuse x y a g Hne) as (P1 & _ & _ & P4 & P5).
  cbv zeta in *.
  assert (L : (length args
               <= length (bulletPoolRef (snd (createBullet x y a g))))%nat).
  { rewrite P1, length_app in Hlen. simpl in Hlen. lia. }
  destruct (IH _ L) as [I1 I2]. rewrite I1, I2. auto.
Qed.

(** C4. In every state the component goes through, the pool holds at most
    100 bullets.
    [createBullet] on a non-empty pool takes the pool's last object, sets its
    [x], [y] and [angle], keeps its [id] and mints nothing; on an empty pool
    it allocates a new object whose [id] is the counter's value, which no
    live or pooled bullet carries, and advances the counter.  The release
    appends the first [100 - pool.length] of the released bullets and drops
    the rest.  After releasing [N <= 100] bullets, [N] acquisitions mint no
    id and allocate no object. *)
Theorem C4_projectile_pool (g : Game) :
  visited g ->
  (length (bulletPoolRef g) <= 100)%nat /\
  (forall x y angle,
     let r := fst (createBullet x y angle g) in
     let g' := snd (createBullet x y angle g) in
     (bulletPoolRef g <> [] ->
      bulletPoolRef g = bulletPoolRef g' ++ [r] /\
      bulletHeap g' r = Bullet.mk (Bullet.id (bulletHeap g r)) x y angle /\
      bulletIdRef g' = bulletIdRef g /\ heapNext g' = heapNext g) /\
     (bulletPoolRef g = [] ->
      r = heapNext g /\
      bulletHeap g' r = Bullet.mk (bulletIdRef g) x y angle /\
      bulletIdRef g' = (bulletIdRef g + 1)%Z /\
      forall r', In r' (bulletsRef g ++ bulletPoolRef g) ->
                 r' <> r /\
                 Bullet.id (bulletHeap g' r') <> Bullet.id (bulletHeap g' r))) /\
  (forall bs,
     let g' := releaseBullets bs g in
     bulletPoolRef g' =
       bulletPoolRef g ++ firstn (100 - length (bulletPoolRef g)) bs /\
     (length (bulletPoolRef g') <= 100)%nat /\
     ((length bs <= 100)%nat ->
      forall args, length args = length bs ->
        bulletIdRef (acquireAll args g') = bulletIdRef g /\
        heapNext (acquireAll args g') = heapNext g)).
Proof.
  intros Hg. destruct (visited_BulletInv g Hg) as [Ht Hcap].
  simpl in Ht. destruct Ht as (Hnd & Hinj & Hb).
  split; [exact Hcap|]. split.
  - intros x y angle. cbv zeta. split.
    + intros Hne.
      destruct (createBullet_reuse x y angle g Hne) as (P1 & P2 & _ & P4 & P5).
      auto.
    + intros He.
      destruct (createBullet_fresh x y angle g He) as (P1 & P2 & P3 & P4 & P5).
      cbv zeta in *. repeat split; auto.
      * intros ->. apply Hb in H. rewrite P1 in H. lia.
      * assert (Hr : r' <> fst (createBullet x y angle g))
          by (intros ->; apply Hb in H; rewrite P1 in H; lia).
        rewrite (P3 r' Hr), P2. simpl. apply Hb in H. lia.
  - intros bs. cbv zeta.
    assert (Hpool : bulletPoolRef (releaseBullets bs g) =
                    bulletPoolRef g ++ firstn (100 - length (bulletPoolRef g)) bs).
    { rewrite releaseBullets_pool. unfold MAX_BULLETS. f_equal. f_equal. lia. }
    assert (Hlen : length (bulletPoolRef (releaseBullets bs g))
                   = (length (bulletPoolRef g)
                      + Nat.min (100 - length (bulletPoolRef g)) (length bs))%nat)
      by (rewrite Hpool, length_app, length_firstn; reflexivity).
    repeat split.
    + exact Hpool.
    + lia.
    + destruct (acquireAll_reuse args (releaseBullets bs g)) as [A1 _];
        [lia|]. rewrite A1, releaseBullets_shape. reflexivity.
    + destruct (acquireAll_reuse args (releaseBullets bs g)) as [_ A2];
        [lia|]. rewrite A2, releaseBullets_shape. reflexivity.
Qed.

(** C9. In every state the component goes through, between events and
    between the callbacks of a frame, the live bullets carry pairwise distinct
    ids and no live bullet is in the pool; hence the filter on ids that
    follows the collision loops drops a live bullet exactly when the loops
    marked it, and the live array after [checkCollisions] is the live array
    without the bullets that overlap a block. *)
Theorem C9_live_ids_distinct (g : Game) :
  visited g ->
  NoDup (map (fun r => Bullet.id (bulletHeap g r)) (bulletsRef g)) /\
  (forall r, In r (bulletsRef g) -> ~ In r (bulletPoolRef g)) /\
  (forall g1 bulletsToRecycle hitDetected,
     collideBullets (bulletsRef g) g [] false
       = (g1, bulletsToRecycle, hitDetected) ->
     forall r, In r (bulletsRef g) ->
       (notRecycled (bulletHeap g1) bulletsToRecycle r = false
        <-> In r bulletsToRecycle)) /\
  (gameStateRef g = playing ->
   bulletsRef (checkCollisions g) =
   filter (fun r => negb (hitsAny (bulletHeap g) (blocksRef g) r))
          (bulletsRef g)).
Proof.
  intros Hg. destruct (visited_BulletInv g Hg) as [Ht Hcap].
  simpl in Ht. destruct Ht as (Hnd & Hinj & Hb).
  apply NoDup_app_iff in Hnd. destruct Hnd as (N1 & N2 & N3).
  assert (Hlive : forall r r', In r (bulletsRef g) -> In r' (bulletsRef g) ->
            Bullet.id (bulletHeap g r) = Bullet.id (bulletHeap g r') -> r = r')
    by (intros r r' Hr Hr'; apply Hinj; apply in_or_app; auto).
  repeat split.
  - apply NoDup_map_NoDup_ForallPairs; [|exact N1].
    intros r r' Hr Hr'. apply Hlive; assumption.
  - exact N3.
  - intros Hnr.
    pose proof (collideBullets_shape _ _ _ _ _ _ _ H) as Sh.
    apply collideBullets_spec in H. cbv zeta in H. destruct H as (E1 & _).
    simpl in E1. subst bulletsToRecycle.
    assert (Hh : bulletHeap g1 = bulletHeap g) by (rewrite Sh; reflexivity).
    rewrite Hh in Hnr. unfold notRecycled in Hnr.
    apply negb_false_iff, existsb_exists in Hnr.
    destruct Hnr as [r' [Hin Heq]]. apply Z.eqb_eq in Heq.
    pose proof Hin as Hin'. apply filter_In in Hin'. destruct Hin' as [Hl _].
    rewrite <- (Hlive r' r Hl H0 Heq). exact Hin.
  - intros Hin.
    pose proof (collideBullets_shape _ _ _ _ _ _ _ H) as Sh.
    assert (Hh : bulletHeap g1 = bulletHeap g) by (rewrite Sh; reflexivity).
    rewrite Hh. unfold notRecycled. apply negb_false_iff, existsb_exists.
    exists r. split; [exact Hin | apply Z.eqb_refl].
  - intros Hp. destruct (checkCollisions_spec g Hp) as (_ & _ & _ & S4 & _).
    rewrite S4. apply notRecycled_marked. exact Hlive.
Qed.

(** ** Claims on the motion of the bullets *)

Lemma animateBullets_spec g :
  gameStateRef g = playing -> NoDup (bulletsRef g) ->
  let h := bulletHeap g in
  let g' := animateBullets g in
  (forall r, bulletHeap g' r =
             if existsb (Nat.eqb r) (bulletsRef g)
             then moveBullet (h r) else h r) /\
  bulletsRef g' = filter (staysOnScreen h) (bulletsRef g) /\
  bulletPoolRef g' =
    bulletPoolRef
      (releaseBullets (filter (fun r => negb (staysOnScreen h r)) (bulletsRef g))
                      g).
Proof.
  intros Hp Hnd. cbv zeta. unfold animateBullets. rewrite Hp.
  cbn [GameState_eqb].
  destruct (moveBullets _ _ _ _) as [[h' kept] rec] eqn:E.
  apply moveBullets_spec in E; [|assumption].
  destruct E as (E1 & E2 & E3). simpl in E1, E2. subst kept rec.
  destruct (filter (fun r => negb (staysOnScreen (bulletHeap g) r))
                   (bulletsRef g)) as [|a l] eqn:Ef.
  - cbn. repeat split; auto.
    rewrite releaseBullets_pool, firstn_nil, app_nil_r. reflexivity.
  - rewrite releaseBullets_shape. cbn. repeat split; auto.
    rewrite !releaseBullets_pool. reflexivity.
Qed.

Lemma existsb_eqb_In r bs : In r bs -> existsb (Nat.eqb r) bs = true.
Proof.
  intros H. apply existsb_exists. exists r. split; [exact H|].
  apply Nat.eqb_refl.
Qed.

(** C5, amended. On every motion tick each live bullet moves by
    [(10*sin(angle), -10*cos(angle))], the angle taken in degrees; it stays
    in the live array exactly when its new [y] is above [-20] strictly
    ([-20 < y]), and otherwise, that is when [y <= -20], it leaves the live
    array and is handed to the pool's release. *)
Theorem C5_bullet_motion (g : Game) :
  visited g -> gameStateRef g = playing ->
  let g' := animateBullets g in
  let recycled :=
    filter (fun r => negb (Rltb (-20) (Bullet.y (bulletHeap g' r))))
           (bulletsRef g) in
  (forall r, In r (bulletsRef g) ->
     let b := bulletHeap g r in
     let b' := bulletHeap g' r in
     Bullet.x b' = Bullet.x b + 10 * sin (Bullet.angle b * PI / 180) /\
     Bullet.y b' = Bullet.y b - 10 * cos (Bullet.angle b * PI / 180) /\
     Bullet.id b' = Bullet.id b /\ Bullet.angle b' = Bullet.angle b /\
     (In r (bulletsRef g') <-> -20 < Bullet.y b') /\
     (In r recycled <-> Bullet.y b' <= -20)) /\
  (forall r, In r (bulletsRef g') -> In r (bulletsRef g)) /\
  bulletPoolRef g' = bulletPoolRef (releaseBullets recycled g).
Proof.
  intros Hv Hp. destruct (visited_BulletInv g Hv) as [Ht _].
  simpl in Ht. destruct Ht as (Hnd & _ & _).
  apply NoDup_app_remove_r in Hnd.
  destruct (animateBullets_spec g Hp Hnd) as (S1 & S2 & S3). cbv zeta in *.
  assert (Hmv : forall r, In r (bulletsRef g) ->
            bulletHeap (animateBullets g) r = moveBullet (bulletHeap g r)).
  { intros r Hr. rewrite S1, (existsb_eqb_In r _ Hr). reflexivity. }
  assert (Hrec :
    filter (fun r => negb (Rltb (-20) (Bullet.y (bulletHeap (animateBullets g) r))))
           (bulletsRef g)
    = filter (fun r => negb (staysOnScreen (bulletHeap g) r)) (bulletsRef g)).
  { apply filter_ext_in. intros r Hr. unfold staysOnScreen.
    rewrite (Hmv r Hr). reflexivity. }
  repeat split.
  - rewrite (Hmv r H). simpl. lra.
  - rewrite (Hmv r H). simpl. lra.
  - rewrite (Hmv r H). reflexivity.
  - rewrite (Hmv r H). reflexivity.
  - intros Hin. rewrite S2 in Hin. apply filter_In in Hin.
    destruct Hin as [_ Hs]. unfold staysOnScreen in Hs.
    rewrite (Hmv r H). apply Rltb_spec. exact Hs.
  - intros Hlt. rewrite S2. apply filter_In. split; [exact H|].
    unfold staysOnScreen. rewrite <- (Hmv r H). apply Rltb_spec. exact Hlt.
  - intros Hin. apply filter_In in Hin. destruct Hin as [_ Hs].
    apply negb_true_iff in Hs.
    destruct (Rle_or_lt (Bullet.y (bulletHeap (animateBullets g) r)) (-20))
      as [Hle|Hlt]; [exact Hle|].
    apply Rltb_spec in Hlt. congruence.
  - intros Hle. apply filter_In. split; [exact H|].
    apply negb_true_iff. apply Rltb_false. exact Hle.
  - intros r Hin. rewrite S2 in Hin. apply filter_In in Hin. tauto.
  - rewrite Hrec. exact S3.
Qed.

(** ** Claims on the projectile-obstacle pass *)

Lemma scanBlocks_first bullet : forall blocks j block,
  firstOverlap bullet blocks = Some j ->
  nth_error blocks j = Some block ->
  exists blocks',
    scanBlocks bullet blocks = Some (blocks', Block.isBreakable block) /\
    nth_error blocks' j = Some (hitBlock block) /\
    (forall i, i <> j -> nth_error blocks' i = nth_error blocks i).
Proof.
  intros blocks j block F N.
  destruct (scanBlocks bullet blocks) as [[blocks' brk]|] eqn:E.
  - apply scanBlocks_Some in E.
    destruct E as (j' & block' & F' & N' & B & _ & P).
    rewrite F in F'. inversion F'; subst j'.
    rewrite N in N'. inversion N'; subst block'.
    exists blocks'. repeat split.
    + rewrite B. reflexivity.
    + rewrite P, Nat.eqb_refl. reflexivity.
    + intros i Hi. rewrite P. destruct (Nat.eqb_spec i j); [contradiction|].
      reflexivity.
  - apply scanBlocks_None in E. congruence.
Qed.

(** C3. One bullet against the block array: when its first overlapping
    block is at [j], only that block changes; it is marked [isHit], and its
    [hp] goes down by exactly 1 exactly when it is breakable.  The whole
    pass in a playing state: the live array loses exactly the bullets that
    overlap a block; these are appended to the pool in their order, as many
    as fit under the capacity 100, so all of them when there is room;
    [scoreRef] grows by the number of bullets whose first overlapping block
    is breakable; the array of blocks keeps its length and, block by block,
    the [id], position and [isBreakable], each block is hit once per bullet
    that has it as first overlapping block, and when a bullet hit, the
    breakable blocks whose [hp] is not positive are removed. *)
Theorem C3_projectile_obstacle_pass (g : Game) :
  visited g -> gameStateRef g = playing ->
  let h := bulletHeap g in
  let bl := blocksRef g in
  let bs := bulletsRef g in
  let marked := filter (hitsAny h bl) bs in
  let g' := checkCollisions g in
  (forall bullet blocks j block,
     firstOverlap bullet blocks = Some j ->
     nth_error blocks j = Some block ->
     exists blocks',
       scanBlocks bullet blocks = Some (blocks', Block.isBreakable block) /\
       nth_error blocks' j = Some (hitBlock block) /\
       (forall i, i <> j -> nth_error blocks' i = nth_error blocks i) /\
       Block.isHit (hitBlock block) = true /\
       Block.hp (hitBlock block) =
         (if Block.isBreakable block then Block.hp block - 1
          else Block.hp block)%Z) /\
  (forall r, In r bs ->
     (hitsAny h bl r = true -> ~ In r (bulletsRef g') /\ In r marked) /\
     (hitsAny h bl r = false -> In r (bulletsRef g'))) /\
  (forall r, In r (bulletsRef g') -> In r bs) /\
  bulletPoolRef g' =
    bulletPoolRef g ++ firstn (100 - length (bulletPoolRef g)) marked /\
  ((length (bulletPoolRef g) + length marked <= 100)%nat ->
   forall r, In r marked -> In r (bulletPoolRef g')) /\
  scoreRef g' =
    (scoreRef g + Z.of_nat (length (filter (firstHitBreakable h bl) bs)))%Z /\
  exists scanned,
    length scanned = length bl /\
    map blockShape scanned = map blockShape bl /\
    (forall j block,
       nth_error bl j = Some block ->
       nth_error scanned j = Some (blockAfter (hitsOn h bl bs j) block)) /\
    blocksRef g' = (if existsb (hitsAny h bl) bs
                    then filter blockSurvives scanned else scanned) /\
    (existsb (hitsAny h bl) bs = true ->
     forall block, In block (blocksRef g') ->
       Block.isBreakable block = true -> (0 < Block.hp block)%Z).
Proof.
  intros Hv Hp. cbv zeta.
  destruct (visited_BulletInv g Hv) as [Ht _].
  simpl in Ht. destruct Ht as (Hnd & Hinj & _).
  assert (Hlive : forall r r', In r (bulletsRef g) -> In r' (bulletsRef g) ->
            Bullet.id (bulletHeap g r) = Bullet.id (bulletHeap g r') -> r = r')
    by (intros r r' Hr Hr'; apply Hinj; apply in_or_app; auto).
  destruct (checkCollisions_spec g Hp)
    as (_ & _ & _ & S4 & S5 & S6 & scanned & S7 & S8 & S9).
  rewrite (notRecycled_marked _ _ _ Hlive) in S4.
  replace (Z.to_nat (MAX_BULLETS - Z.of_nat (length (bulletPoolRef g))))
    with (100 - length (bulletPoolRef g))%nat in S5
    by (unfold MAX_BULLETS; lia).
  split; [|split; [|split; [|split; [|split; [|split]]]]].
  - intros bullet blocks j block F N.
    destruct (scanBlocks_first bullet blocks j block F N)
      as (blocks' & E1 & E2 & E3).
    exists blocks'. repeat split; auto.
  - intros r Hr. split.
    + intros Hh. split.
      * rewrite S4. intros C. apply filter_In in C. rewrite Hh in C.
        destruct C; discriminate.
      * apply filter_In; auto.
    + intros Hh. rewrite S4. apply filter_In. rewrite Hh. auto.
  - intros r Hr. rewrite S4 in Hr. apply filter_In in Hr. tauto.
  - exact S5.
  - intros Hroom r Hr. rewrite S5. apply in_or_app. right.
    rewrite firstn_all2 by lia. exact Hr.
  - exact S6.
  - exists scanned.
    split; [rewrite <- (length_map blockShape scanned), S7;
            apply length_map|].
    split; [exact S7|]. split; [exact S8|]. split; [exact S9|].
    intros Hany block Hin Hb. rewrite S9, Hany in Hin.
    apply filter_In in Hin. destruct Hin as [_ Hs].
    unfold blockSurvives in Hs. rewrite Hb in Hs. simpl in Hs.
    apply Z.ltb_lt. exact Hs.
Qed.

(** C10, amended. When [k] bullets have the same breakable block as their
    first overlapping block in one pass, that block's [hp] at the end of
    the loops is its [hp] minus [k] and the score has grown by [k] plus what
    the bullets resolved against other breakable blocks earned; the block
    stays in the array during the loops and, when its [hp] is then not
    positive, it is removed by the filter that ends the pass. *)
Theorem C10_multiple_hits (g : Game) (j : nat) (block : Block.t) :
  gameStateRef g = playing ->
  nth_error (blocksRef g) j = Some block ->
  Block.isBreakable block = true ->
  let h := bulletHeap g in
  let bl := blocksRef g in
  let bs := bulletsRef g in
  let k := hitsOn h bl bs j in
  let g' := checkCollisions g in
  exists scann scanned,
    nth_error scanned j = Some scann /\
    Block.hp scann = (Block.hp block - Z.of_nat k)%Z /\
    Block.id scann = Block.id block /\
    scoreRef g' =
      (scoreRef g + Z.of_nat k +
       Z.of_nat (length (filter (fun r => firstHitBreakable h bl r &&
                                          negb (firstHitIs h bl j r)) bs)))%Z /\
    ((1 <= k)%nat ->
     blocksRef g' = filter blockSurvives scanned /\
     ((Block.hp block - Z.of_nat k <= 0)%Z -> blockSurvives scann = false)).
Proof.
  intros Hp N Hb. cbv zeta.
  destruct (checkCollisions_spec g Hp)
    as (_ & _ & _ & _ & _ & S6 & scanned & _ & S8 & S9).
  exists (blockAfter (hitsOn (bulletHeap g) (blocksRef g) (bulletsRef g) j)
                     block), scanned.
  split; [apply S8; exact N|].
  split; [unfold blockAfter; simpl; rewrite Hb; reflexivity|].
  split; [reflexivity|]. split.
  - rewrite S6. unfold hitsOn.
    assert (L : forall bs,
      length (filter (firstHitBreakable (bulletHeap g) (blocksRef g)) bs)
      = (length (filter (firstHitIs (bulletHeap g) (blocksRef g) j) bs)
         + length (filter (fun r =>
                     firstHitBreakable (bulletHeap g) (blocksRef g) r &&
                     negb (firstHitIs (bulletHeap g) (blocksRef g) j r)) bs))%nat).
    { induction bs as [|r bs IH]; [reflexivity|]. cbn [filter].
      assert (Hj : firstHitIs (bulletHeap g) (blocksRef g) j r = true ->
                   firstHitBreakable (bulletHeap g) (blocksRef g) r = true).
      { unfold firstHitIs, firstHitBreakable.
        destruct (firstOverlap (bulletHeap g r) (blocksRef g)) as [i|];
          [|discriminate].
        intros E. apply Nat.eqb_eq in E. subst i. rewrite N. exact Hb. }
      destruct (firstHitIs (bulletHeap g) (blocksRef g) j r) eqn:E1.
      - rewrite (Hj eq_refl). cbn [andb negb length]. rewrite IH. lia.
      - destruct (firstHitBreakable (bulletHeap g) (blocksRef g) r);
          cbn [andb negb length]; rewrite IH; lia. }
    rewrite L. lia.
  - intros Hk.
    assert (Hany : existsb (hitsAny (bulletHeap g) (blocksRef g)) (bulletsRef g)
                   = true).
    { unfold hitsOn in Hk.
      destruct (filter (firstHitIs (bulletHeap g) (blocksRef g) j)
                       (bulletsRef g)) as [|r l] eqn:Ef; [simpl in Hk; lia|].
      assert (Hin : In r (filter (firstHitIs (bulletHeap g) (blocksRef g) j)
                                 (bulletsRef g)))
        by (rewrite Ef; left; reflexivity).
      apply filter_In in Hin. destruct Hin as [Hin Hf].
      apply existsb_exists. exists r. split; [exact Hin|].
      rewrite hitsAny_firstOverlap. unfold firstHitIs in Hf.
      destruct (firstOverlap (bulletHeap g r) (blocksRef g)); [reflexivity|].
      discriminate. }
    rewrite S9, Hany. split; [reflexivity|].
    intros Hle. unfold blockSurvives, blockAfter. simpl. rewrite Hb. simpl.
    apply Z.ltb_ge. exact Hle.
Qed.

(** ** Claims on the power-up slots *)

(** C6. In every reachable state each slot is active exactly when it has
    seconds left, and this holds again after a start, an activation and a
    countdown tick.  [activatePowerUp] makes its slot active with the full
    duration (5 for slow motion, 10 otherwise) whatever it held before, and
    leaves the other slots alone.  A countdown tick takes one second off
    every slot, not below 0, and recomputes the flags.  So, after an
    activation, [n] ticks leave [duration - n] seconds, and the slot is
    active exactly while [n < duration]. *)
Theorem C6_power_up_slots (g : Game) (ty : PowerUpType.t) :
  reachable g -> gameState g = playing ->
  (forall ty', slot ty' (activePowerUps g) = true
               <-> (0 < slot ty' (powerUpTimeLeft g))%Z) /\
  SlotInv (commitEffects (startGame g)) /\
  SlotInv (activatePowerUp ty g) /\
  SlotInv (powerUpTimerTick g) /\
  (let ga := activatePowerUp ty g in
   slot ty (activePowerUps ga) = true /\
   slot ty (powerUpTimeLeft ga) = spec_duration ty /\
   forall ty', ty' <> ty ->
     slot ty' (activePowerUps ga) = slot ty' (activePowerUps g) /\
     slot ty' (powerUpTimeLeft ga) = slot ty' (powerUpTimeLeft g)) /\
  (forall ty',
     let gt := powerUpTimerTick g in
     slot ty' (powerUpTimeLeft gt)
       = Z.max 0 (slot ty' (powerUpTimeLeft g) - 1) /\
     slot ty' (activePowerUps gt) = (0 <? slot ty' (powerUpTimeLeft gt))%Z) /\
  (forall n,
     let gn := countdown n (activatePowerUp ty g) in
     slot ty (powerUpTimeLeft gn) = Z.max 0 (spec_duration ty - Z.of_nat n) /\
     slot ty (activePowerUps gn) = (Z.of_nat n <? spec_duration ty)%Z).
Proof.
  intros Hg Hp. pose proof (reachable_SlotInv g Hg) as Hs.
  destruct (activatePowerUp_slots ty g) as (A1 & A2 & A3). cbv zeta in *.
  repeat split.
  - intros H. rewrite Hs in H. apply Z.ltb_lt. exact H.
  - intros H. rewrite Hs. apply Z.ltb_lt. exact H.
  - apply SlotInv_commitEffects, SlotInv_startGame, Hs.
  - apply SlotInv_activatePowerUp, Hs.
  - apply SlotInv_powerUpTimerTick, Hs.
  - exact A1.
  - exact A2.
  - apply A3; assumption.
  - apply A3; assumption.
  - apply (powerUpTimerTick_slots g ty' Hp).
  - apply (powerUpTimerTick_slots g ty' Hp).
  - assert (Hd : (0 <= slot ty (powerUpTimeLeft (activatePowerUp ty g)))%Z)
      by (rewrite A2; destruct ty; simpl; lia).
    destruct (countdown_slots n (activatePowerUp ty g) ty Hp Hd)
      as (_ & C2 & _).
    rewrite C2, A2. reflexivity.
  - assert (Hd : (0 <= slot ty (powerUpTimeLeft (activatePowerUp ty g)))%Z)
      by (rewrite A2; destruct ty; simpl; lia).
    destruct (countdown_slots n (activatePowerUp ty g) ty Hp Hd)
      as (_ & _ & C3).
    rewrite C3, A1, A2. destruct n; [|reflexivity].
    destruct ty; reflexivity.
Qed.

Lemma C6_power_up_slots_witness :
  let g := newSession 400 800 in
  let ga := activatePowerUp PowerUpType.slowMotion g in
  slot PowerUpType.slowMotion (activePowerUps ga) = true /\
  slot PowerUpType.slowMotion (powerUpTimeLeft ga) = 5%Z /\
  slot PowerUpType.slowMotion (activePowerUps (countdown 4 ga)) = true /\
  slot PowerUpType.slowMotion (activePowerUps (countdown 5 ga)) = false.
Proof.
  cbv zeta.
  pose proof (C6_power_up_slots (newSession 400 800) PowerUpType.slowMotion
                (reachable_newSession 400 800) eq_refl)
    as (_ & _ & _ & _ & (A1 & A2 & _) & _ & C).
  split; [exact A1|]. split; [exact A2|]. split.
  - exact (proj2 (C 4%nat)).
  - exact (proj2 (C 5%nat)).
Defined.

(** ** Evaluating the component on concrete states *)

Lemma sin_deg_0 : sin (0 * PI / 180) = 0.
Proof. replace (0 * PI / 180) with 0 by lra. apply sin_0. Qed.

Lemma cos_deg_0 : cos (0 * PI / 180) = 1.
Proof. replace (0 * PI / 180) with 0 by lra. apply cos_0. Qed.

Lemma Math_floor_eq (r : R) (z : Z) :
  IZR z <= r < IZR z + 1 -> Math_floor r = z.
Proof.
  intros H. unfold Math_floor. symmetry. apply Int_part_spec. lra.
Qed.

Lemma runFrame_fullQueue keys dragging g :
  rafQueue g = fullQueue ->
  runFrame keys dragging g =
    checkPlayerCollisions
      (checkCollisions
         (animateObjects
            (animateBullets
               (animatePlayer keys dragging
                  (updateRender (set_rafQueue [] g)))))).
Proof. intros H. unfold runFrame. rewrite H. reflexivity. Qed.

Lemma runLoops_firstn2 keys dragging g g' :
  rafQueue g = fullQueue ->
  runLoops keys dragging (firstn 2 (rafQueue g)) g' =
    animatePlayer keys dragging (updateRender g').
Proof. intros H. rewrite H. reflexivity. Qed.

Lemma runLoops_firstn4 keys dragging g g' :
  rafQueue g = fullQueue ->
  runLoops keys dragging (firstn 4 (rafQueue g)) g' =
    animateObjects
      (animateBullets (animatePlayer keys dragging (updateRender g'))).
Proof. intros H. rewrite H. reflexivity. Qed.

Lemma isRandom_draws a b c :
  isRandom a -> isRandom b -> isRandom c -> forall k, isRandom (draws a b c k).
Proof. intros Ha Hb Hc [|[|k]]; simpl; assumption. Qed.

(** A state whose cells are all written out. *)
Ltac is_value g :=
  lazymatch g with
  | mkGame _ _ _ _ _ _ _ _ _ _ _ _ _ _ _ _ _ _ _ _ _ _ _ _ _ _ _ _ _ _ => idtac
  end.

Ltac rltb_in E :=
  repeat match type of E with
  | context [Rltb ?a ?b] =>
      first [ rewrite (Rltb_true a b) in E by lra
            | rewrite (Rltb_false a b) in E by lra ]
  end.

Ltac floor_in E :=
  repeat match type of E with
  | context [Math_floor ?r] =>
      first [ rewrite (Math_floor_eq r 0) in E by (split; lra)
            | rewrite (Math_floor_eq r 4) in E by (split; lra)
            | rewrite (Math_floor_eq r 1) in E by (split; lra)
            | rewrite (Math_floor_eq r 2) in E by (split; lra) ]
  end.

Ltac lazy_in E :=
  lazy -[Rltb IZR sin cos PI Math_floor Rmax Rmin Rminus Rdiv Rplus Rmult
         Ropp Rinv] in E.

(** One call on a written-out state is reduced to a written-out state: the
    comparisons of numbers are settled by [lra] as they are met, then the
    rest is computed. *)
Ltac stage t :=
  let s := fresh "s" in
  let E := fresh "E" in
  remember t as s eqn:E;
  repeat (progress (cbn in E;
                    unfold bulletOverlapsBlock, playerOverlapsBlock,
                      playerOverlapsPowerUp, moveBullet, hitBlock, newBlock,
                      draws in E;
                    cbn in E;
                    rewrite ?sin_deg_0, ?cos_deg_0 in E;
                    floor_in E; rltb_in E));
  lazy_in E;
  subst s.

Ltac eval_one :=
  match goal with
  | |- context [newSession ?w ?h] => stage (newSession w h)
  | |- context [spawnBlock ?r ?g] => is_value g; stage (spawnBlock r g)
  | |- context [fireBullet ?n ?g] => is_value g; stage (fireBullet n g)
  | |- context [runFrame ?k ?d ?g] =>
      is_value g; rewrite (runFrame_fullQueue k d g) by reflexivity
  | |- context [runLoops ?k ?d (firstn 2 (rafQueue ?g)) ?g'] =>
      is_value g; rewrite (runLoops_firstn2 k d g g') by reflexivity
  | |- context [runLoops ?k ?d (firstn 4 (rafQueue ?g)) ?g'] =>
      is_value g; rewrite (runLoops_firstn4 k d g g') by reflexivity
  | |- context [set_rafQueue ?q ?g] => is_value g; stage (set_rafQueue q g)
  | |- context [updateRender ?g] => is_value g; stage (updateRender g)
  | |- context [animatePlayer ?k ?d ?g] =>
      is_value g; stage (animatePlayer k d g)
  | |- context [animateBullets ?g] => is_value g; stage (animateBullets g)
  | |- context [animateObjects ?g] => is_value g; stage (animateObjects g)
  | |- context [checkCollisions ?g] => is_value g; stage (checkCollisions g)
  | |- context [checkPlayerCollisions ?g] =>
      is_value g; stage (checkPlayerCollisions g)
  | |- context [commitEffects ?g] => is_value g; stage (commitEffects g)
  end.

Ltac eval_game := repeat eval_one.

Ltac rltb_goal :=
  repeat match goal with
  | |- context [Rltb ?a ?b] =>
      first [ rewrite (Rltb_true a b) by lra
            | rewrite (Rltb_false a b) by lra ]
  end.

(** The same for a goal over written-out states. *)
Ltac decide_goal :=
  repeat (progress (cbn;
                    unfold bulletOverlapsBlock, hitsAny, hitsOn, firstHitIs,
                      firstHitBreakable, blockSurvives;
                    cbn; rltb_goal)).

(** ** The final score (claim C1) *)

Lemma reachable_c1_state : reachable c1_state.
Proof.
  unfold c1_state, c1_before_fire.
  eapply reachable_step; [|apply step_fire].
  do 3 (eapply reachable_step; [|apply step_frame]).
  eapply reachable_step; [apply reachable_newSession|].
  apply step_spawnBlock. apply isRandom_draws; unfold isRandom; lra.
Qed.

(** What [checkPlayerCollisions] does when the ship overlaps a block: the
    session is over at once, whatever the block, and [scoreRef] is kept. *)
Lemma checkPlayerCollisions_fatal g :
  gameStateRef g = playing -> playerRef g <> None ->
  existsb (playerOverlapsBlock (positionRef g)) (blocksRef g) = true ->
  let g' := checkPlayerCollisions g in
  gameState g' = gameOver /\ gameStateRef g' = gameOver /\
  scoreRef g' = scoreRef g /\ score g' = score g.
Proof.
  intros Hp Hr Ho. unfold checkPlayerCollisions. rewrite Hp, Ho.
  cbn [GameState_eqb]. destruct (playerRef g); [|congruence].
  cbn. auto.
Qed.

(** C1, on a reachable state.  In the next frame the bullet hits the block
    ([scoreRef] becomes 1) and the block reaches the ship: the session is
    over, and the final score recorded by the effect that follows is the
    published [score], still 0. *)
Theorem C1_final_score_lags :
  reachable c1_state /\
  gameState c1_state = playing /\ scoreRef c1_state = 0%Z /\
  let g' := commitEffects (runFrame noKeys false c1_state) in
  gameState g' = gameOver /\ scoreRef g' = 1%Z /\ finalScoreRef g' = 0%Z.
Proof.
  split; [exact reachable_c1_state|].
  cut (forall g0 g',
         g0 = c1_state ->
         g' = commitEffects (runFrame noKeys false g0) ->
         gameState g0 = playing /\ scoreRef g0 = 0%Z /\
         gameState g' = gameOver /\ scoreRef g' = 1%Z /\
         finalScoreRef g' = 0%Z).
  { intros H. exact (H _ _ eq_refl eq_refl). }
  intros g0 g'. unfold c1_state, c1_before_fire.
  eval_game. intros -> . eval_game. intros ->. repeat split.
Qed.

(** ** Concrete passes (claims C3, C9 and C10) *)

Lemma visited_c3_state : visited c3_state.
Proof.
  apply visited_frame. unfold c3_before.
  eapply reachable_step; [|apply step_fire].
  eapply reachable_step; [apply reachable_newSession|].
  apply step_spawnBlock. apply isRandom_draws; unfold isRandom; lra.
Qed.

Lemma c3_state_facts :
  gameStateRef c3_state = playing /\
  In 0%nat (bulletsRef c3_state) /\
  hitsAny (bulletHeap c3_state) (blocksRef c3_state) 0%nat = true.
Proof.
  cut (forall g, g = c3_state ->
         gameStateRef g = playing /\ In 0%nat (bulletsRef g) /\
         hitsAny (bulletHeap g) (blocksRef g) 0%nat = true).
  { intros H. exact (H _ eq_refl). }
  intros g. unfold c3_state, c3_before. eval_game. intros ->.
  split; [reflexivity|]. split; [left; reflexivity|].
  decide_goal. reflexivity.
Qed.

(** The cells of [c3_state] that the pass reads. *)
Lemma c3_state_cells :
  bulletsRef c3_state = [0%nat] /\ bulletPoolRef c3_state = [] /\
  scoreRef c3_state = 0%Z /\
  blocksRef c3_state = [Block.mk 0 180 (-47) 5 false true] /\
  firstHitBreakable (bulletHeap c3_state) (blocksRef c3_state) 0%nat = true /\
  hitsOn (bulletHeap c3_state) (blocksRef c3_state) (bulletsRef c3_state) 0
    = 1%nat.
Proof.
  cut (forall g, g = c3_state ->
         bulletsRef g = [0%nat] /\ bulletPoolRef g = [] /\
         scoreRef g = 0%Z /\
         blocksRef g = [Block.mk 0 180 (-47) 5 false true] /\
         firstHitBreakable (bulletHeap g) (blocksRef g) 0%nat = true /\
         hitsOn (bulletHeap g) (blocksRef g) (bulletsRef g) 0 = 1%nat).
  { intros H. exact (H _ eq_refl). }
  intros g. unfold c3_state, c3_before. eval_game. intros ->.
  split; [reflexivity|]. split; [reflexivity|]. split; [reflexivity|].
  split; [cbn; do 2 f_equal; lra|].
  split; decide_goal; reflexivity.
Qed.

Lemma C3_projectile_obstacle_pass_witness :
  visited c3_state /\ gameStateRef c3_state = playing /\
  bulletsRef c3_state = [0%nat] /\ bulletPoolRef c3_state = [] /\
  scoreRef c3_state = 0%Z /\
  blocksRef c3_state = [Block.mk 0 180 (-47) 5 false true] /\
  hitsAny (bulletHeap c3_state) (blocksRef c3_state) 0%nat = true /\
  ~ In 0%nat (bulletsRef (checkCollisions c3_state)) /\
  bulletPoolRef (checkCollisions c3_state) = [0%nat] /\
  scoreRef (checkCollisions c3_state) = 1%Z /\
  blocksRef (checkCollisions c3_state) = [Block.mk 0 180 (-47) 4 true true].
Proof.
  destruct c3_state_facts as (Hp & Hin & Hh).
  destruct c3_state_cells as (Hb & Hq & Hs & Hk & Hf & Hn).
  pose proof (C3_projectile_obstacle_pass c3_state visited_c3_state Hp)
    as (_ & H2 & _ & H4 & _ & H6 & scanned & L & _ & N & B & _).
  split; [exact visited_c3_state|]. split; [exact Hp|].
  split; [exact Hb|]. split; [exact Hq|]. split; [exact Hs|].
  split; [exact Hk|]. split; [exact Hh|].
  split; [exact (proj1 (proj1 (H2 0%nat Hin) Hh))|].
  rewrite Hb in H4, H6, B. cbn [filter existsb] in H4, H6, B.
  rewrite Hh in H4, B. rewrite Hf in H6. rewrite Hq in H4.
  split; [exact H4|]. split; [rewrite H6, Hs; reflexivity|].
  rewrite B. cbn [orb].
  assert (E : scanned = [Block.mk 0 180 (-47) 4 true true]).
  { pose proof (N 0%nat (Block.mk 0 180 (-47) 5 false true)) as N0.
    rewrite Hb in Hn. rewrite Hb, Hn in N0. rewrite Hk in N0, L.
    specialize (N0 eq_refl).
    destruct scanned as [|s [|s' l]]; try discriminate L.
    inversion N0. reflexivity. }
  rewrite E. reflexivity.
Defined.

Lemma c10_state_facts :
  gameStateRef c10_state = playing /\
  nth_error (blocksRef c10_state) 0 = Some c10_block /\
  scoreRef c10_state = 0%Z /\
  hitsOn (bulletHeap c10_state) (blocksRef c10_state) (bulletsRef c10_state)
         0 = 2%nat /\
  filter (fun r =>
            firstHitBreakable (bulletHeap c10_state) (blocksRef c10_state) r &&
            negb (firstHitIs (bulletHeap c10_state) (blocksRef c10_state) 0 r))
         (bulletsRef c10_state) = [].
Proof.
  cut (forall g, g = c10_state ->
         gameStateRef g = playing /\
         nth_error (blocksRef g) 0 = Some c10_block /\
         scoreRef g = 0%Z /\
         hitsOn (bulletHeap g) (blocksRef g) (bulletsRef g) 0 = 2%nat /\
         filter (fun r =>
                   firstHitBreakable (bulletHeap g) (blocksRef g) r &&
                   negb (firstHitIs (bulletHeap g) (blocksRef g) 0 r))
                (bulletsRef g) = []).
  { intros H. exact (H _ eq_refl). }
  intros g. unfold c10_state, c10_before. eval_game. intros ->.
  split; [reflexivity|]. split.
  { unfold c10_block. cbn. do 2 f_equal; lra. }
  split; [reflexivity|]. split.
  - decide_goal. reflexivity.
  - decide_goal. reflexivity.
Qed.

Lemma C10_multiple_hits_witness :
  gameStateRef c10_state = playing /\
  nth_error (blocksRef c10_state) 0 = Some c10_block /\
  Block.isBreakable c10_block = true /\ Block.hp c10_block = 1%Z /\
  exists scann scanned,
    nth_error scanned 0 = Some scann /\
    Block.hp scann = (-1)%Z /\
    scoreRef (checkCollisions c10_state) = 2%Z /\
    blocksRef (checkCollisions c10_state) = filter blockSurvives scanned /\
    blockSurvives scann = false.
Proof.
  destruct c10_state_facts as (Hp & Hn & Hs & Hk & Ho).
  destruct (C10_multiple_hits c10_state 0 c10_block Hp Hn eq_refl)
    as (scann & scanned & E1 & E2 & _ & E4 & E5).
  rewrite Hk in E2, E4, E5. rewrite Ho, Hs in E4.
  split; [exact Hp|]. split; [exact Hn|]. split; [reflexivity|].
  split; [reflexivity|].
  exists scann, scanned.
  split; [exact E1|]. split; [exact E2|]. split; [exact E4|].
  destruct (E5 (le_S 1 1 (le_n 1))) as [E6 E7].
  split; [exact E6|]. apply E7. discriminate.
Defined.

Lemma visited_c10x_state : visited c10x_state.
Proof.
  apply visited_frame. unfold c10x_before.
  do 2 (eapply reachable_step; [|apply step_fire]).
  eapply reachable_step;
    [|apply step_spawnBlock; apply isRandom_draws; unfold isRandom; lra].
  eapply reachable_step; [apply reachable_newSession|].
  apply step_spawnBlock. apply isRandom_draws; unfold isRandom; lra.
Qed.

(** C10, as stated, fails: both bullets overlap the breakable block [B],
    yet the pass takes nothing off [B] and leaves it in the array; both
    were resolved against [A], which comes first. *)
Lemma C10_counterexample :
  visited c10x_state /\ gameStateRef c10x_state = playing /\
  exists A B,
    blocksRef c10x_state = [A; B] /\
    Block.isBreakable B = true /\
    bulletsRef c10x_state = [0%nat; 1%nat] /\
    bulletOverlapsBlock (bulletHeap c10x_state 0%nat) B = true /\
    bulletOverlapsBlock (bulletHeap c10x_state 1%nat) B = true /\
    blocksRef (checkCollisions c10x_state) = [B].
Proof.
  split; [exact visited_c10x_state|].
  cut (forall g g', g = c10x_state -> g' = checkCollisions g ->
         gameStateRef g = playing /\
         exists A B,
           blocksRef g = [A; B] /\
           Block.isBreakable B = true /\
           bulletsRef g = [0%nat; 1%nat] /\
           bulletOverlapsBlock (bulletHeap g 0%nat) B = true /\
           bulletOverlapsBlock (bulletHeap g 1%nat) B = true /\
           blocksRef g' = [B]).
  { intros H. exact (H _ _ eq_refl eq_refl). }
  intros g g'. unfold c10x_state, c10x_before. eval_game. intros ->.
  eval_game. intros ->.
  split; [reflexivity|].
  eexists. eexists. split; [reflexivity|]. split; [reflexivity|].
  split; [reflexivity|]. split; [decide_goal; reflexivity|].
  split; [decide_goal; reflexivity|]. reflexivity.
Qed.

(** ** Concrete motion ticks (claims C4 and C5) *)

Lemma reachable_c5_before : reachable c5_before.
Proof.
  unfold c5_before.
  eapply reachable_step; [|apply step_frame].
  eapply reachable_step; [apply reachable_newSession|apply step_fire].
Qed.

Lemma visited_c5_state : visited c5_state.
Proof. apply visited_frame, reachable_c5_before. Qed.

Lemma c5_state_facts :
  gameStateRef c5_state = playing /\ bulletsRef c5_state = [0%nat] /\
  let g' := animateBullets c5_state in
  Bullet.y (bulletHeap g' 0%nat) = -20 /\
  bulletsRef g' = [] /\ bulletPoolRef g' = [0%nat].
Proof.
  cut (forall g g', g = c5_state -> g' = animateBullets g ->
         gameStateRef g = playing /\ bulletsRef g = [0%nat] /\
         Bullet.y (bulletHeap g' 0%nat) = -20 /\
         bulletsRef g' = [] /\ bulletPoolRef g' = [0%nat]).
  { intros H. exact (H _ _ eq_refl eq_refl). }
  intros g g'. unfold c5_state, c5_before. eval_game. intros ->.
  eval_game. intros ->.
  split; [reflexivity|]. split; [reflexivity|].
  split; [cbn; lra|]. split; reflexivity.
Qed.

(** C5, as stated, fails: the bullet's new [y] is -20, which is not below
    -20, yet it left the live array and went to the pool. *)
Lemma C5_counterexample :
  visited c5_state /\ gameStateRef c5_state = playing /\
  bulletsRef c5_state = [0%nat] /\
  let g' := animateBullets c5_state in
  ~ (Bullet.y (bulletHeap g' 0%nat) < -20) /\
  ~ In 0%nat (bulletsRef g') /\ bulletPoolRef g' = [0%nat].
Proof.
  destruct c5_state_facts as (Hp & Hb & Hy & Hl & Hq). cbv zeta in *.
  split; [exact visited_c5_state|]. split; [exact Hp|]. split; [exact Hb|].
  split; [rewrite Hy; lra|]. split; [rewrite Hl; intros []|exact Hq].
Qed.

Lemma C5_bullet_motion_witness :
  visited c5_state /\ gameStateRef c5_state = playing /\
  In 0%nat (bulletsRef c5_state) /\
  let g' := animateBullets c5_state in
  (In 0%nat (bulletsRef g') <-> -20 < Bullet.y (bulletHeap g' 0%nat)) /\
  Bullet.y (bulletHeap g' 0%nat) =
    Bullet.y (bulletHeap c5_state 0%nat)
    - 10 * cos (Bullet.angle (bulletHeap c5_state 0%nat) * PI / 180).
Proof.
  destruct c5_state_facts as (Hp & Hb & _).
  assert (Hin : In 0%nat (bulletsRef c5_state))
    by (rewrite Hb; left; reflexivity).
  pose proof (C5_bullet_motion c5_state visited_c5_state Hp) as (H1 & _).
  destruct (H1 0%nat Hin) as (_ & Hy & _ & _ & Hk & _).
  split; [exact visited_c5_state|]. split; [exact Hp|]. split; [exact Hin|].
  split; [exact Hk|exact Hy].
Defined.

Lemma last_of_singleton {A} (a r : A) (l : list A) :
  [a] = l ++ [r] -> r = a.
Proof.
  destruct l as [|b [|c l]]; simpl; intros H; inversion H; reflexivity.
Qed.

Lemma c4_state_facts :
  reachable c4_state /\ bulletPoolRef c4_state = [0%nat] /\
  bulletIdRef c4_state = 1%Z.
Proof.
  split.
  { unfold c4_state. eapply reachable_step;
      [apply reachable_c5_before|apply step_frame]. }
  cut (forall g, g = c4_state ->
         bulletPoolRef g = [0%nat] /\ bulletIdRef g = 1%Z).
  { intros H. exact (H _ eq_refl). }
  intros g. unfold c4_state, c5_before. eval_game. intros ->.
  split; reflexivity.
Qed.

Lemma C4_projectile_pool_witness :
  visited c4_state /\ bulletPoolRef c4_state = [0%nat] /\
  (length (bulletPoolRef c4_state) <= 100)%nat /\
  fst (createBullet 1 2 3 c4_state) = 0%nat /\
  bulletIdRef (snd (createBullet 1 2 3 c4_state)) = bulletIdRef c4_state /\
  bulletIdRef (acquireAll [(1, 2, 3)] (releaseBullets [7%nat] c4_state))
    = bulletIdRef c4_state.
Proof.
  destruct c4_state_facts as (Hr & Hq & _).
  pose proof (C4_projectile_pool c4_state (visited_reachable _ Hr))
    as (H1 & H2 & H3).
  assert (Hne : bulletPoolRef c4_state <> [])
    by (rewrite Hq; discriminate).
  pose proof (proj1 (H2 1 2 3) Hne) as (P1 & _ & P3 & _).
  pose proof (H3 [7%nat]) as (_ & _ & R3).
  split; [exact (visited_reachable _ Hr)|]. split; [exact Hq|].
  split; [exact H1|].
  split; [rewrite Hq in P1; exact (last_of_singleton _ _ _ P1)|].
  split; [exact P3|].
  exact (proj1 (R3 (le_n_S 0 99 (le_0_n 99)) [(1, 2, 3)] eq_refl)).
Defined.

(** ** A state with two live bullets and a pooled one (claim C9) *)

Ltac clamp_in E :=
  repeat match type of E with
  | context [Rmin ?a ?b] =>
      first [ rewrite (Rmin_left a b) in E by lra
            | rewrite (Rmin_right a b) in E by lra ]
  | context [Rmax ?a ?b] =>
      first [ rewrite (Rmax_left a b) in E by lra
            | rewrite (Rmax_right a b) in E by lra ]
  end.

(** A drag handler on a written-out state, with its clamps settled. *)
Ltac stage_drag t :=
  let s := fresh "s" in
  let E := fresh "E" in
  remember t as s eqn:E;
  cbn in E; clamp_in E; lazy_in E;
  subst s.

Ltac eval_drag :=
  repeat first
    [ eval_one
    | match goal with
      | |- context [handleTouchStart ?x ?y ?g] =>
          is_value g; stage_drag (handleTouchStart x y g)
      | |- context [handleTouchMove ?x ?y ?g] =>
          is_value g; stage_drag (handleTouchMove x y g)
      end ].

Lemma visited_c9_state : visited c9_state.
Proof.
  apply visited_frame. unfold c9_before.
  eapply reachable_step;
    [|apply step_spawnBlock; apply isRandom_draws; unfold isRandom; lra].
  eapply reachable_step; [|apply step_fire].
  eapply reachable_step; [|apply step_touchMove].
  eapply reachable_step; [|apply step_touchStart].
  eapply reachable_step; [|apply step_fire].
  eapply reachable_step; [|apply step_frame].
  eapply reachable_step; [apply reachable_newSession|apply step_fire].
Qed.

Lemma c9_state_facts :
  gameStateRef c9_state = playing /\
  bulletsRef c9_state = [1%nat; 2%nat] /\
  bulletPoolRef c9_state = [0%nat] /\
  hitsAny (bulletHeap c9_state) (blocksRef c9_state) 1%nat = false /\
  hitsAny (bulletHeap c9_state) (blocksRef c9_state) 2%nat = true.
Proof.
  cut (forall g, g = c9_state ->
         gameStateRef g = playing /\
         bulletsRef g = [1%nat; 2%nat] /\ bulletPoolRef g = [0%nat] /\
         hitsAny (bulletHeap g) (blocksRef g) 1%nat = false /\
         hitsAny (bulletHeap g) (blocksRef g) 2%nat = true).
  { intros H. exact (H _ eq_refl). }
  intros g. unfold c9_state, c9_before. eval_drag. intros ->.
  split; [reflexivity|]. split; [reflexivity|]. split; [reflexivity|].
  split; decide_goal; reflexivity.
Qed.

Lemma C9_live_ids_distinct_witness :
  visited c9_state /\ gameStateRef c9_state = playing /\
  bulletsRef c9_state = [1%nat; 2%nat] /\
  bulletPoolRef c9_state = [0%nat] /\
  Bullet.id (bulletHeap c9_state 1%nat)
    <> Bullet.id (bulletHeap c9_state 2%nat) /\
  ~ In 1%nat (bulletPoolRef c9_state) /\
  ~ In 2%nat (bulletPoolRef c9_state) /\
  (forall g1 bulletsToRecycle hitDetected,
     collideBullets (bulletsRef c9_state) c9_state [] false
       = (g1, bulletsToRecycle, hitDetected) ->
     (notRecycled (bulletHeap g1) bulletsToRecycle 1%nat = false
      <-> In 1%nat bulletsToRecycle) /\
     (notRecycled (bulletHeap g1) bulletsToRecycle 2%nat = false
      <-> In 2%nat bulletsToRecycle)) /\
  bulletsRef (checkCollisions c9_state) = [1%nat].
Proof.
  destruct c9_state_facts as (Hp & Hb & Hq & Hn & Hy).
  pose proof (C9_live_ids_distinct c9_state visited_c9_state)
    as (H1 & H2 & H3 & H4).
  assert (I1 : In 1%nat (bulletsRef c9_state))
    by (rewrite Hb; left; reflexivity).
  assert (I2 : In 2%nat (bulletsRef c9_state))
    by (rewrite Hb; right; left; reflexivity).
  split; [exact visited_c9_state|]. split; [exact Hp|].
  split; [exact Hb|]. split; [exact Hq|].
  split.
  { rewrite Hb in H1. cbn [map] in H1.
    apply NoDup_cons_iff in H1. destruct H1 as [Hnot _].
    intros E. apply Hnot. left. symmetry. exact E. }
  split; [exact (H2 1%nat I1)|]. split; [exact (H2 2%nat I2)|].
  split.
  { intros g1 rec hit E. split.
    - exact (H3 g1 rec hit E 1%nat I1).
    - exact (H3 g1 rec hit E 2%nat I2). }
  rewrite (H4 Hp), Hb. cbn [filter]. rewrite Hn, Hy. reflexivity.
Defined.

(** ** Blocks, power-ups, the published score and the angles in every state *)

Lemma Math_floor_range (r : R) (n : Z) :
  0 <= r -> r < IZR n -> (0 <= Math_floor r < n)%Z.
Proof.
  intros H0 Hn. unfold Math_floor.
  destruct (base_Int_part r) as [B1 B2]. split.
  - assert (H : (-1 < Int_part r)%Z); [|lia].
    apply lt_IZR. simpl. lra.
  - apply lt_IZR. lra.
Qed.

Lemma StronglySorted_map_filter {A} (k : A -> Z) (f : A -> bool) l :
  StronglySorted Z.lt (map k l) -> StronglySorted Z.lt (map k (filter f l)).
Proof.
  induction l as [|a l IH]; simpl; intros H; [constructor|].
  inversion H as [|? ? Hs Hf]; subst.
  destruct (f a); simpl; [|auto].
  constructor; [auto|].
  rewrite Forall_forall in *. intros i Hi. apply Hf.
  apply in_map_iff in Hi. destruct Hi as [b [<- Hb]].
  apply filter_In in Hb. apply in_map. tauto.
Qed.

Lemma StronglySorted_snoc (l : list Z) (n : Z) :
  StronglySorted Z.lt l -> Forall (fun i => (i < n)%Z) l ->
  StronglySorted Z.lt (l ++ [n]).
Proof.
  induction l as [|a l IH]; simpl; intros Hs Hf.
  - constructor; constructor.
  - inversion Hs as [|? ? Hs' Ha]; subst.
    inversion Hf as [|? ? Han Hf']; subst.
    constructor; [auto|].
    apply Forall_app. split; [assumption|]. constructor; [assumption|constructor].
Qed.

Lemma blockOk_mono n n' b : blockOk n b -> (n <= n')%Z -> blockOk n' b.
Proof. intros [H1 H2] Hn. split; [lia|assumption]. Qed.

Lemma blocksOk_nil : blocksOk 0 [].
Proof. repeat split; try lia; constructor. Qed.

Lemma powerUpsOk_nil : powerUpsOk 0 [].
Proof. repeat split; try lia; constructor. Qed.

(** A filter that follows a map which keeps [id], [hp] and [isBreakable]
    (the shape of [animateObjects] and of [clearIsHit]). *)
Lemma blocksOk_filter_map n (f : Block.t -> bool) (m : Block.t -> Block.t) bl :
  (forall b, Block.id (m b) = Block.id b /\ Block.hp (m b) = Block.hp b /\
             Block.isBreakable (m b) = Block.isBreakable b) ->
  blocksOk n bl -> blocksOk n (filter f (map m bl)).
Proof.
  intros Hm (H0 & Hf & Hs). split; [assumption|]. split.
  - rewrite Forall_forall in *. intros b Hb.
    apply filter_In in Hb. destruct Hb as [Hb _].
    apply in_map_iff in Hb. destruct Hb as [b0 [<- Hb0]].
    destruct (Hm b0) as (E1 & E2 & E3).
    destruct (Hf b0 Hb0) as [I1 I2]. unfold blockOk.
    rewrite E1, E2, E3. auto.
  - apply StronglySorted_map_filter. rewrite map_map.
    erewrite map_ext; [exact Hs|]. intros b. apply Hm.
Qed.

Lemma powerUpsOk_filter_map n (f : PowerUp.t -> bool)
    (m : PowerUp.t -> PowerUp.t) ps :
  (forall p, PowerUp.id (m p) = PowerUp.id p) ->
  powerUpsOk n ps -> powerUpsOk n (filter f (map m ps)).
Proof.
  intros Hm (H0 & Hf & Hs). split; [assumption|]. split.
  - rewrite Forall_forall in *. intros p Hp.
    apply filter_In in Hp. destruct Hp as [Hp _].
    apply in_map_iff in Hp. destruct Hp as [p0 [<- Hp0]].
    rewrite Hm. auto.
  - apply StronglySorted_map_filter. rewrite map_map.
    erewrite map_ext; [exact Hs|]. intros p. apply Hm.
Qed.

Lemma powerUpsOk_filter n (f : PowerUp.t -> bool) ps :
  powerUpsOk n ps -> powerUpsOk n (filter f ps).
Proof.
  intros H. rewrite <- (map_id ps).
  apply powerUpsOk_filter_map; [reflexivity|exact H].
Qed.

Lemma blocksOk_snoc n bl b :
  blocksOk n bl -> Block.id b = n ->
  (if Block.isBreakable b then (1 <= Block.hp b <= 10)%Z
   else Block.hp b = 999%Z) ->
  blocksOk (n + 1) (bl ++ [b]).
Proof.
  intros (H0 & Hf & Hs) Hid Hhp. split; [lia|]. split.
  - apply Forall_app. split.
    + eapply Forall_impl; [|exact Hf]. intros a Ha.
      apply (blockOk_mono n); [assumption|lia].
    + constructor; [|constructor]. split; [lia|assumption].
  - rewrite map_app. simpl. apply StronglySorted_snoc; [assumption|].
    rewrite Forall_forall in *. intros i Hi.
    apply in_map_iff in Hi. destruct Hi as [a [<- Ha]].
    destruct (Hf a Ha) as [I _]. lia.
Qed.

Lemma powerUpsOk_snoc n ps p :
  powerUpsOk n ps -> PowerUp.id p = n -> powerUpsOk (n + 1) (ps ++ [p]).
Proof.
  intros (H0 & Hf & Hs) Hid. split; [lia|]. split.
  - apply Forall_app. split.
    + eapply Forall_impl; [|exact Hf]. simpl. intros a Ha. lia.
    + constructor; [|constructor]. lia.
  - rewrite map_app. simpl. apply StronglySorted_snoc; [assumption|].
    rewrite Forall_forall in *. intros i Hi.
    apply in_map_iff in Hi. destruct Hi as [a [<- Ha]].
    specialize (Hf a Ha). simpl in Hf. lia.
Qed.

(** The block that [spawnBlock] makes. *)
Lemma newBlock_ok rand w i id :
  (forall k, isRandom (rand k)) ->
  let b := newBlock rand w i id in
  Block.id b = id /\ Block.isHit b = false /\
  Block.x b = rand (3 * i)%nat * (w - 40) /\ Block.y b = -50 - INR i * 60 /\
  (if Block.isBreakable b then (1 <= Block.hp b <= 10)%Z
   else Block.hp b = 999%Z).
Proof.
  intros Hr. unfold newBlock. cbv zeta.
  cbn [Block.id Block.isHit Block.x Block.y Block.hp Block.isBreakable].
  do 4 (split; [reflexivity|]).
  destruct (Rltb 0.1 (rand (3 * i + 2)%nat)); [|reflexivity].
  destruct (Hr (3 * i + 1)%nat) as [R0 R1].
  pose proof (Math_floor_range (rand (3 * i + 1)%nat * 10) 10) as M.
  lapply M; [clear M; intros M|lra]. lapply M; [lia|lra].
Qed.

Ltac wi_same :=
  let H := fresh in
  solve [intros H; destruct H; constructor; cbn in *; auto].

Lemma wi_updateRender g : WorldInv g -> WorldInv (updateRender g).
Proof.
  unfold updateRender. destruct (needsRenderRef g && _); [|wi_same].
  intros []. constructor; cbn; auto; try lia; congruence.
Qed.

Lemma wi_animatePlayer keys dragging g :
  WorldInv g -> WorldInv (animatePlayer keys dragging g).
Proof. unfold animatePlayer; repeat break_match; wi_same. Qed.

Lemma moveBullets_angles (P : R -> Prop) bs : forall h kept rec h' kept' rec',
  moveBullets bs h kept rec = (h', kept', rec') ->
  (forall r, P (Bullet.angle (h r))) -> forall r, P (Bullet.angle (h' r)).
Proof.
  induction bs as [|b bs IH]; intros h kept rec h' kept' rec' E Hh.
  - simpl in E. inversion E; subst. exact Hh.
  - cbn [moveBullets] in E. cbv zeta in E.
    assert (H1 : forall r,
              P (Bullet.angle (heapSet h b (moveBullet (h b)) r))).
    { intros r. unfold heapSet. destruct (Nat.eqb r b); [|apply Hh].
      apply Hh. }
    destruct (Rltb _ _); eapply IH; eauto.
Qed.

Lemma wi_animateBullets g : WorldInv g -> WorldInv (animateBullets g).
Proof.
  unfold animateBullets.
  destruct (GameState_eqb (gameStateRef g) playing); [|auto].
  destruct (moveBullets _ _ _ _) as [[h kept] rec] eqn:E.
  intros []. pose proof (moveBullets_angles _ _ _ _ _ _ _ _ E wi_angles0).
  unfold releaseBullets. repeat break_match; constructor; cbn; auto.
Qed.

Lemma wi_animateObjects g : WorldInv g -> WorldInv (animateObjects g).
Proof.
  unfold animateObjects.
  destruct (GameState_eqb (gameStateRef g) playing); [|auto].
  destruct (gameContainerRef g) as [[w h]|]; [|auto].
  intros []. constructor; cbn; auto.
  - apply blocksOk_filter_map; [|assumption]. intros b. cbn. auto.
  - apply powerUpsOk_filter_map; [|assumption]. intros p. reflexivity.
Qed.

Lemma Forall2_nth_error {A B} (R : A -> B -> Prop) l l' :
  length l = length l' ->
  (forall j a, nth_error l j = Some a ->
               exists b, nth_error l' j = Some b /\ R a b) ->
  Forall2 R l l'.
Proof.
  revert l'. induction l as [|a l IH]; intros [|b l'] Hl H;
    try discriminate; constructor.
  - destruct (H 0%nat a eq_refl) as [b' [E Hb]]. inversion E; subst. exact Hb.
  - apply IH; [simpl in Hl; lia|]. intros j a' Hj.
    exact (H (Datatypes.S j) a' Hj).
Qed.

Lemma Forall2_In_r {A B} (R : A -> B -> Prop) l l' b :
  Forall2 R l l' -> In b l' -> exists a, In a l /\ R a b.
Proof.
  induction 1 as [|a b' l l' Hab Hf IH]; simpl; intros Hb; [contradiction|].
  destruct Hb as [->|Hb].
  - exists a. auto.
  - destruct (IH Hb) as [a' [Ha' Hr]]. exists a'. auto.
Qed.

Lemma Forall2_In_l {A B} (R : A -> B -> Prop) l l' a :
  Forall2 R l l' -> In a l -> exists b, In b l' /\ R a b.
Proof.
  induction 1 as [|a' b l l' Hab Hf IH]; simpl; intros Ha; [contradiction|].
  destruct Ha as [->|Ha].
  - exists b. auto.
  - destruct (IH Ha) as [b' [Hb' Hr]]. exists b'. auto.
Qed.

Lemma map_id_blockShape (l l' : list Block.t) :
  map blockShape l = map blockShape l' -> map Block.id l = map Block.id l'.
Proof.
  intros H.
  assert (E : forall l0, map Block.id l0 =
                         map (fun t => fst (fst (fst t))) (map blockShape l0)).
  { intros l0. rewrite map_map. reflexivity. }
  rewrite (E l), (E l'), H. reflexivity.
Qed.

(** The blocks after a pass in a playing state: each block of the loops'
    result is a block of before with some hits taken, in the same order,
    and the removal runs exactly when some bullet hit. *)
Lemma checkCollisions_blocks g :
  gameStateRef g = playing ->
  exists scanned,
    Forall2 (fun b s => exists k, s = blockAfter k b) (blocksRef g) scanned /\
    map Block.id scanned = map Block.id (blocksRef g) /\
    blocksRef (checkCollisions g) =
      if existsb (hitsAny (bulletHeap g) (blocksRef g)) (bulletsRef g)
      then filter blockSurvives scanned else blocksRef g.
Proof.
  intros Hp.
  destruct (checkCollisions_spec g Hp)
    as (_ & _ & _ & _ & _ & _ & scanned & S1 & S2 & S3).
  assert (F : Forall2 (fun b s => exists k, s = blockAfter k b)
                      (blocksRef g) scanned).
  { apply Forall2_nth_error.
    - rewrite <- (length_map blockShape (blocksRef g)), <- S1.
      apply length_map.
    - intros j b Hj. eexists. split; [apply S2; exact Hj|]. eauto. }
  exists scanned. split; [exact F|]. split; [apply map_id_blockShape, S1|].
  rewrite S3.
  destruct (existsb _ _) eqn:Ex; [reflexivity|].
  destruct (no_hits _ _ _ Ex) as (_ & _ & N).
  apply nth_error_ext. intros j.
  destruct (nth_error (blocksRef g) j) as [b|] eqn:Hj.
  - rewrite (S2 j b Hj), N, blockAfter_0. reflexivity.
  - apply nth_error_None. apply nth_error_None in Hj.
    rewrite <- (length_map blockShape scanned), S1, length_map. exact Hj.
Qed.

Lemma blockAfter_ok n k b :
  blockOk n b -> blockSurvives (blockAfter k b) = true ->
  blockOk n (blockAfter k b).
Proof.
  intros [H1 H2]. unfold blockSurvives, blockAfter, blockOk. cbn.
  destruct (Block.isBreakable b); cbn; intros Hs; split; auto.
  apply Z.ltb_lt in Hs. lia.
Qed.

Lemma blocksOk_checkCollisions g :
  gameStateRef g = playing ->
  blocksOk (blockIdRef g) (blocksRef g) ->
  blocksOk (blockIdRef g) (blocksRef (checkCollisions g)).
Proof.
  intros Hp Hb. destruct (checkCollisions_blocks g Hp) as (sc & F & I & E).
  rewrite E. destruct (existsb _ _); [|exact Hb].
  destruct Hb as (H0 & Hf & Hs). split; [assumption|]. split.
  - rewrite Forall_forall in *. intros s Hin.
    apply filter_In in Hin. destruct Hin as [Hin Hsv].
    destruct (Forall2_In_r _ _ _ _ F Hin) as [b [Hb [k ->]]].
    apply blockAfter_ok; auto.
  - apply StronglySorted_map_filter. rewrite I. exact Hs.
Qed.

(** The cells that the pass leaves alone, and when it asks for a render. *)
Lemma checkCollisions_cells g :
  let g' := checkCollisions g in
  blockIdRef g' = blockIdRef g /\ powerUpIdRef g' = powerUpIdRef g /\
  powerUpsRef g' = powerUpsRef g /\ score g' = score g /\
  bulletHeap g' = bulletHeap g /\ positionRef g' = positionRef g /\
  gameState g' = gameState g /\ gameStateRef g' = gameStateRef g /\
  finalScoreRef g' = finalScoreRef g /\
  (needsRenderRef g = true -> needsRenderRef g' = true) /\
  (scoreRef g' <> scoreRef g -> needsRenderRef g' = true) /\
  (scoreRef g <= scoreRef g')%Z.
Proof.
  cbv zeta. unfold checkCollisions.
  destruct (GameState_eqb (gameStateRef g) playing);
    [|repeat split; auto; try lia; congruence].
  destruct (bulletsRef g) eqn:Eb;
    [cbn; repeat split; auto; try lia; congruence|].
  destruct (blocksRef g) eqn:Ek;
    [cbn; repeat split; auto; try lia; congruence|].
  rewrite <- ?Eb, <- ?Ek.
  destruct (collideBullets _ _ _ _) as [[g1 rec] hit] eqn:E.
  pose proof (collideBullets_spec _ _ _ _ _ _ _ E) as (_ & Hh & Hsc & _).
  cbn [orb] in Hh.
  apply collideBullets_shape in E.
  assert (Hs : hit = false -> scoreRef g1 = scoreRef g).
  { intros ->. symmetry in Hh. destruct (no_hits _ _ _ Hh) as (_ & N & _).
    rewrite Hsc, N. simpl. lia. }
  assert (Hle : (scoreRef g <= scoreRef g1)%Z) by (rewrite Hsc; lia).
  clear Hh Hsc. rewrite E. clear E.
  unfold releaseBullets.
  destruct rec, hit; repeat break_match; cbn; repeat split; auto;
    intros; try congruence; exfalso; auto.
Qed.

Lemma wi_checkCollisions g : WorldInv g -> WorldInv (checkCollisions g).
Proof.
  intros [].
  destruct (checkCollisions_cells g)
    as (C1 & C2 & C3 & C4 & C5 & _ & _ & _ & _ & C6 & C7 & C8).
  cbv zeta in *.
  constructor.
  - rewrite C1.
    destruct (gameStateRef g) eqn:Eg;
      try (unfold checkCollisions; rewrite Eg; exact wi_blocks0).
    apply blocksOk_checkCollisions; assumption.
  - rewrite C2, C3. assumption.
  - rewrite C4. lia.
  - rewrite C4. intros Hne.
    destruct (Z.eq_dec (scoreRef (checkCollisions g)) (scoreRef g)) as [Heq|Hd].
    + apply C6, wi_pending0. congruence.
    + apply C7, Hd.
  - intros r. rewrite C5. apply wi_angles0.
Qed.

Lemma wi_checkPlayerCollisions g :
  WorldInv g -> WorldInv (checkPlayerCollisions g).
Proof.
  unfold checkPlayerCollisions, triggerGameOver.
  destruct (GameState_eqb (gameStateRef g) playing); [|auto].
  destruct (playerRef g); [|auto].
  destruct (existsb _ _); [wi_same|].
  destruct (collectPowerUps _ _ _ _) as [g1 ids] eqn:E.
  apply collectPowerUps_shape in E. rewrite E.
  intros []. destruct ids; constructor; cbn; auto.
  apply powerUpsOk_filter. assumption.
Qed.

Lemma wi_runLoop keys dragging l g :
  WorldInv g -> WorldInv (runLoop keys dragging l g).
Proof.
  destruct l; simpl;
    auto using wi_updateRender, wi_animatePlayer, wi_animateBullets,
      wi_animateObjects, wi_checkCollisions, wi_checkPlayerCollisions.
Qed.

Lemma wi_runLoops keys dragging ls : forall g,
  WorldInv g -> WorldInv (runLoops keys dragging ls g).
Proof.
  induction ls as [|l ls IH]; simpl; intros g H; [assumption|].
  apply IH, wi_runLoop, H.
Qed.

Lemma wi_runFrame keys dragging g :
  WorldInv g -> WorldInv (runFrame keys dragging g).
Proof. intros H. apply wi_runLoops. revert H. wi_same. Qed.

Lemma wi_commitEffects g : WorldInv g -> WorldInv (commitEffects g).
Proof. unfold commitEffects; repeat break_match; wi_same. Qed.

Lemma wi_startGame g : WorldInv g -> WorldInv (startGame g).
Proof.
  unfold startGame. destruct (gameContainerRef g) as [[w h]|]; [|auto].
  intros []. constructor; cbn; auto using blocksOk_nil, powerUpsOk_nil; lia.
Qed.

Lemma createBullet_angles x y a g :
  allowedAngle a ->
  (forall r, allowedAngle (Bullet.angle (bulletHeap g r))) ->
  forall r,
    allowedAngle (Bullet.angle (bulletHeap (snd (createBullet x y a g)) r)).
Proof.
  intros Ha Hg r. unfold createBullet.
  destruct (pop (bulletPoolRef g)) as [[rest z]|]; cbn; unfold heapSet;
    destruct (Nat.eqb r _); auto.
Qed.

Lemma fireBullet_angles now g :
  (forall r, allowedAngle (Bullet.angle (bulletHeap g r))) ->
  forall r, allowedAngle (Bullet.angle (bulletHeap (fireBullet now g) r)).
Proof.
  intros Hg. unfold fireBullet.
  destruct (playerRef g) as [[pw ph]|]; [|exact Hg].
  destruct (GameState_eqb _ _); [|exact Hg].
  destruct (_ <? _)%Z; [exact Hg|].
  cbv zeta.
  assert (A0 : allowedAngle 0) by (left; reflexivity).
  assert (A1 : allowedAngle (-30)) by (right; left; reflexivity).
  assert (A2 : allowedAngle 30) by (right; right; reflexivity).
  destruct (multiDirectional _).
  - destruct (createBullet _ _ 0 _) as [b1 g1] eqn:E1.
    destruct (createBullet _ _ (-30) _) as [b2 g2] eqn:E2.
    destruct (createBullet _ _ 30 _) as [b3 g3] eqn:E3.
    cbn.
    change g3 with (snd (b3, g3)). rewrite <- E3.
    apply createBullet_angles; [assumption|].
    change g2 with (snd (b2, g2)). rewrite <- E2.
    apply createBullet_angles; [assumption|].
    change g1 with (snd (b1, g1)). rewrite <- E1.
    apply createBullet_angles; [assumption|]. exact Hg.
  - destruct (createBullet _ _ 0 _) as [b1 g1] eqn:E1.
    cbn.
    change g1 with (snd (b1, g1)). rewrite <- E1.
    apply createBullet_angles; [assumption|]. exact Hg.
Qed.

Lemma fireBullet_needsRender now g :
  needsRenderRef g = true -> needsRenderRef (fireBullet now g) = true.
Proof.
  unfold fireBullet. repeat break_match; auto.
Qed.

Lemma wi_fireBullet now g : WorldInv g -> WorldInv (fireBullet now g).
Proof.
  intros [].
  pose proof (fireBullet_angles now g wi_angles0) as A.
  pose proof (fireBullet_needsRender now g) as N.
  rewrite fireBullet_shape in *.
  constructor; cbn in *; auto.
Qed.

Lemma wi_spawnLoop rand w :
  (forall k, isRandom (rand k)) ->
  forall idx g,
    blocksOk (blockIdRef g) (blocksRef g) ->
    let g' :=
      fold_left
        (fun g i =>
           set_blockIdRef (blockIdRef g + 1)%Z
             (set_blocksRef
                (blocksRef g ++ [newBlock rand w i (blockIdRef g)]) g))
        idx g in
    blocksOk (blockIdRef g') (blocksRef g').
Proof.
  intros Hr idx. induction idx as [|i idx IH]; simpl; intros g H; [exact H|].
  apply IH. cbn.
  destruct (newBlock_ok rand w i (blockIdRef g) Hr) as (E1 & _ & _ & _ & E5).
  apply blocksOk_snoc; assumption.
Qed.

Lemma wi_spawnBlock rand g :
  (forall k, isRandom (rand k)) -> WorldInv g -> WorldInv (spawnBlock rand g).
Proof.
  intros Hr H. unfold spawnBlock.
  destruct (gameContainerRef g) as [[w h]|]; [|exact H].
  destruct (GameState_eqb _ _); [|exact H].
  pose proof (wi_spawnLoop rand w Hr (seq 0 (Z.to_nat (blocksPerWave g))) g
                (wi_blocks g H)) as B.
  cbv zeta in B. rewrite spawnLoop_shape.
  destruct H. constructor; cbn; auto.
Qed.

Lemma wi_spawnPowerUp r1 r2 g : WorldInv g -> WorldInv (spawnPowerUp r1 r2 g).
Proof.
  unfold spawnPowerUp.
  destruct (gameContainerRef g) as [[w h]|]; [|auto].
  destruct (GameState_eqb _ _); [|auto].
  intros []. constructor; cbn; auto.
  apply powerUpsOk_snoc; [assumption|reflexivity].
Qed.

Lemma wi_gameTimerTick r1 r2 g :
  WorldInv g -> WorldInv (gameTimerTick r1 r2 g).
Proof.
  intros H. unfold gameTimerTick.
  destruct (GameState_eqb (gameState g) playing); [|exact H].
  cbv zeta.
  assert (S1 : forall v g0, WorldInv g0 -> WorldInv (set_blocksPerWave v g0))
    by (intros v g0; wi_same).
  assert (S2 : forall v g0, WorldInv g0 -> WorldInv (set_blockFallSpeed v g0))
    by (intros v g0; wi_same).
  assert (S3 : forall v g0, WorldInv g0 -> WorldInv (set_blockSpawnRate v g0))
    by (intros v g0; wi_same).
  assert (S4 : forall v g0, WorldInv g0 -> WorldInv (set_gameTime v g0))
    by (intros v g0; wi_same).
  apply S4.
  repeat match goal with
         | |- WorldInv (if ?c then _ else _) => destruct c
         | |- WorldInv (spawnPowerUp _ _ _) => apply wi_spawnPowerUp
         | |- WorldInv (set_blocksPerWave _ _) => apply S1
         | |- WorldInv (set_blockFallSpeed _ _) => apply S2
         | |- WorldInv (set_blockSpawnRate _ _) => apply S3
         end; exact H.
Qed.

Lemma wi_powerUpTimerTick g : WorldInv g -> WorldInv (powerUpTimerTick g).
Proof. unfold powerUpTimerTick; repeat break_match; wi_same. Qed.

Lemma wi_clearIsHit g : WorldInv g -> WorldInv (clearIsHit g).
Proof.
  intros []. constructor; cbn; auto.
  rewrite <- (filter_true (map _ (blocksRef g))) at 1.
  - apply blocksOk_filter_map with (f := fun _ => true); [|assumption].
    intros b. cbn. auto.
Qed.

Lemma wi_handleTouchStart cx cy g :
  WorldInv g -> WorldInv (handleTouchStart cx cy g).
Proof. unfold handleTouchStart; repeat break_match; wi_same. Qed.

Lemma wi_handleTouchMove cx cy g :
  WorldInv g -> WorldInv (handleTouchMove cx cy g).
Proof. unfold handleTouchMove; repeat break_match; wi_same. Qed.

Lemma wi_handleTouchEnd g : WorldInv g -> WorldInv (handleTouchEnd g).
Proof. unfold handleTouchEnd; repeat break_match; wi_same. Qed.

Lemma wi_step g g' : step g g' -> WorldInv g -> WorldInv g'.
Proof.
  intros S H; destruct S;
    auto using wi_commitEffects, wi_startGame, wi_fireBullet, wi_spawnBlock,
      wi_gameTimerTick, wi_powerUpTimerTick, wi_runFrame, wi_clearIsHit,
      wi_handleTouchStart, wi_handleTouchMove, wi_handleTouchEnd.
  all: revert H; wi_same.
Qed.

Lemma wi_initialGame w h : WorldInv (initialGame w h).
Proof.
  constructor; cbn; auto using blocksOk_nil, powerUpsOk_nil; try lia.
  intros _. left. reflexivity.
Qed.

Lemma reachable_WorldInv g : reachable g -> WorldInv g.
Proof. induction 1; eauto using wi_initialGame, wi_step. Qed.

Lemma visited_WorldInv g : visited g -> WorldInv g.
Proof.
  intros [g' H|keys dragging g' n H].
  - apply reachable_WorldInv, H.
  - apply wi_runLoops. generalize (reachable_WorldInv g' H). wi_same.
Qed.

(** ** One frame of a playing session, callback by callback *)

Ltac core_same := unfold sameCore; cbn; repeat split; reflexivity.

Lemma sameCore_refl g : sameCore g g.
Proof. core_same. Qed.

Lemma sameCore_trans g1 g2 g3 :
  sameCore g1 g2 -> sameCore g2 g3 -> sameCore g1 g3.
Proof.
  unfold sameCore. intros H1 H2.
  repeat match goal with H : _ /\ _ |- _ => destruct H end.
  repeat split; congruence.
Qed.

Lemma updateRender_cells g :
  let g' := updateRender g in
  sameCore g g' /\ positionRef g' = positionRef g /\
  bulletHeap g' = bulletHeap g /\ bulletsRef g' = bulletsRef g /\
  bulletPoolRef g' = bulletPoolRef g /\
  blocksRef g' = blocksRef g /\ powerUpsRef g' = powerUpsRef g /\
  score g' = (if needsRenderRef g && GameState_eqb (gameStateRef g) playing
              then scoreRef g else score g).
Proof.
  cbv zeta. unfold updateRender.
  destruct (needsRenderRef g && _); cbn; repeat split; core_same.
Qed.

Lemma animatePlayer_cells keys dragging g :
  let g' := animatePlayer keys dragging g in
  sameCore g g' /\ score g' = score g /\
  bulletHeap g' = bulletHeap g /\ bulletsRef g' = bulletsRef g /\
  bulletPoolRef g' = bulletPoolRef g /\
  blocksRef g' = blocksRef g /\ powerUpsRef g' = powerUpsRef g.
Proof.
  cbv zeta. unfold animatePlayer.
  repeat break_match; cbn; repeat split; core_same.
Qed.

Lemma animateBullets_cells g :
  let g' := animateBullets g in
  sameCore g g' /\ score g' = score g /\ positionRef g' = positionRef g /\
  blocksRef g' = blocksRef g /\ powerUpsRef g' = powerUpsRef g.
Proof.
  cbv zeta. unfold animateBullets, releaseBullets.
  repeat break_match; cbn; repeat split; core_same.
Qed.

Lemma animateObjects_cells g :
  let g' := animateObjects g in
  sameCore g g' /\ score g' = score g /\ positionRef g' = positionRef g /\
  bulletHeap g' = bulletHeap g /\ bulletsRef g' = bulletsRef g /\
  bulletPoolRef g' = bulletPoolRef g.
Proof.
  cbv zeta. unfold animateObjects.
  repeat break_match; cbn; repeat split; core_same.
Qed.

Lemma animateObjects_spec g w h :
  gameStateRef g = playing -> gameContainerRef g = Some (w, h) ->
  let g' := animateObjects g in
  blocksRef g' =
    filter (fun block =>
              Rltb (Block.y block) (h + 50) &&
              (if Block.isBreakable block then (0 <? Block.hp block)%Z
               else true))
           (map (fallBlock (currentFallSpeed g)) (blocksRef g)) /\
  powerUpsRef g' =
    filter (fun powerUp => Rltb (PowerUp.y powerUp) (h + 50))
           (map fallPowerUp (powerUpsRef g)).
Proof.
  intros Hp Hc. cbv zeta. unfold animateObjects. rewrite Hp, Hc.
  cbn. split; reflexivity.
Qed.

Lemma checkPlayerCollisions_cells g :
  let g' := checkPlayerCollisions g in
  scoreRef g' = scoreRef g /\ score g' = score g /\
  blocksRef g' = blocksRef g /\ positionRef g' = positionRef g /\
  bulletHeap g' = bulletHeap g /\ bulletsRef g' = bulletsRef g /\
  bulletPoolRef g' = bulletPoolRef g /\ finalScoreRef g' = finalScoreRef g /\
  gameContainerRef g' = gameContainerRef g /\
  blockIdRef g' = blockIdRef g /\ powerUpIdRef g' = powerUpIdRef g.
Proof.
  cbv zeta. unfold checkPlayerCollisions, triggerGameOver.
  destruct (GameState_eqb (gameStateRef g) playing);
    [|repeat split; reflexivity].
  destruct (playerRef g); [|repeat split; reflexivity].
  destruct (existsb _ _); [cbn; repeat split; reflexivity|].
  destruct (collectPowerUps _ _ _ _) as [g1 ids] eqn:E.
  apply collectPowerUps_shape in E. rewrite E.
  destruct ids; cbn; repeat split; reflexivity.
Qed.

(** A frame of a playing session is the two collision passes run on
    [afterMotion], which is a state the component goes through; there the
    published score is the [scoreRef] of the frame's start. *)
Lemma runFrame_playing keys dragging g :
  reachable g -> gameState g = playing ->
  let m := afterMotion keys dragging g in
  runFrame keys dragging g = checkPlayerCollisions (checkCollisions m) /\
  visited m /\ sameCore g m /\ gameStateRef m = playing /\
  playerRef m <> None /\
  score m = scoreRef g /\
  bulletsRef m = filter (staysOnScreen (bulletHeap g)) (bulletsRef g) /\
  exists w h,
    gameContainerRef g = Some (w, h) /\
    blocksRef m =
      filter (fun block =>
                Rltb (Block.y block) (h + 50) &&
                (if Block.isBreakable block then (0 <? Block.hp block)%Z
                 else true))
             (map (fallBlock (currentFallSpeed g)) (blocksRef g)) /\
    powerUpsRef m =
      filter (fun powerUp => Rltb (PowerUp.y powerUp) (h + 50))
             (map fallPowerUp (powerUpsRef g)).
Proof.
  intros Hr Hp. cbv zeta.
  destruct (reachable_QueueInv g Hr) as [Hs Hc Hpl Hq].
  rewrite Hp in Hq. cbn [GameState_eqb] in Hq. specialize (Hpl Hp).
  assert (Hpr : gameStateRef g = playing) by congruence.
  pose proof (reachable_WorldInv g Hr) as Hw.
  destruct (reachable_BulletInv g Hr) as [(Hnd & _ & _) _].
  simpl in Hnd. apply NoDup_app_remove_r in Hnd.
  assert (Hv : visited (afterMotion keys dragging g)).
  { pose proof (visited_frame keys dragging g 4 Hr) as V.
    rewrite Hq in V. exact V. }
  split; [unfold runFrame; rewrite Hq; reflexivity|].
  split; [exact Hv|].
  unfold afterMotion.
  set (g0 := set_rafQueue [] g).
  assert (C0 : sameCore g g0) by core_same.
  destruct (updateRender_cells g0)
    as (C1 & P1 & H1 & B1 & Q1 & K1 & U1 & S1). cbv zeta in *.
  set (g1 := updateRender g0) in *.
  destruct (animatePlayer_cells keys dragging g1)
    as (C2 & S2 & H2 & B2 & Q2 & K2 & U2). cbv zeta in *.
  set (g2 := animatePlayer keys dragging g1) in *.
  destruct (animateBullets_cells g2) as (C3 & S3 & P3 & K3 & U3).
  cbv zeta in *.
  pose proof (sameCore_trans _ _ _ (sameCore_trans _ _ _ C0 C1) C2) as Cg2.
  assert (Pg2 : gameStateRef g2 = playing)
    by (destruct Cg2 as (E & _); rewrite E; exact Hpr).
  destruct (animateBullets_spec g2 Pg2) as (_ & A2 & _).
  { rewrite B2, B1. exact Hnd. }
  cbv zeta in A2.
  set (g3 := animateBullets g2) in *.
  pose proof (sameCore_trans _ _ _ Cg2 C3) as Cg3.
  assert (Pg3 : gameStateRef g3 = playing)
    by (destruct Cg3 as (E & _); rewrite E; exact Hpr).
  destruct (gameContainerRef g) as [[w h]|] eqn:Ec; [|congruence].
  assert (Kg3 : gameContainerRef g3 = Some (w, h))
    by (destruct Cg3 as (_ & _ & E & _); rewrite E; exact Ec).
  destruct (animateObjects_spec g3 w h Pg3 Kg3) as [O1 O2].
  destruct (animateObjects_cells g3) as (C4 & S4 & P4 & H4 & B4 & Q4).
  cbv zeta in *.
  set (g4 := animateObjects g3) in *.
  pose proof (sameCore_trans _ _ _ Cg3 C4) as Cg4.
  split; [exact Cg4|].
  split; [destruct Cg4 as (E & _); rewrite E; exact Hpr|].
  split; [destruct Cg4 as (_ & _ & _ & E & _); rewrite E; exact Hpl|].
  split.
  { rewrite S4, S3, S2, S1.
    change (needsRenderRef g0) with (needsRenderRef g).
    change (gameStateRef g0) with (gameStateRef g).
    change (scoreRef g0) with (scoreRef g).
    change (score g0) with (score g).
    rewrite Hpr. cbn [GameState_eqb]. rewrite andb_true_r.
    destruct (needsRenderRef g) eqn:En; [reflexivity|].
    destruct (Z.eq_dec (score g) (scoreRef g)) as [E|E]; [exact E|].
    apply (wi_pending g Hw) in E. congruence. }
  split.
  { rewrite B4, A2.
    assert (Eh : bulletHeap g2 = bulletHeap g) by (rewrite H2, H1; reflexivity).
    rewrite Eh, B2, B1. reflexivity. }
  exists w, h. split; [reflexivity|].
  assert (Ev : currentFallSpeed g3 = currentFallSpeed g).
  { unfold currentFallSpeed.
    destruct Cg3 as (_ & _ & _ & _ & _ & _ & E1 & E2 & _).
    rewrite E1, E2. reflexivity. }
  rewrite O1, O2, Ev, K3, K2, K1, U3, U2, U1. split; reflexivity.
Qed.

Lemma runLoops_firstn5 keys dragging g g' :
  rafQueue g = fullQueue ->
  runLoops keys dragging (firstn 5 (rafQueue g)) g' =
    checkCollisions
      (animateObjects
         (animateBullets (animatePlayer keys dragging (updateRender g')))).
Proof. intros H. rewrite H. reflexivity. Qed.

(** ** The published score and the final score *)

Lemma commitEffects_finalScore g :
  gameState g = gameOver -> finalScoreRef (commitEffects g) = score g.
Proof.
  intros H. unfold commitEffects.
  repeat (progress (cbn; rewrite ?H)). reflexivity.
Qed.

Lemma filter_length_le {A} (f : A -> bool) l :
  (length (filter f l) <= length l)%nat.
Proof.
  induction l as [|a l IH]; simpl; [lia|]. destruct (f a); simpl; lia.
Qed.

(** What the C1 scenario shows, for the statements below. *)
Lemma c1_state_facts :
  gameState c1_state = playing /\
  gameState (runFrame noKeys false c1_state) = gameOver /\
  scoreRef c1_state = 0%Z.
Proof.
  cut (forall g0 g',
         g0 = c1_state -> g' = runFrame noKeys false g0 ->
         gameState g0 = playing /\ gameState g' = gameOver /\
         scoreRef g0 = 0%Z).
  { intros H. exact (H _ _ eq_refl eq_refl). }
  intros g0 g'. unfold c1_state, c1_before_fire.
  eval_game. intros ->. eval_game. intros ->. repeat split.
Qed.

(** X4. In every state the component goes through, the published [score]
    is between 0 and [scoreRef]; when it lags behind, a render is pending
    ([needsRenderRef]), and while playing [updateRender] publishes exactly
    [scoreRef]. *)
Theorem X4_published_score (g : Game) :
  visited g ->
  (0 <= score g <= scoreRef g)%Z /\
  (score g <> scoreRef g -> needsRenderRef g = true) /\
  (gameStateRef g = playing -> score (updateRender g) = scoreRef g).
Proof.
  intros Hv. destruct (visited_WorldInv g Hv) as [_ _ Hs Hpd _].
  split; [exact Hs|]. split; [exact Hpd|].
  intros Hp. destruct (updateRender_cells g) as (_ & _ & _ & _ & _ & _ & _ & S).
  cbv zeta in S. rewrite S, Hp. cbn [GameState_eqb]. rewrite andb_true_r.
  destruct (needsRenderRef g) eqn:En; [reflexivity|].
  destruct (Z.eq_dec (score g) (scoreRef g)) as [E|E]; [exact E|].
  apply Hpd in E. congruence.
Qed.

Lemma X4_published_score_witness :
  visited c3_state /\ (0 <= score c3_state <= scoreRef c3_state)%Z /\
  score (updateRender c3_state) = scoreRef c3_state.
Proof.
  pose proof (X4_published_score c3_state visited_c3_state) as (H1 & _ & H3).
  split; [exact visited_c3_state|]. split; [exact H1|].
  exact (H3 (proj1 c3_state_facts)).
Defined.

(** X5. When a frame of a playing session ends the session, the final score
    that the effect records is the [scoreRef] of the frame's start; the
    points of the last frame, at most one per live bullet, are not in
    it. *)
Theorem X5_final_score_of_fatal_frame (keys : Keys.t) (dragging : bool)
    (g : Game) :
  reachable g -> gameState g = playing ->
  gameState (runFrame keys dragging g) = gameOver ->
  let g' := runFrame keys dragging g in
  finalScoreRef (commitEffects g') = scoreRef g /\
  (scoreRef g <= scoreRef g'
   <= scoreRef g + Z.of_nat (length (bulletsRef g)))%Z.
Proof.
  intros Hr Hp Ho. cbv zeta.
  destruct (runFrame_playing keys dragging g Hr Hp)
    as (E & Hv & Hc & Hpm & _ & Hs & Hb & _).
  cbv zeta in *. set (m := afterMotion keys dragging g) in *.
  destruct (checkCollisions_cells m)
    as (_ & _ & _ & C4 & _ & _ & _ & _ & _ & _ & _ & C8).
  destruct (checkCollisions_spec m Hpm) as (_ & _ & _ & _ & _ & S6 & _).
  destruct (checkPlayerCollisions_cells (checkCollisions m))
    as (P1 & P2 & _).
  cbv zeta in *.
  assert (Em : scoreRef m = scoreRef g) by (destruct Hc as (_ & _ & _ & _ & X & _); exact X).
  split.
  - rewrite commitEffects_finalScore by exact Ho.
    rewrite E, P2, C4. exact Hs.
  - rewrite E, P1, S6, Em.
    pose proof (filter_length_le
                  (firstHitBreakable (bulletHeap m) (blocksRef m))
                  (bulletsRef m)) as L1.
    rewrite Hb in L1 at 2.
    pose proof (filter_length_le (staysOnScreen (bulletHeap g))
                                 (bulletsRef g)) as L2.
    lia.
Qed.

Lemma X5_final_score_of_fatal_frame_witness :
  reachable c1_state /\ gameState c1_state = playing /\
  gameState (runFrame noKeys false c1_state) = gameOver /\
  finalScoreRef (commitEffects (runFrame noKeys false c1_state)) = 0%Z.
Proof.
  destruct c1_state_facts as (H1 & H2 & H3).
  split; [exact reachable_c1_state|]. split; [exact H1|]. split; [exact H2|].
  rewrite <- H3.
  exact (proj1 (X5_final_score_of_fatal_frame noKeys false c1_state
                  reachable_c1_state H1 H2)).
Defined.

(** ** Outside a playing session *)



(** ** Blocks and power-ups in every state *)

Lemma StronglySorted_lt_NoDup (l : list Z) : StronglySorted Z.lt l -> NoDup l.
Proof.
  induction 1 as [|a l Hs IH Hf]; constructor; [|exact IH].
  intros Hin. rewrite Forall_forall in Hf. specialize (Hf a Hin). lia.
Qed.


Lemma reachable_c3_before : reachable c3_before.
Proof.
  unfold c3_before.
  eapply reachable_step; [|apply step_fire].
  eapply reachable_step; [apply reachable_newSession|].
  apply step_spawnBlock. apply isRandom_draws; unfold isRandom; lra.
Qed.

Lemma visited_c10_state : visited c10_state.
Proof.
  apply visited_frame. unfold c10_before.
  do 2 (eapply reachable_step; [|apply step_fire]).
  eapply reachable_step; [apply reachable_newSession|].
  apply step_spawnBlock. apply isRandom_draws; unfold isRandom; lra.
Qed.

(** X1. In every state the component goes through, the ids of the blocks
    increase strictly along [blocksRef] (older blocks first, no id twice)
    and are below [blockIdRef]; a breakable block has between 1 and 10 hit
    points and an unbreakable one has 999. *)
Theorem X1_blocks_well_formed (g : Game) :
  visited g ->
  StronglySorted Z.lt (map Block.id (blocksRef g)) /\
  NoDup (map Block.id (blocksRef g)) /\
  forall b, In b (blocksRef g) ->
    (0 <= Block.id b < blockIdRef g)%Z /\
    (Block.isBreakable b = true -> (1 <= Block.hp b <= 10)%Z) /\
    (Block.isBreakable b = false -> Block.hp b = 999%Z).
Proof.
  intros Hv. destruct (visited_WorldInv g Hv) as [(_ & Hf & Hs) _ _ _ _].
  split; [exact Hs|]. split; [apply StronglySorted_lt_NoDup, Hs|].
  intros b Hb. rewrite Forall_forall in Hf. destruct (Hf b Hb) as [H1 H2].
  split; [exact H1|].
  destruct (Block.isBreakable b); split; intros; try discriminate; auto.
Qed.

Lemma X1_blocks_well_formed_witness :
  visited c10_state /\
  (0 <= Block.id c10_block < blockIdRef c10_state)%Z /\
  (1 <= Block.hp c10_block <= 10)%Z.
Proof.
  pose proof (X1_blocks_well_formed c10_state visited_c10_state)
    as (_ & _ & H).
  destruct (H c10_block
              (nth_error_In _ _ (proj1 (proj2 c10_state_facts))))
    as (H1 & H2 & _).
  split; [exact visited_c10_state|]. split; [exact H1|exact (H2 eq_refl)].
Defined.

Lemma hp_cases (z : Z) :
  (1 <= z <= 10)%Z ->
  z = 1%Z \/ z = 2%Z \/ z = 3%Z \/ z = 4%Z \/ z = 5%Z \/ z = 6%Z \/
  z = 7%Z \/ z = 8%Z \/ z = 9%Z \/ z = 10%Z.
Proof. lia. Qed.

(** X2. For a block of any state the component goes through,
    [getBlockColor] never takes its [default] branch, and two breakable
    blocks that are not flashing get the same class exactly when they have
    the same hit points. *)
Theorem X2_block_colors (g : Game) (b : Block.t) :
  visited g -> In b (blocksRef g) ->
  blockColor b <> "bg-gray-500"%string /\
  forall b', In b' (blocksRef g) ->
    Block.isHit b = false -> Block.isHit b' = false ->
    Block.isBreakable b = true -> Block.isBreakable b' = true ->
    (blockColor b = blockColor b' <-> Block.hp b = Block.hp b').
Proof.
  intros Hv Hb. destruct (visited_WorldInv g Hv) as [(_ & Hf & _) _ _ _ _].
  rewrite Forall_forall in Hf. split.
  - destruct (Hf b Hb) as [_ H]. unfold blockColor, getBlockColor.
    destruct (Block.isHit b); [discriminate|].
    destruct (Block.isBreakable b); [|discriminate].
    apply hp_cases in H.
    repeat (destruct H as [H|H]; [rewrite H; discriminate|]).
    rewrite H. discriminate.
  - intros b' Hb' Hh Hh' Hk Hk'.
    destruct (Hf b Hb) as [_ H]. destruct (Hf b' Hb') as [_ H'].
    unfold blockColor, getBlockColor. rewrite Hh, Hh', Hk, Hk' in *.
    cbn [negb]. apply hp_cases in H, H'.
    split.
    + intros E.
      repeat (destruct H as [H|H]);
        repeat (destruct H' as [H'|H']);
        rewrite H, H' in *; try reflexivity; discriminate E.
    + intros ->. reflexivity.
Qed.

Lemma X2_block_colors_witness :
  visited c10_state /\ In c10_block (blocksRef c10_state) /\
  blockColor c10_block <> "bg-gray-500"%string.
Proof.
  assert (Hin : In c10_block (blocksRef c10_state))
    by exact (nth_error_In _ _ (proj1 (proj2 c10_state_facts))).
  split; [exact visited_c10_state|]. split; [exact Hin|].
  exact (proj1 (X2_block_colors c10_state c10_block visited_c10_state Hin)).
Defined.

(** ** Collecting power-ups *)






Lemma reachable_frames n g : reachable g -> reachable (frames n g).
Proof.
  intros H. induction n as [|n IH]; simpl; [exact H|].
  eapply reachable_step; [exact IH|apply step_frame].
Qed.

Lemma isRandom_alternate a b :
  isRandom a -> isRandom b -> forall k, isRandom (alternate a b k).
Proof. intros Ha Hb k. unfold alternate. destruct (Nat.even k); assumption. Qed.


Ltac eval_more :=
  repeat first
    [ eval_one
    | match goal with
      | |- context [gameTimerTick ?a ?b ?g] =>
          is_value g; stage (gameTimerTick a b g)
      | |- context [runLoops ?k ?d (firstn 5 (rafQueue ?g)) ?g'] =>
          is_value g; rewrite (runLoops_firstn5 k d g g') by reflexivity
      end ].



(** ** What a frame does to the blocks and the power-ups *)

Lemma checkPlayerCollisions_powerUps g :
  incl (powerUpsRef (checkPlayerCollisions g)) (powerUpsRef g).
Proof.
  unfold checkPlayerCollisions, triggerGameOver.
  destruct (GameState_eqb (gameStateRef g) playing); [|apply incl_refl].
  destruct (playerRef g); [|apply incl_refl].
  destruct (existsb _ _); [apply incl_refl|].
  destruct (collectPowerUps _ _ _ _) as [g1 ids] eqn:E.
  apply collectPowerUps_shape in E. rewrite E.
  destruct ids; cbn; [apply incl_refl|]. apply incl_filter.
Qed.

Lemma c3_before_facts :
  gameState c3_before = playing /\
  gameContainerRef c3_before = Some (400, 100) /\
  blocksRef c3_before = [Block.mk 0 180 (-50) 5 false true] /\
  currentFallSpeed c3_before = 3.
Proof.
  cut (forall g, g = c3_before ->
         gameState g = playing /\ gameContainerRef g = Some (400, 100) /\
         blocksRef g = [Block.mk 0 180 (-50) 5 false true] /\
         currentFallSpeed g = 3).
  { intros H. exact (H _ eq_refl). }
  intros g. unfold c3_before. eval_game. intros ->.
  split; [reflexivity|]. split; [cbn; do 2 f_equal; lra|].
  split; [cbn; do 2 f_equal; lra|]. reflexivity.
Qed.

(** X7. A frame of a playing session creates no block and no power-up and
    keeps their order.  Every block left after the frame is a block of
    before, moved down by the current fall speed (half of it under slow
    motion) to above the removal line, with the same [id], [x] and
    [isBreakable] and not more hit points; an unbreakable block keeps its
    hit points, and it stays as long as it is above the removal line.
    Every power-up left was moved down by 2. *)
Theorem X7_frame_objects (keys : Keys.t) (dragging : bool) (g : Game)
    (w h : R) :
  reachable g -> gameState g = playing -> gameContainerRef g = Some (w, h) ->
  let g' := runFrame keys dragging g in
  let v := currentFallSpeed g in
  (forall b', In b' (blocksRef g') ->
     exists b, In b (blocksRef g) /\
       Block.id b' = Block.id b /\ Block.x b' = Block.x b /\
       Block.y b' = Block.y b + v /\ Block.y b' < h + 50 /\
       Block.isBreakable b' = Block.isBreakable b /\
       (Block.hp b' <= Block.hp b)%Z /\
       (Block.isBreakable b = false -> Block.hp b' = Block.hp b)) /\
  (forall b, In b (blocksRef g) -> Block.isBreakable b = false ->
     Block.y b + v < h + 50 ->
     exists b', In b' (blocksRef g') /\ Block.id b' = Block.id b) /\
  (forall p', In p' (powerUpsRef g') ->
     exists p, In p (powerUpsRef g) /\ p' = fallPowerUp p /\
               PowerUp.y p' < h + 50) /\
  StronglySorted Z.lt (map Block.id (blocksRef g')) /\
  StronglySorted Z.lt (map PowerUp.id (powerUpsRef g')).
Proof.
  intros Hr Hp Hc. cbv zeta.
  destruct (runFrame_playing keys dragging g Hr Hp)
    as (E & Hv & _ & Hpm & _ & _ & _ & w' & h' & Hc' & Hbl & Hpu).
  rewrite Hc in Hc'. inversion Hc'; subst w' h'. clear Hc'.
  cbv zeta in *. set (m := afterMotion keys dragging g) in *.
  destruct (checkPlayerCollisions_cells (checkCollisions m))
    as (_ & _ & P3 & _).
  destruct (checkCollisions_cells m) as (_ & _ & C3 & _).
  destruct (checkCollisions_blocks m Hpm) as (sc & F & _ & Eb).
  cbv zeta in *.
  assert (Hfall : forall bm, In bm (blocksRef m) ->
            exists b, In b (blocksRef g) /\
                      bm = fallBlock (currentFallSpeed g) b /\
                      Block.y bm < h + 50).
  { intros bm Hbm. rewrite Hbl in Hbm. apply filter_In in Hbm.
    destruct Hbm as [Hbm Hf]. apply in_map_iff in Hbm.
    destruct Hbm as [b [<- Hb]]. exists b. split; [exact Hb|].
    split; [reflexivity|]. apply andb_true_iff in Hf.
    apply Rltb_spec. tauto. }
  assert (Hafter : forall b', In b' (blocksRef (checkCollisions m)) ->
            exists bm k, In bm (blocksRef m) /\ b' = blockAfter k bm).
  { intros b' Hb'. rewrite Eb in Hb'. destruct (existsb _ _).
    - apply filter_In in Hb'. destruct Hb' as [Hb' _].
      destruct (Forall2_In_r _ _ _ _ F Hb') as [bm [Hbm [k ->]]].
      exists bm, k. auto.
    - exists b', 0%nat. rewrite blockAfter_0. auto. }
  assert (Hrf : reachable (runFrame keys dragging g))
    by (eapply reachable_step; [exact Hr|apply step_frame]).
  destruct (reachable_WorldInv _ Hrf) as [(_ & _ & So) (_ & _ & Sp) _ _ _].
  rewrite E in *.
  split; [|split; [|split; [|split; assumption]]].
  - rewrite P3. intros b' Hb'. destruct (Hafter b' Hb') as (bm & k & Hbm & ->).
    destruct (Hfall bm Hbm) as (b & Hb & -> & Hy).
    exists b. split; [exact Hb|]. cbn in *.
    repeat split; auto.
    + destruct (Block.isBreakable b); lia.
    + intros ->. reflexivity.
  - rewrite P3. intros b Hb Hu Hy.
    assert (Hbm : In (fallBlock (currentFallSpeed g) b) (blocksRef m)).
    { rewrite Hbl. apply filter_In. split; [apply in_map; exact Hb|].
      cbn. rewrite Hu, andb_true_r. apply Rltb_spec. exact Hy. }
    rewrite Eb. destruct (existsb _ _).
    + destruct (Forall2_In_l _ _ _ _ F Hbm) as [s [Hs [k ->]]].
      exists (blockAfter k (fallBlock (currentFallSpeed g) b)).
      split; [|reflexivity]. apply filter_In. split; [exact Hs|].
      unfold blockSurvives. cbn. rewrite Hu. reflexivity.
    + exists (fallBlock (currentFallSpeed g) b). split; [exact Hbm|reflexivity].
  - intros p' Hp'. apply checkPlayerCollisions_powerUps in Hp'.
    rewrite C3, Hpu in Hp'. apply filter_In in Hp'. destruct Hp' as [Hp' Hf].
    apply in_map_iff in Hp'. destruct Hp' as [p [<- Hin]].
    exists p. split; [exact Hin|]. split; [reflexivity|].
    apply Rltb_spec. exact Hf.
Qed.

Lemma X7_frame_objects_witness :
  reachable c3_before /\ gameState c3_before = playing /\
  gameContainerRef c3_before = Some (400, 100) /\
  forall b', In b' (blocksRef (runFrame noKeys false c3_before)) ->
    Block.id b' = 0%Z /\ Block.y b' = -50 + 3.
Proof.
  destruct c3_before_facts as (H1 & H2 & H3 & H4).
  pose proof (X7_frame_objects noKeys false c3_before 400 100
                reachable_c3_before H1 H2) as (H & _).
  split; [exact reachable_c3_before|]. split; [exact H1|].
  split; [exact H2|].
  intros b' Hb'. destruct (H b' Hb') as (b & Hb & Ei & _ & Ey & _).
  rewrite H3 in Hb. destruct Hb as [<-|[]]. rewrite H4 in Ey.
  split; [exact Ei|exact Ey].
Defined.

(** ** The spawners *)

Lemma spawnLoop_seq rand w n : forall s g,
  let g' :=
    fold_left
      (fun g i =>
         set_blockIdRef (blockIdRef g + 1)%Z
           (set_blocksRef
              (blocksRef g ++ [newBlock rand w i (blockIdRef g)]) g))
      (seq s n) g in
  blocksRef g' =
    blocksRef g ++
    map (fun j => newBlock rand w (s + j) (blockIdRef g + Z.of_nat j)%Z)
        (seq 0 n) /\
  blockIdRef g' = (blockIdRef g + Z.of_nat n)%Z.
Proof.
  induction n as [|n IH]; intros s g; cbv zeta.
  - simpl. rewrite app_nil_r. split; [reflexivity|lia].
  - cbn [seq fold_left].
    destruct (IH (Datatypes.S s)
                (set_blockIdRef (blockIdRef g + 1)%Z
                   (set_blocksRef
                      (blocksRef g ++ [newBlock rand w s (blockIdRef g)]) g)))
      as [I1 I2].
    cbv zeta in I1, I2. rewrite I1, I2. cbn [blocksRef blockIdRef set_blockIdRef set_blocksRef].
    split; [|lia].
    rewrite <- app_assoc. f_equal. cbn [app map]. f_equal.
    + f_equal; [lia|]. rewrite Z.add_0_r. reflexivity.
    + rewrite <- seq_shift, map_map. apply map_ext. intros j.
      f_equal; lia.
Qed.

Lemma newSession_facts :
  gameState (newSession 400 100) = playing /\
  gameStateRef (newSession 400 100) = playing /\
  gameContainerRef (newSession 400 100) = Some (400, 100) /\
  blocksRef (newSession 400 100) = [] /\
  blockIdRef (newSession 400 100) = 0%Z /\
  blocksPerWave (newSession 400 100) = 1%Z /\
  powerUpsRef (newSession 400 100) = [] /\
  powerUpIdRef (newSession 400 100) = 0%Z /\
  playerRef (newSession 400 100) = Some (48, 48) /\
  positionRef (newSession 400 100) = (176, 0) /\
  lastFireTimeRef (newSession 400 100) = 0%Z /\
  bulletsRef (newSession 400 100) = [] /\
  multiDirectional (activePowerUpsRef (newSession 400 100)) = false /\
  fireSpeed (activePowerUpsRef (newSession 400 100)) = false.
Proof.
  cut (forall g, g = newSession 400 100 ->
         gameState g = playing /\ gameStateRef g = playing /\
         gameContainerRef g = Some (400, 100) /\
         blocksRef g = [] /\ blockIdRef g = 0%Z /\ blocksPerWave g = 1%Z /\
         powerUpsRef g = [] /\ powerUpIdRef g = 0%Z /\
         playerRef g = Some (48, 48) /\ positionRef g = (176, 0) /\
         lastFireTimeRef g = 0%Z /\ bulletsRef g = [] /\
         multiDirectional (activePowerUpsRef g) = false /\
         fireSpeed (activePowerUpsRef g) = false).
  { intros H. exact (H _ eq_refl). }
  intros g. eval_game. intros ->. cbn.
  repeat split; try reflexivity; f_equal; lra.
Qed.

(** X8. In a playing session, [spawnBlock] appends [blocksPerWave] blocks,
    between 1 and 5, and leaves the blocks already there as they are.  The
    [i]-th new block takes the id [blockIdRef + i], starts above the screen
    at [y = -50 - 60 i], is not flashing, has between 1 and 10 hit points
    or, when unbreakable, 999, and lies within the container's width when
    the container is at least as wide as a block. *)
Theorem X8_spawnBlock_wave (rand : nat -> R) (g : Game) (w h : R) :
  reachable g -> gameState g = playing -> gameContainerRef g = Some (w, h) ->
  (forall k, isRandom (rand k)) ->
  let g' := spawnBlock rand g in
  let n := Z.to_nat (blocksPerWave g) in
  (1 <= n <= 5)%nat /\
  blockIdRef g' = (blockIdRef g + Z.of_nat n)%Z /\
  exists wave,
    blocksRef g' = blocksRef g ++ wave /\ length wave = n /\
    forall i b, nth_error wave i = Some b ->
      Block.id b = (blockIdRef g + Z.of_nat i)%Z /\
      Block.y b = -50 - INR i * 60 /\ Block.y b <= -50 /\
      Block.isHit b = false /\
      Block.x b = rand (3 * i)%nat * (w - 40) /\
      (40 <= w -> 0 <= Block.x b <= w - 40) /\
      (if Block.isBreakable b then (1 <= Block.hp b <= 10)%Z
       else Block.hp b = 999%Z).
Proof.
  intros Hr Hp Hc Hrand. cbv zeta.
  destruct (reachable_DifficultyInv g Hr) as [Ht Hs _ Hw _ _ _].
  assert (Hn : (1 <= blocksPerWave g <= 5)%Z).
  { rewrite Hw. unfold spec_obstaclesPerWave.
    pose proof (Z.div_pos (gameTime g) 10 Ht ltac:(lia)). lia. }
  split; [lia|].
  unfold spawnBlock. rewrite Hc, Hs, Hp. cbn [GameState_eqb].
  destruct (spawnLoop_seq rand w (Z.to_nat (blocksPerWave g)) 0%nat g)
    as [E1 E2].
  cbv zeta in E1, E2. cbn [blockIdRef blocksRef set_needsRenderRef].
  split; [exact E2|].
  eexists. split; [exact E1|]. split; [rewrite length_map, length_seq; reflexivity|].
  intros i b Hi.
  rewrite nth_error_map in Hi.
  destruct (nth_error (seq 0 (Z.to_nat (blocksPerWave g))) i) as [j|] eqn:Ej;
    [|discriminate].
  assert (Hlt : (i < length (seq 0 (Z.to_nat (blocksPerWave g))))%nat)
    by (apply nth_error_Some; rewrite Ej; discriminate).
  rewrite length_seq in Hlt.
  assert (j = i).
  { pose proof (nth_error_nth _ _ 0%nat Ej) as N.
    rewrite seq_nth in N by exact Hlt. lia. }
  subst j. cbn [option_map Nat.add] in Hi. inversion Hi; subst b. clear Hi.
  destruct (newBlock_ok rand w i (blockIdRef g + Z.of_nat i)%Z Hrand)
    as (B1 & B2 & B3 & B4 & B5).
  cbv zeta in *. split; [exact B1|]. split; [exact B4|]. split.
  { rewrite B4. pose proof (pos_INR i). lra. }
  split; [exact B2|]. split; [exact B3|]. split; [|exact B5].
  intros Hw40. rewrite B3. destruct (Hrand (3 * i)%nat) as [R0 R1].
  split; [apply Rmult_le_pos; lra|].
  rewrite <- (Rmult_1_l (w - 40)) at 2.
  apply Rmult_le_compat_r; lra.
Qed.

Lemma X8_spawnBlock_wave_witness :
  reachable (newSession 400 100) /\
  gameState (newSession 400 100) = playing /\
  gameContainerRef (newSession 400 100) = Some (400, 100) /\
  (forall k, isRandom (draws 0.5 0.45 0.5 k)) /\
  blockIdRef (spawnBlock (draws 0.5 0.45 0.5) (newSession 400 100)) = 1%Z.
Proof.
  destruct newSession_facts as (H1 & _ & H3 & _ & H5 & H6 & _).
  assert (Hd : forall k, isRandom (draws 0.5 0.45 0.5 k))
    by (apply isRandom_draws; unfold isRandom; lra).
  pose proof (X8_spawnBlock_wave (draws 0.5 0.45 0.5) (newSession 400 100)
                400 100 (reachable_newSession 400 100) H1 H3 Hd)
    as (_ & E & _).
  rewrite H5, H6 in E.
  split; [apply reachable_newSession|]. split; [exact H1|].
  split; [exact H3|]. split; [exact Hd|exact E].
Defined.

(** X9. In a playing session, [spawnPowerUp] appends one power-up with the
    id [powerUpIdRef], above the screen at [y = -50], and asks for a
    render.  The index into [powerUpTypes] is always within the array, so
    the type is one of the three; for a draw away from the boundaries of the
    thirds it is [fireSpeed] up to 0.333, [multiDirectional] from 0.334 to
    0.666 and [slowMotion] from 0.667.  The power-up lies within the
    container's width when the container is at least as wide as a
    power-up. *)
Theorem X9_spawnPowerUp (r1 r2 : R) (g : Game) (w h : R) :
  gameContainerRef g = Some (w, h) -> gameStateRef g = playing ->
  isRandom r1 -> isRandom r2 ->
  let g' := spawnPowerUp r1 r2 g in
  exists ty,
    In ty powerUpTypes /\
    nth_error powerUpTypes (Z.to_nat (Math_floor (r2 * 3))) = Some ty /\
    powerUpsRef g' =
      powerUpsRef g ++
      [PowerUp.mk (powerUpIdRef g) (r1 * (w - 30)) (-50) ty] /\
    (r2 <= 0.333 -> ty = PowerUpType.fireSpeed) /\
    (0.334 <= r2 <= 0.666 -> ty = PowerUpType.multiDirectional) /\
    (0.667 <= r2 -> ty = PowerUpType.slowMotion) /\
    powerUpIdRef g' = (powerUpIdRef g + 1)%Z /\ needsRenderRef g' = true /\
    (30 <= w -> 0 <= r1 * (w - 30) <= w - 30).
Proof.
  intros Hc Hp [A0 A1] [B0 B1]. cbv zeta.
  unfold spawnPowerUp. rewrite Hc, Hp. cbn [GameState_eqb].
  cbn [powerUpsRef powerUpIdRef needsRenderRef set_needsRenderRef
       set_powerUpIdRef set_powerUpsRef].
  assert (E3 : INR (length powerUpTypes) = 3) by (simpl; lra).
  rewrite E3.
  assert (Hx : 30 <= w -> 0 <= r1 * (w - 30) <= w - 30).
  { intros Hw. split; [apply Rmult_le_pos; lra|].
    rewrite <- (Rmult_1_l (w - 30)) at 2.
    apply Rmult_le_compat_r; lra. }
  destruct (Rlt_dec r2 (1 / 3)) as [L1|L1];
    [|destruct (Rlt_dec r2 (2 / 3)) as [L2|L2]].
  - rewrite (Math_floor_eq (r2 * 3) 0) by (simpl; lra).
    exists PowerUpType.fireSpeed.
    repeat split; auto; try (simpl; tauto); intros; lra.
  - rewrite (Math_floor_eq (r2 * 3) 1) by (simpl; lra).
    exists PowerUpType.multiDirectional.
    repeat split; auto; try (simpl; tauto); intros; lra.
  - rewrite (Math_floor_eq (r2 * 3) 2) by (simpl; lra).
    exists PowerUpType.slowMotion.
    repeat split; auto; try (simpl; tauto); intros; lra.
Qed.

Lemma X9_spawnPowerUp_witness :
  gameContainerRef (newSession 400 100) = Some (400, 100) /\
  gameStateRef (newSession 400 100) = playing /\
  isRandom 0.45 /\ isRandom 0.5 /\
  powerUpsRef (spawnPowerUp 0.45 0.5 (newSession 400 100)) =
    [PowerUp.mk 0 (0.45 * (400 - 30)) (-50) PowerUpType.multiDirectional].
Proof.
  destruct newSession_facts as (_ & H2 & H3 & _ & _ & _ & H7 & H8 & _).
  assert (Ha : isRandom 0.45) by (unfold isRandom; lra).
  assert (Hb : isRandom 0.5) by (unfold isRandom; lra).
  destruct (X9_spawnPowerUp 0.45 0.5 (newSession 400 100) 400 100
              H3 H2 Ha Hb) as (ty & _ & _ & E & _ & M & _).
  rewrite H7, H8 in E. rewrite (M ltac:(lra)) in E.
  split; [exact H3|]. split; [exact H2|]. split; [exact Ha|].
  split; [exact Hb|exact E].
Defined.

(** ** Firing *)

(** What [createBullet] returns and what it leaves alone. *)
Lemma createBullet_result x y a g r g' :
  createBullet x y a g = (r, g') ->
  Bullet.x (bulletHeap g' r) = x /\ Bullet.y (bulletHeap g' r) = y /\
  Bullet.angle (bulletHeap g' r) = a /\
  (forall r', r' <> r -> bulletHeap g' r' = bulletHeap g r') /\
  bulletsRef g' = bulletsRef g.
Proof.
  unfold createBullet.
  destruct (pop (bulletPoolRef g)) as [[rest z]|]; intros E;
    inversion E; subst; cbn; unfold heapSet; rewrite Nat.eqb_refl; cbn;
    repeat split; try reflexivity; intros r' Hr';
    match goal with
    | |- context [Nat.eqb r' ?u] =>
        destruct (Nat.eqb_spec r' u); [contradiction|reflexivity]
    end.
Qed.

(** X10. [fireBullet] in a playing session, [rate] being 100 ms under the
    fire-speed power-up and 200 ms otherwise.  Within [rate] of the last
    shot it changes nothing.  Otherwise it records the time and appends to
    the live array one bullet at the top centre of the ship, or under the
    multi-directional power-up three bullets with angles 0, -30 and 30, the
    side ones 8 px to the left and right; the new bullets are objects
    distinct from one another and from every live bullet, whose fields are
    left as they are; and any further call within [rate] changes
    nothing. *)
Theorem X10_fire_volley (now : Z) (g : Game) (pw ph : R) :
  reachable g -> gameStateRef g = playing -> playerRef g = Some (pw, ph) ->
  let rate := (if fireSpeed (activePowerUpsRef g) then 100 else 200)%Z in
  let bulletX := fst (positionRef g) + pw / 2 - 4 in
  let bulletY := snd (positionRef g) - 8 in
  let g' := fireBullet now g in
  ((now - lastFireTimeRef g < rate)%Z -> g' = g) /\
  ((rate <= now - lastFireTimeRef g)%Z ->
   lastFireTimeRef g' = now /\ needsRenderRef g' = true /\
   (forall now', (now' - now < rate)%Z -> fireBullet now' g' = g') /\
   (forall r, In r (bulletsRef g) -> bulletHeap g' r = bulletHeap g r) /\
   exists volley,
     bulletsRef g' = bulletsRef g ++ volley /\ NoDup volley /\
     (forall r, In r volley -> ~ In r (bulletsRef g)) /\
     shots (bulletHeap g') volley =
       if multiDirectional (activePowerUpsRef g)
       then [(bulletX, bulletY, 0); (bulletX - 8, bulletY, -30);
             (bulletX + 8, bulletY, 30)]
       else [(bulletX, bulletY, 0)]).
Proof.
  intros Hr Hp Hpl. cbv zeta.
  pose proof (reachable_BulletInv g Hr) as Hb.
  split.
  - intros Hlt. unfold fireBullet. rewrite Hpl, Hp. cbn [GameState_eqb].
    apply Z.ltb_lt in Hlt. rewrite Hlt. reflexivity.
  - intros Hge.
    assert (Hthr : forall now',
              (now' - now < (if fireSpeed (activePowerUpsRef g)
                             then 100 else 200))%Z ->
              lastFireTimeRef (fireBullet now g) = now ->
              fireBullet now' (fireBullet now g) = fireBullet now g).
    { intros now' Hlt Hl.
      assert (K : forall G,
                playerRef G = Some (pw, ph) -> gameStateRef G = playing ->
                activePowerUpsRef G = activePowerUpsRef g ->
                lastFireTimeRef G = now -> fireBullet now' G = G).
      { intros G K1 K2 K3 K4. unfold fireBullet.
        rewrite K1, K2, K3, K4. cbn [GameState_eqb].
        apply Z.ltb_lt in Hlt. rewrite Hlt. reflexivity. }
      pose proof (fireBullet_shape now g) as Sh. cbv zeta in Sh.
      apply K; try exact Hl; rewrite Sh; cbn; assumption || reflexivity. }
    assert (Hl : lastFireTimeRef (fireBullet now g) = now /\
                 needsRenderRef (fireBullet now g) = true).
    { unfold fireBullet. rewrite Hpl, Hp. cbn [GameState_eqb].
      apply Z.ltb_ge in Hge. rewrite Hge. cbv zeta.
      destruct (multiDirectional _).
      - destruct (createBullet _ _ 0 _) as [b1 g1] eqn:E1.
        destruct (createBullet _ _ (-30) _) as [b2 g2] eqn:E2.
        destruct (createBullet _ _ 30 _) as [b3 g3] eqn:E3.
        apply createBullet_shape in E1, E2, E3.
        rewrite E3, E2, E1. cbn. auto.
      - destruct (createBullet _ _ 0 _) as [b1 g1] eqn:E1.
        apply createBullet_shape in E1. rewrite E1. cbn. auto. }
    destruct Hl as [Hl Hn].
    split; [exact Hl|]. split; [exact Hn|].
    split; [intros now' Hlt; apply Hthr; assumption|].
    clear Hthr Hl Hn.
    unfold fireBullet. rewrite Hpl, Hp. cbn [GameState_eqb].
    apply Z.ltb_ge in Hge. rewrite Hge. cbv zeta.
    assert (H0 : BulletInvX [] (set_lastFireTimeRef now g)) by exact Hb.
    change (activePowerUpsRef (set_lastFireTimeRef now g))
      with (activePowerUpsRef g).
    destruct (multiDirectional (activePowerUpsRef g)).
    + destruct (createBullet _ _ 0 _) as [b1 g1] eqn:E1.
      destruct (createBullet _ _ (-30) _) as [b2 g2] eqn:E2.
      destruct (createBullet _ _ 30 _) as [b3 g3] eqn:E3.
      pose proof (BulletInvX_createBullet [] _ _ _ _ _ _ H0 E1) as I1.
      pose proof (BulletInvX_createBullet _ _ _ _ _ _ _ I1 E2) as I2.
      pose proof (BulletInvX_createBullet _ _ _ _ _ _ _ I2 E3) as I3.
      destruct (createBullet_result _ _ _ _ _ _ E1) as (X1 & Y1 & A1 & O1 & L1).
      destruct (createBullet_result _ _ _ _ _ _ E2) as (X2 & Y2 & A2 & O2 & L2).
      destruct (createBullet_result _ _ _ _ _ _ E3) as (X3 & Y3 & A3 & O3 & L3).
      cbn in L1. cbn [app] in I3.
      destruct I3 as [(Hnd & _ & _) _].
      assert (L : bulletsRef g3 = bulletsRef g) by congruence.
      rewrite L in Hnd.
      inversion Hnd as [|? ? N1 Hnd1]; subst.
      inversion Hnd1 as [|? ? N2 Hnd2]; subst.
      inversion Hnd2 as [|? ? N3 Hnd3]; subst.
      assert (D12 : b1 <> b2) by (intros ->; apply N1; left; reflexivity).
      assert (D13 : b1 <> b3)
        by (intros ->; apply N1; right; left; reflexivity).
      assert (D23 : b2 <> b3) by (intros ->; apply N2; left; reflexivity).
      cbn [bulletHeap bulletsRef set_needsRenderRef set_bulletsRef].
      split.
      * intros r Hin.
        assert (r <> b1) by (intros ->; apply N1; simpl; rewrite in_app_iff; auto).
        assert (r <> b2) by (intros ->; apply N2; simpl; rewrite in_app_iff; auto).
        assert (r <> b3) by (intros ->; apply N3; rewrite in_app_iff; auto).
        rewrite O3, O2, O1 by assumption. reflexivity.
      * exists [b1; b2; b3]. rewrite L. split; [reflexivity|]. split.
        -- repeat constructor; simpl; intuition congruence.
        -- split.
           ++ intros r [<-|[<-|[<-|[]]]] Hin.
              ** apply N1. simpl. rewrite in_app_iff. auto.
              ** apply N2. simpl. rewrite in_app_iff. auto.
              ** apply N3. rewrite in_app_iff. auto.
           ++ unfold shots. cbn [map].
              rewrite (O3 b1), (O2 b1), (O3 b2) by congruence.
              rewrite X1, Y1, A1, X2, Y2, A2, X3, Y3, A3. reflexivity.
    + destruct (createBullet _ _ 0 _) as [b1 g1] eqn:E1.
      pose proof (BulletInvX_createBullet [] _ _ _ _ _ _ H0 E1) as I1.
      destruct (createBullet_result _ _ _ _ _ _ E1) as (X1 & Y1 & A1 & O1 & L1).
      cbn in L1. cbn [app] in I1.
      destruct I1 as [(Hnd & _ & _) _]. rewrite L1 in Hnd.
      inversion Hnd as [|? ? N1 Hnd1]; subst.
      cbn [bulletHeap bulletsRef set_needsRenderRef set_bulletsRef].
      split.
      * intros r Hin.
        assert (r <> b1) by (intros ->; apply N1; rewrite in_app_iff; auto).
        rewrite O1 by assumption. reflexivity.
      * exists [b1]. rewrite L1. split; [reflexivity|]. split.
        -- repeat constructor. simpl. tauto.
        -- split.
           ++ intros r [<-|[]] Hin. apply N1. rewrite in_app_iff. auto.
           ++ unfold shots. cbn [map]. rewrite X1, Y1, A1. reflexivity.
Qed.

Lemma X10_fire_volley_witness :
  reachable (newSession 400 100) /\
  gameStateRef (newSession 400 100) = playing /\
  playerRef (newSession 400 100) = Some (48, 48) /\
  lastFireTimeRef (fireBullet 1000 (newSession 400 100)) = 1000%Z /\
  fireBullet 1100 (fireBullet 1000 (newSession 400 100))
    = fireBullet 1000 (newSession 400 100).
Proof.
  destruct newSession_facts
    as (_ & H2 & _ & _ & _ & _ & _ & _ & H9 & _ & H11 & _ & _ & H14).
  pose proof (X10_fire_volley 1000 (newSession 400 100) 48 48
                (reachable_newSession 400 100) H2 H9) as (_ & H).
  rewrite H11, H14 in H.
  destruct (H ltac:(lia)) as (A & _ & B & _).
  split; [apply reachable_newSession|]. split; [exact H2|].
  split; [exact H9|]. split; [exact A|]. apply B. lia.
Defined.

(** ** Moving the ship *)

Lemma clampTo_range hi v : 0 <= hi -> 0 <= clampTo hi v <= hi.
Proof.
  intros H. unfold clampTo, Rmax, Rmin.
  repeat (destruct (Rle_dec _ _)); lra.
Qed.

Lemma clampTo_small hi v : hi <= 0 -> clampTo hi v = 0.
Proof.
  intros H. unfold clampTo, Rmax, Rmin.
  repeat (destruct (Rle_dec _ _)); lra.
Qed.

Lemma clampTo_inside hi v : 0 <= v <= hi -> clampTo hi v = v.
Proof.
  intros H. unfold clampTo, Rmax, Rmin.
  repeat (destruct (Rle_dec _ _)); lra.
Qed.

(** X11. A drag in a playing session: after a press at [(cx, cy)] a move
    to [(cx + dx, cy + dy)] puts the ship at its position plus [(dx, dy)],
    each coordinate clamped to the container (to 0 when the container is
    smaller than the ship); the press alone moves nothing; after the
    release the position is kept and further moves are ignored. *)
Theorem X11_drag (cx cy dx dy : R) (g : Game) (w h pw ph : R) :
  gameState g = playing -> gameContainerRef g = Some (w, h) ->
  playerRef g = Some (pw, ph) ->
  let g1 := handleTouchStart cx cy g in
  let g2 := handleTouchMove (cx + dx) (cy + dy) g1 in
  let g3 := handleTouchEnd g2 in
  positionRef g1 = positionRef g /\ isDragging g1 = true /\
  positionRef g2 = (clampTo (w - pw) (fst (positionRef g) + dx),
                    clampTo (h - ph) (snd (positionRef g) + dy)) /\
  (pw <= w -> 0 <= fst (positionRef g2) <= w - pw) /\
  (ph <= h -> 0 <= snd (positionRef g2) <= h - ph) /\
  (w <= pw -> fst (positionRef g2) = 0) /\
  (h <= ph -> snd (positionRef g2) = 0) /\
  positionRef g3 = positionRef g2 /\ isDragging g3 = false /\
  forall cx' cy', handleTouchMove cx' cy' g3 = g3.
Proof.
  intros Hp Hc Hr. cbv zeta.
  assert (E1 : handleTouchStart cx cy g =
               set_dragStart (cx - fst (positionRef g),
                              cy - snd (positionRef g))
                 (set_isDragging true g)).
  { unfold handleTouchStart. rewrite Hp. reflexivity. }
  assert (E2 : handleTouchMove (cx + dx) (cy + dy) (handleTouchStart cx cy g) =
               set_positionRef
                 (clampTo (w - pw) (fst (positionRef g) + dx),
                  clampTo (h - ph) (snd (positionRef g) + dy))
                 (handleTouchStart cx cy g)).
  { rewrite E1. unfold handleTouchMove. cbn. rewrite Hp, Hr, Hc. cbn.
    replace (cx + dx - (cx - fst (positionRef g)))
      with (fst (positionRef g) + dx) by lra.
    replace (cy + dy - (cy - snd (positionRef g)))
      with (snd (positionRef g) + dy) by lra.
    reflexivity. }
  rewrite E2, E1. cbn.
  split; [reflexivity|]. split; [reflexivity|]. split; [reflexivity|].
  split; [intros; apply clampTo_range; lra|].
  split; [intros; apply clampTo_range; lra|].
  split; [intros; apply clampTo_small; lra|].
  split; [intros; apply clampTo_small; lra|].
  split; [reflexivity|]. split; [reflexivity|].
  intros cx' cy'. reflexivity.
Qed.

Lemma X11_drag_witness :
  gameState (newSession 400 100) = playing /\
  gameContainerRef (newSession 400 100) = Some (400, 100) /\
  playerRef (newSession 400 100) = Some (48, 48) /\
  0 <= fst (positionRef
              (handleTouchMove (200 + 10) (20 + -5)
                 (handleTouchStart 200 20 (newSession 400 100))))
    <= 400 - 48.
Proof.
  destruct newSession_facts
    as (H1 & _ & H3 & _ & _ & _ & _ & _ & H9 & _).
  pose proof (X11_drag 200 20 10 (-5) (newSession 400 100) 400 100 48 48
                H1 H3 H9) as (_ & _ & _ & H & _).
  split; [exact H1|]. split; [exact H3|]. split; [exact H9|].
  apply H. lra.
Defined.

(** [animatePlayer] as a function of the [keys] object and the
    [isDragging] value that its closure holds. *)
Lemma animatePlayer_position (keys : Keys.t) (dragging : bool) (g : Game)
    (w h pw ph : R) :
  gameStateRef g = playing -> gameContainerRef g = Some (w, h) ->
  playerRef g = Some (pw, ph) ->
  let up := Keys.ArrowUp keys || Keys.w keys in
  let down := Keys.ArrowDown keys || Keys.s keys in
  let left := Keys.ArrowLeft keys || Keys.a keys in
  let right := Keys.ArrowRight keys || Keys.d keys in
  positionRef (animatePlayer keys dragging g) =
    if (up || down || left || right) && negb dragging
    then (clampTo (w - pw) (fst (positionRef g) + keyStep left right),
          clampTo (h - ph) (snd (positionRef g) + keyStep up down))
    else positionRef g.
Proof.
  intros Hp Hc Hr. cbv zeta. unfold animatePlayer.
  rewrite Hp, Hc, Hr. cbn [GameState_eqb]. cbv zeta.
  assert (E : forall a b c d : R, a = c -> b = d -> (a, b) = (c, d))
    by (intros; subst; reflexivity).
  destruct (Keys.ArrowUp keys || Keys.w keys);
    destruct (Keys.ArrowDown keys || Keys.s keys);
    destruct (Keys.ArrowLeft keys || Keys.a keys);
    destruct (Keys.ArrowRight keys || Keys.d keys);
    destruct dragging; cbn; unfold keyStep; try reflexivity;
    apply E; unfold clampTo; do 2 f_equal; lra.
Qed.

(** X12. The ship in one frame of a playing session, [keys] and [dragging]
    being the [keys] object and the [isDragging] value held by the closure
    of the frame's [animatePlayer] callback (those of the render in which
    [startAnimationLoops] was created, which need not be the current
    state).  Arrow keys and w/a/s/d are alternatives, not cumulative.  When
    the closure holds no pressed key, or holds [isDragging] true, the frame
    leaves the position as it is.  Otherwise each coordinate moves by 5 per
    held direction, opposite directions cancelling, and is clamped to the
    container.  No other callback of the frame moves the ship. *)
Theorem X12_keyboard_move (keys : Keys.t) (dragging : bool) (g : Game)
    (w h pw ph : R) :
  reachable g -> gameState g = playing ->
  gameContainerRef g = Some (w, h) -> playerRef g = Some (pw, ph) ->
  let up := Keys.ArrowUp keys || Keys.w keys in
  let down := Keys.ArrowDown keys || Keys.s keys in
  let left := Keys.ArrowLeft keys || Keys.a keys in
  let right := Keys.ArrowRight keys || Keys.d keys in
  let g' := runFrame keys dragging g in
  positionRef g' = positionRef (animatePlayer keys dragging g) /\
  (up || down || left || right = false \/ dragging = true ->
   positionRef g' = positionRef g) /\
  (up || down || left || right = true -> dragging = false ->
   positionRef g' =
     (clampTo (w - pw) (fst (positionRef g) + keyStep left right),
      clampTo (h - ph) (snd (positionRef g) + keyStep up down)) /\
   (pw <= w -> 0 <= fst (positionRef g') <= w - pw) /\
   (ph <= h -> 0 <= snd (positionRef g') <= h - ph)).
Proof.
  intros Hr Hp Hc Hpl. cbv zeta.
  destruct (reachable_QueueInv g Hr) as [Hs _ _ _].
  assert (Hpr : gameStateRef g = playing) by congruence.
  destruct (runFrame_playing keys dragging g Hr Hp) as (E & _).
  cbv zeta in E. unfold afterMotion in E.
  set (g1 := updateRender (set_rafQueue [] g)) in *.
  destruct (updateRender_cells (set_rafQueue [] g))
    as ((U1 & _ & U3 & U4 & _) & UP & _). cbv zeta in *. fold g1 in U1, U3, U4, UP.
  assert (F : positionRef (runFrame keys dragging g)
              = positionRef (animatePlayer keys dragging g1)).
  { rewrite E.
    destruct (checkPlayerCollisions_cells
                (checkCollisions
                   (animateObjects
                      (animateBullets (animatePlayer keys dragging g1)))))
      as (_ & _ & _ & P4 & _).
    destruct (checkCollisions_cells
                (animateObjects
                   (animateBullets (animatePlayer keys dragging g1))))
      as (_ & _ & _ & _ & _ & C6 & _).
    destruct (animateObjects_cells
                (animateBullets (animatePlayer keys dragging g1)))
      as (_ & _ & O3 & _).
    destruct (animateBullets_cells (animatePlayer keys dragging g1))
      as (_ & _ & B3 & _).
    cbv zeta in *. rewrite P4, C6, O3, B3. reflexivity. }
  pose proof (animatePlayer_position keys dragging g w h pw ph Hpr Hc Hpl) as A.
  pose proof (animatePlayer_position keys dragging g1 w h pw ph) as A1.
  cbv zeta in A, A1.
  rewrite U1, U3, U4, UP in A1.
  specialize (A1 Hpr Hc Hpl).
  change (positionRef (set_rafQueue [] g)) with (positionRef g) in A1.
  rewrite F, A1. rewrite A.
  split; [reflexivity|].
  destruct (Keys.ArrowUp keys || Keys.w keys || (Keys.ArrowDown keys || Keys.s keys)
            || (Keys.ArrowLeft keys || Keys.a keys)
            || (Keys.ArrowRight keys || Keys.d keys)) eqn:Ek;
    destruct dragging; cbn [andb negb]; split;
    try (intros [C|C]; try discriminate; reflexivity);
    intros C1 C2; try discriminate.
  split; [reflexivity|].
  split; intros; apply clampTo_range; lra.
Qed.

Lemma X12_keyboard_move_witness :
  reachable (newSession 400 100) /\
  gameState (newSession 400 100) = playing /\
  gameContainerRef (newSession 400 100) = Some (400, 100) /\
  playerRef (newSession 400 100) = Some (48, 48) /\
  positionRef (newSession 400 100) = (176, 0) /\
  positionRef (runFrame leftKeys false (newSession 400 100)) = (171, 0) /\
  positionRef (runFrame leftKeys true (newSession 400 100)) = (176, 0).
Proof.
  destruct newSession_facts
    as (H1 & _ & H3 & _ & _ & _ & _ & _ & H9 & H10 & _).
  pose proof (X12_keyboard_move leftKeys false (newSession 400 100)
                400 100 48 48 (reachable_newSession 400 100) H1 H3 H9)
    as (_ & _ & M).
  pose proof (X12_keyboard_move leftKeys true (newSession 400 100)
                400 100 48 48 (reachable_newSession 400 100) H1 H3 H9)
    as (_ & D & _).
  split; [apply reachable_newSession|]. split; [exact H1|].
  split; [exact H3|]. split; [exact H9|]. split; [exact H10|].
  split.
  - destruct (M eq_refl eq_refl) as (E & _). rewrite E, H10.
    cbn [fst snd leftKeys Keys.ArrowUp Keys.ArrowDown Keys.ArrowLeft
         Keys.ArrowRight Keys.w Keys.a Keys.s Keys.d orb].
    unfold keyStep.
    rewrite (clampTo_inside (400 - 48) (176 + (0 - 5))) by lra.
    rewrite (clampTo_inside (100 - 48) (0 + (0 - 0))) by lra.
    f_equal; lra.
  - rewrite (D (or_intror eq_refl)). exact H10.
Defined.

(** ** The keyboard state *)

Lemma keyNames_cases key :
  In key keyNames ->
  key = "ArrowUp"%string \/ key = "ArrowDown"%string \/
  key = "ArrowLeft"%string \/ key = "ArrowRight"%string \/
  key = "w"%string \/ key = "a"%string \/ key = "s"%string \/
  key = "d"%string.
Proof. simpl. intuition auto. Qed.

Lemma setKey_other key key' v keys :
  key' <> key -> keyHeld key' (setKey key v keys) = keyHeld key' keys.
Proof.
  intros Hne. destruct keys as [kU kD kL kR kw ka ks kd].
  unfold setKey.
  repeat match goal with
         | |- context [String.eqb key ?s] =>
             destruct (String.eqb_spec key s); [subst key|]
         end;
    unfold keyHeld; cbn [Keys.ArrowUp Keys.ArrowDown Keys.ArrowLeft
                         Keys.ArrowRight Keys.w Keys.a Keys.s Keys.d];
    try reflexivity;
    repeat match goal with
           | |- context [String.eqb key' ?s] =>
               destruct (String.eqb_spec key' s); [subst key'|]
           end; try reflexivity; try contradiction; try discriminate.
Qed.

(** X13. The key handlers.  A key that is not one of the eight names of
    [keys] (an upper-case ["W"], the space bar) changes nothing.  For one of
    the eight names, key-down makes that key held and key-up makes it not
    held, both leave the other keys as they are, and a key-up after a
    key-down gives the same state as the key-up alone. *)
Theorem X13_keyboard_state (key : String.string) (keys : Keys.t) :
  (~ In key keyNames ->
   handleKeyDown key keys = keys /\ handleKeyUp key keys = keys) /\
  (In key keyNames ->
   keyHeld key (handleKeyDown key keys) = true /\
   keyHeld key (handleKeyUp key keys) = false /\
   handleKeyUp key (handleKeyDown key keys) = handleKeyUp key keys /\
   forall key', key' <> key ->
     keyHeld key' (handleKeyDown key keys) = keyHeld key' keys /\
     keyHeld key' (handleKeyUp key keys) = keyHeld key' keys).
Proof.
  split.
  - intros Hn. unfold handleKeyDown, handleKeyUp.
    destruct (existsb (String.eqb key) keyNames) eqn:E; [|auto].
    apply existsb_exists in E. destruct E as [k [Hk Ek]].
    apply String.eqb_eq in Ek. subst k. contradiction.
  - intros Hin.
    assert (E : existsb (String.eqb key) keyNames = true).
    { apply existsb_exists. exists key. split; [exact Hin|].
      apply String.eqb_refl. }
    unfold handleKeyDown, handleKeyUp. rewrite E.
    split; [|split; [|split]].
    + apply keyNames_cases in Hin. destruct keys.
      repeat (destruct Hin as [Hin|Hin]; [subst key; reflexivity|]).
      subst key. reflexivity.
    + apply keyNames_cases in Hin. destruct keys.
      repeat (destruct Hin as [Hin|Hin]; [subst key; reflexivity|]).
      subst key. reflexivity.
    + apply keyNames_cases in Hin. destruct keys.
      repeat (destruct Hin as [Hin|Hin]; [subst key; reflexivity|]).
      subst key. reflexivity.
    + intros key' Hne. split; apply setKey_other; exact Hne.
Qed.

Lemma X13_keyboard_state_witness :
  ~ In "W"%string keyNames /\ handleKeyDown "W"%string noKeys = noKeys /\
  In "w"%string keyNames /\
  keyHeld "w"%string (handleKeyDown "w"%string noKeys) = true.
Proof.
  assert (H1 : ~ In "W"%string keyNames)
    by (simpl; intros H; repeat (destruct H as [H|H]; [discriminate H|]);
        exact H).
  assert (H2 : In "w"%string keyNames)
    by (simpl; do 4 right; left; reflexivity).
  split; [exact H1|].
  split; [exact (proj1 (proj1 (X13_keyboard_state "W"%string noKeys) H1))|].
  split; [exact H2|].
  exact (proj1 (proj2 (X13_keyboard_state "w"%string noKeys) H2)).
Defined.

(** ** Starting again *)

Lemma c1_over_facts :
  gameContainerRef (runFrame noKeys false c1_state) = Some (400, 100) /\
  scoreRef (runFrame noKeys false c1_state) = 1%Z.
Proof.
  cut (forall g, g = runFrame noKeys false c1_state ->
         gameContainerRef g = Some (400, 100) /\ scoreRef g = 1%Z).
  { intros H. exact (H _ eq_refl). }
  intros g. unfold c1_state, c1_before_fire. eval_game. intros ->.
  split; [cbn; do 2 f_equal; lra|reflexivity].
Qed.

(** Two states with the same cells are the same state. *)
Lemma Game_ext (g1 g2 : Game) :
  bulletHeap g1 = bulletHeap g2 ->
  heapNext g1 = heapNext g2 ->
  bulletPoolRef g1 = bulletPoolRef g2 ->
  bulletsRef g1 = bulletsRef g2 ->
  blocksRef g1 = blocksRef g2 ->
  powerUpsRef g1 = powerUpsRef g2 ->
  bulletIdRef g1 = bulletIdRef g2 ->
  blockIdRef g1 = blockIdRef g2 ->
  powerUpIdRef g1 = powerUpIdRef g2 ->
  positionRef g1 = positionRef g2 ->
  finalScoreRef g1 = finalScoreRef g2 ->
  lastFireTimeRef g1 = lastFireTimeRef g2 ->
  scoreRef g1 = scoreRef g2 ->
  gameStateRef g1 = gameStateRef g2 ->
  blockFallSpeedRef g1 = blockFallSpeedRef g2 ->
  activePowerUpsRef g1 = activePowerUpsRef g2 ->
  needsRenderRef g1 = needsRenderRef g2 ->
  gameContainerRef g1 = gameContainerRef g2 ->
  playerRef g1 = playerRef g2 ->
  rafQueue g1 = rafQueue g2 ->
  gameState g1 = gameState g2 ->
  gameTime g1 = gameTime g2 ->
  blockSpawnRate g1 = blockSpawnRate g2 ->
  blockFallSpeed g1 = blockFallSpeed g2 ->
  blocksPerWave g1 = blocksPerWave g2 ->
  activePowerUps g1 = activePowerUps g2 ->
  powerUpTimeLeft g1 = powerUpTimeLeft g2 ->
  score g1 = score g2 ->
  isDragging g1 = isDragging g2 ->
  dragStart g1 = dragStart g2 ->
  g1 = g2.
Proof.
  destruct g1, g2; cbn; intros; subst; reflexivity.
Qed.

(** X14. [startGame] followed by the effects of its render, from any state
    the component can reach, gives the state of a first start in the same
    container, except for seven cells that [startGame] does not write: the
    store of the bullet objects with its allocation mark, the recorded
    final score, the time of the last shot, the pending-render flag, and
    the dragging flag with the drag offset.  In particular the score, the
    difficulty, the power-up slots, the arrays, the pool, the id counters
    and the six pending callbacks are those of a first start. *)
Theorem X14_restart (g : Game) (w h : R) :
  reachable g -> gameContainerRef g = Some (w, h) ->
  commitEffects (startGame g) =
    set_bulletHeap (bulletHeap g)
      (set_heapNext (heapNext g)
         (set_finalScoreRef (finalScoreRef g)
            (set_lastFireTimeRef (lastFireTimeRef g)
               (set_needsRenderRef (needsRenderRef g)
                  (set_isDragging (isDragging g)
                     (set_dragStart (dragStart g) (newSession w h))))))).
Proof.
  intros Hr Hc. destruct (reachable_QueueInv g Hr) as [_ _ _ Hq].
  assert (F : filter isRenderLoop (rafQueue g) = [LRender])
    by (rewrite Hq; destruct (GameState_eqb _ _); reflexivity).
  apply Game_ext; unfold newSession, commitEffects, startGame;
    rewrite Hc; cbn; rewrite ?F, ?Hc; reflexivity.
Qed.

Lemma X14_restart_witness :
  reachable (runFrame noKeys false c1_state) /\
  gameContainerRef (runFrame noKeys false c1_state) = Some (400, 100) /\
  scoreRef (runFrame noKeys false c1_state) = 1%Z /\
  scoreRef (commitEffects (startGame (runFrame noKeys false c1_state)))
    = scoreRef (newSession 400 100).
Proof.
  assert (Hr : reachable (runFrame noKeys false c1_state))
    by (eapply reachable_step; [exact reachable_c1_state|apply step_frame]).
  destruct c1_over_facts as [Hc Hs].
  split; [exact Hr|]. split; [exact Hc|]. split; [exact Hs|].
  rewrite (X14_restart _ 400 100 Hr Hc). reflexivity.
Defined.

(** ** The flight of the bullets *)

Lemma sqrt3_bounds : 1.72 < sqrt 3 < 1.74.
Proof.
  assert (L : sqrt (1.72 * 1.72) < sqrt 3) by (apply sqrt_lt_1_alt; lra).
  assert (U : sqrt 3 < sqrt (1.74 * 1.74)) by (apply sqrt_lt_1_alt; lra).
  rewrite sqrt_square in L, U by lra. split; assumption.
Qed.

Lemma deg30 : 30 * PI / 180 = PI / 6.
Proof. lra. Qed.

Lemma degm30 : -30 * PI / 180 = - (PI / 6).
Proof. lra. Qed.

(** X15. Every bullet object carries one of the angles 0, -30 and 30 that
    [fireBullet] gives.  So a motion tick moves a live bullet of angle 0
    straight up, to [y - 10], and a bullet of angle 30 or -30 up by between
    8.6 and 8.7 and sideways by between 4.9 and 5.1, to the right for 30 and
    to the left for -30: every live bullet climbs by more than 8.5 and by
    less than 10.1 on every tick, and keeps its angle. *)
Theorem X15_bullets_climb (g : Game) (r : nat) :
  visited g -> gameStateRef g = playing -> In r (bulletsRef g) ->
  let b := bulletHeap g r in
  let b' := bulletHeap (animateBullets g) r in
  ((Bullet.angle b = 0 /\ Bullet.x b' = Bullet.x b /\
    Bullet.y b' = Bullet.y b - 10) \/
   (Bullet.angle b = 30 /\
    4.9 < Bullet.x b' - Bullet.x b < 5.1 /\
    8.6 < Bullet.y b - Bullet.y b' < 8.7) \/
   (Bullet.angle b = -30 /\
    4.9 < Bullet.x b - Bullet.x b' < 5.1 /\
    8.6 < Bullet.y b - Bullet.y b' < 8.7)) /\
  Bullet.angle b' = Bullet.angle b /\
  8.5 < Bullet.y b - Bullet.y b' < 10.1.
Proof.
  intros Hv Hp Hin. cbv zeta.
  destruct (visited_BulletInv g Hv) as [(Hnd & _ & _) _].
  simpl in Hnd. apply NoDup_app_remove_r in Hnd.
  destruct (animateBullets_spec g Hp Hnd) as (S1 & _). cbv zeta in S1.
  rewrite S1, (existsb_eqb_In r _ Hin).
  pose proof (wi_angles g (visited_WorldInv g Hv) r) as Ha.
  pose proof sqrt3_bounds as [Hs1 Hs2].
  unfold moveBullet. cbn [Bullet.x Bullet.y Bullet.angle].
  destruct Ha as [Ha|[Ha|Ha]]; rewrite Ha.
  - rewrite sin_deg_0, cos_deg_0.
    split; [left; repeat split; lra|]. split; [reflexivity|lra].
  - rewrite degm30, sin_neg, cos_neg, sin_PI6, cos_PI6.
    split; [right; right; repeat split; lra|]. split; [reflexivity|lra].
  - rewrite deg30, sin_PI6, cos_PI6.
    split; [right; left; repeat split; lra|]. split; [reflexivity|lra].
Qed.

Lemma visited_c15_state : visited c15_state.
Proof.
  apply visited_frame. unfold c15_before.
  eapply reachable_step; [|apply step_fire].
  apply reachable_frames, reachable_playFor; [|apply reachable_newSession].
  apply isRandom_alternate; unfold isRandom; lra.
Qed.

Lemma c15_state_facts :
  gameStateRef c15_state = playing /\
  bulletsRef c15_state = [0%nat; 1%nat; 2%nat] /\
  Bullet.angle (bulletHeap c15_state 1%nat) = -30 /\
  Bullet.angle (bulletHeap c15_state 2%nat) = 30.
Proof.
  cut (forall g, g = c15_state ->
         gameStateRef g = playing /\
         bulletsRef g = [0%nat; 1%nat; 2%nat] /\
         Bullet.angle (bulletHeap g 1%nat) = -30 /\
         Bullet.angle (bulletHeap g 2%nat) = 30).
  { intros H. exact (H _ eq_refl). }
  intros g. unfold c15_state, c15_before.
  cbn [playFor frames]. unfold alternate. cbn [Nat.even Nat.mul Nat.add].
  eval_more. intros ->.
  split; [reflexivity|]. split; [reflexivity|]. split; cbn; lra.
Qed.

Lemma X15_bullets_climb_witness :
  visited c15_state /\ gameStateRef c15_state = playing /\
  In 2%nat (bulletsRef c15_state) /\
  Bullet.angle (bulletHeap c15_state 2%nat) = 30 /\
  4.9 < Bullet.x (bulletHeap (animateBullets c15_state) 2%nat)
        - Bullet.x (bulletHeap c15_state 2%nat) < 5.1 /\
  8.6 < Bullet.y (bulletHeap c15_state 2%nat)
        - Bullet.y (bulletHeap (animateBullets c15_state) 2%nat) < 8.7.
Proof.
  destruct c15_state_facts as (Hp & Hb & _ & Ha).
  assert (Hin : In 2%nat (bulletsRef c15_state))
    by (rewrite Hb; right; right; left; reflexivity).
  split; [exact visited_c15_state|]. split; [exact Hp|].
  split; [exact Hin|]. split; [exact Ha|].
  destruct (X15_bullets_climb c15_state 2%nat visited_c15_state Hp Hin)
    as [[(E & _)|[(_ & Hx & Hy)|(E & _)]] _].
  - rewrite Ha in E. exfalso. lra.
  - split; [exact Hx|exact Hy].
  - rewrite Ha in E. exfalso. lra.
Defined.

(** ** The speed of the blocks and the growth of the score *)

Ltac cells_same := unfold speeds, scores; cbn; reflexivity.

Lemma checkCollisions_speeds g : speeds (checkCollisions g) = speeds g.
Proof.
  unfold checkCollisions.
  destruct (GameState_eqb (gameStateRef g) playing); [|reflexivity].
  destruct (bulletsRef g) eqn:Eb; [cells_same|].
  destruct (blocksRef g) eqn:Ek; [cells_same|].
  destruct (collideBullets _ _ _ _) as [[g1 rec] hit] eqn:E.
  apply collideBullets_shape in E. rewrite E.
  unfold releaseBullets; repeat break_match; cells_same.
Qed.

Lemma checkPlayerCollisions_speeds g :
  speeds (checkPlayerCollisions g) = speeds g.
Proof.
  unfold checkPlayerCollisions, triggerGameOver.
  destruct (GameState_eqb (gameStateRef g) playing); [|reflexivity].
  destruct (playerRef g); [|reflexivity].
  destruct (existsb _ _); [cells_same|].
  destruct (collectPowerUps _ _ _ _) as [g1 ids] eqn:E.
  apply collectPowerUps_shape in E. rewrite E.
  repeat break_match; cells_same.
Qed.

Lemma runLoop_speeds keys dragging l g :
  speeds (runLoop keys dragging l g) = speeds g.
Proof.
  destruct l; simpl.
  - unfold updateRender; repeat break_match; cells_same.
  - unfold animatePlayer; repeat break_match; cells_same.
  - unfold animateBullets, releaseBullets; repeat break_match; cells_same.
  - unfold animateObjects; repeat break_match; cells_same.
  - apply checkCollisions_speeds.
  - apply checkPlayerCollisions_speeds.
Qed.

Lemma runLoops_speeds keys dragging ls : forall g,
  speeds (runLoops keys dragging ls g) = speeds g.
Proof.
  induction ls as [|l ls IH]; simpl; intros g; [reflexivity|].
  rewrite IH. apply runLoop_speeds.
Qed.

Lemma SpeedInv_speeds g g' : speeds g' = speeds g -> SpeedInv g -> SpeedInv g'.
Proof.
  unfold speeds, SpeedInv. intros E. inversion E as [[E1 E2]].
  rewrite E1, E2. auto.
Qed.

Lemma SpeedInv_step g g' : step g g' -> SpeedInv g -> SpeedInv g'.
Proof.
  intros S H; destruct S.
  - unfold startGame. destruct (gameContainerRef g) as [[w h]|].
    + unfold SpeedInv, commitEffects. cbn. lra.
    + revert H. unfold SpeedInv, commitEffects.
      repeat break_match; cbn; lra.
  - revert H. unfold SpeedInv, commitEffects. repeat break_match; cbn; lra.
  - revert H. apply SpeedInv_speeds. rewrite fireBullet_shape. cells_same.
  - revert H. apply SpeedInv_speeds. unfold spawnBlock.
    repeat break_match; try cells_same. rewrite spawnLoop_shape. cells_same.
  - revert H. unfold SpeedInv, gameTimerTick, spawnPowerUp.
    repeat break_match; cbn; lra.
  - revert H. apply SpeedInv_speeds. unfold powerUpTimerTick.
    repeat break_match; cells_same.
  - revert H. apply SpeedInv_speeds. unfold runFrame.
    rewrite runLoops_speeds. cells_same.
  - exact H.
  - revert H. apply SpeedInv_speeds. unfold handleTouchStart.
    repeat break_match; cells_same.
  - revert H. apply SpeedInv_speeds. unfold handleTouchMove.
    repeat break_match; cells_same.
  - revert H. apply SpeedInv_speeds. unfold handleTouchEnd.
    repeat break_match; cells_same.
  - exact H.
  - exact H.
Qed.

Lemma reachable_SpeedInv g : reachable g -> SpeedInv g.
Proof.
  induction 1; eauto using SpeedInv_step.
  unfold SpeedInv. cbn. lra.
Qed.

(** X16. The blocks never fall faster than the difficulty allows.  In every
    reachable state the speed that [animateObjects] reads is at least the
    base speed 3 and at most the speed of the closed form
    [3 + 0.5 * floor(t / 15)]; so the distance a frame moves the blocks is
    between 1.5 (slow motion at the base speed) and that closed form, and
    under slow motion it is half of the speed read. *)
Theorem X16_fall_speed_bounds (g : Game) :
  reachable g ->
  3 <= blockFallSpeedRef g <= spec_fallSpeed (gameTime g) /\
  1.5 <= currentFallSpeed g <= spec_fallSpeed (gameTime g) /\
  (slowMotion (activePowerUpsRef g) = true ->
   currentFallSpeed g = blockFallSpeedRef g / 2) /\
  (slowMotion (activePowerUpsRef g) = false ->
   currentFallSpeed g = blockFallSpeedRef g).
Proof.
  intros Hr. pose proof (reachable_SpeedInv g Hr) as [H1 H2].
  destruct (reachable_DifficultyInv g Hr) as [_ _ _ _ Hv _ _].
  rewrite Hv in H2. unfold currentFallSpeed.
  split; [lra|].
  destruct (slowMotion (activePowerUpsRef g));
    repeat split; intros; try discriminate; lra.
Qed.

Lemma X16_fall_speed_bounds_witness :
  reachable c3_before /\ 1.5 <= currentFallSpeed c3_before.
Proof.
  split; [exact reachable_c3_before|].
  exact (proj1 (proj1 (proj2 (X16_fall_speed_bounds c3_before
                                reachable_c3_before)))).
Defined.

Lemma scoreGrows_scores g g' : scores g' = scores g -> scoreGrows g g'.
Proof.
  unfold scores, scoreGrows. intros E. inversion E as [[E1 E2]].
  rewrite E1, E2. lia.
Qed.

Lemma scoreGrows_trans g1 g2 g3 :
  scoreGrows g1 g2 -> scoreGrows g2 g3 -> scoreGrows g1 g3.
Proof. unfold scoreGrows. intros [] []. lia. Qed.

Lemma runLoop_scoreGrows keys dragging l g :
  WorldInv g -> scoreGrows g (runLoop keys dragging l g).
Proof.
  intros Hw. destruct l; simpl.
  - destruct (updateRender_cells g) as ((_ & _ & _ & _ & E & _) & _ & _ & _ & _ & _ & _ & S).
    cbv zeta in *. unfold scoreGrows. rewrite E, S.
    destruct (wi_score g Hw). destruct (_ && _); lia.
  - apply scoreGrows_scores. unfold animatePlayer; repeat break_match; cells_same.
  - apply scoreGrows_scores.
    unfold animateBullets, releaseBullets; repeat break_match; cells_same.
  - apply scoreGrows_scores. unfold animateObjects; repeat break_match; cells_same.
  - destruct (checkCollisions_cells g)
      as (_ & _ & _ & C4 & _ & _ & _ & _ & _ & _ & _ & C8).
    cbv zeta in *. unfold scoreGrows. rewrite C4. lia.
  - destruct (checkPlayerCollisions_cells g) as (P1 & P2 & _).
    cbv zeta in *. unfold scoreGrows. rewrite P1, P2. lia.
Qed.

Lemma runLoops_scoreGrows keys dragging ls : forall g,
  WorldInv g -> scoreGrows g (runLoops keys dragging ls g).
Proof.
  induction ls as [|l ls IH]; simpl; intros g Hw.
  - unfold scoreGrows. lia.
  - eapply scoreGrows_trans; [apply runLoop_scoreGrows; exact Hw|].
    apply IH, wi_runLoop, Hw.
Qed.

Lemma step_scoreGrows g g' :
  WorldInv g -> step g g' ->
  g' = commitEffects (startGame g) \/ scoreGrows g g'.
Proof.
  intros Hw S. destruct S; [left; reflexivity|right..].
  - apply scoreGrows_scores.
    unfold commitEffects; repeat break_match; cells_same.
  - apply scoreGrows_scores. rewrite fireBullet_shape. cells_same.
  - apply scoreGrows_scores. unfold spawnBlock.
    repeat break_match; try cells_same. rewrite spawnLoop_shape. cells_same.
  - apply scoreGrows_scores. unfold gameTimerTick, spawnPowerUp.
    repeat break_match; cells_same.
  - apply scoreGrows_scores. unfold powerUpTimerTick.
    repeat break_match; cells_same.
  - unfold runFrame.
    eapply scoreGrows_trans; [|apply runLoops_scoreGrows; revert Hw; wi_same].
    unfold scoreGrows. cbn. lia.
  - apply scoreGrows_scores. cells_same.
  - apply scoreGrows_scores. unfold handleTouchStart.
    repeat break_match; cells_same.
  - apply scoreGrows_scores. unfold handleTouchMove.
    repeat break_match; cells_same.
  - apply scoreGrows_scores. unfold handleTouchEnd.
    repeat break_match; cells_same.
  - apply scoreGrows_scores. cells_same.
  - apply scoreGrows_scores. cells_same.
Qed.

(** X17. Within a session the score never goes down: every event other
    than a start (a frame, a shot, a spawn, a timer tick, the end of the
    flash, a drag, the effects of a render) leaves [scoreRef] and the
    published [score] as they are or higher, and a start sets both to
    0. *)
Theorem X17_score_never_decreases (g g' : Game) :
  reachable g -> step g g' ->
  (g' = commitEffects (startGame g) /\
   (gameContainerRef g <> None -> score g' = 0%Z /\ scoreRef g' = 0%Z)) \/
  ((score g <= score g')%Z /\ (scoreRef g <= scoreRef g')%Z).
Proof.
  intros Hr S.
  destruct (step_scoreGrows g g' (reachable_WorldInv g Hr) S) as [E|H].
  - left. split; [exact E|]. intros Hc. subst g'.
    unfold startGame. destruct (gameContainerRef g) as [[w h]|]; [|congruence].
    unfold commitEffects. cbn. split; reflexivity.
  - right. exact H.
Qed.

Lemma X17_score_never_decreases_witness :
  reachable c1_state /\ step c1_state (runFrame noKeys false c1_state) /\
  ((runFrame noKeys false c1_state = commitEffects (startGame c1_state) /\
    (gameContainerRef c1_state <> None ->
     score (runFrame noKeys false c1_state) = 0%Z /\
     scoreRef (runFrame noKeys false c1_state) = 0%Z)) \/
   ((score c1_state <= score (runFrame noKeys false c1_state))%Z /\
    (scoreRef c1_state <= scoreRef (runFrame noKeys false c1_state))%Z)).
Proof.
  pose proof (step_frame noKeys false c1_state) as S.
  split; [exact reachable_c1_state|]. split; [exact S|].
  exact (X17_score_never_decreases _ _ reachable_c1_state S).
Defined.

(** ** The transitions of the session *)

Lemma runFrame_not_playing keys dragging g :
  reachable g -> gameState g <> playing -> runFrame keys dragging g = g.
Proof.
  intros Hr Hn. destruct (reachable_QueueInv g Hr) as [Hs _ _ Hq].
  assert (F1 : GameState_eqb (gameState g) playing = false).
  { destruct (GameState_eqb (gameState g) playing) eqn:E; [|reflexivity].
    apply GameState_eqb_eq in E. contradiction. }
  rewrite F1 in Hq. unfold runFrame. rewrite Hq.
  cbn [runLoops fold_left runLoop]. unfold updateRender.
  change (gameStateRef (set_rafQueue [] g)) with (gameStateRef g).
  rewrite Hs, F1, andb_false_r.
  transitivity (set_rafQueue (rafQueue g) g); [|reflexivity].
  rewrite Hq. reflexivity.
Qed.

Lemma checkPlayerCollisions_safe g :
  existsb (playerOverlapsBlock (positionRef g)) (blocksRef g) = false ->
  gameState (checkPlayerCollisions g) = gameState g.
Proof.
  intros Hb. unfold checkPlayerCollisions. rewrite Hb.
  destruct (GameState_eqb (gameStateRef g) playing); [|reflexivity].
  destruct (playerRef g); [|reflexivity].
  destruct (collectPowerUps _ _ _ _) as [g1 ids] eqn:E.
  apply collectPowerUps_shape in E. rewrite E.
  destruct ids; reflexivity.
Qed.

(** How a frame of a playing session ends: with the session over exactly
    when the ship overlaps a block after the motion and the
    projectile-obstacle pass. *)
Lemma runFrame_outcome keys dragging g :
  reachable g -> gameState g = playing ->
  let m := checkCollisions (afterMotion keys dragging g) in
  let g' := runFrame keys dragging g in
  (existsb (playerOverlapsBlock (positionRef m)) (blocksRef m) = true ->
   gameState g' = gameOver /\ gameStateRef g' = gameOver /\
   rafQueue g' = [LRender]) /\
  (existsb (playerOverlapsBlock (positionRef m)) (blocksRef m) = false ->
   gameState g' = playing).
Proof.
  intros Hr Hp. cbv zeta.
  destruct (runFrame_playing keys dragging g Hr Hp)
    as (E & _ & Hc & Hpm & Hpl & _). cbv zeta in *.
  destruct (advances_checkCollisions (afterMotion keys dragging g) Hpm)
    as (A1 & A2 & _ & A4 & _).
  set (m := checkCollisions (afterMotion keys dragging g)) in *.
  assert (Em : gameState m = playing).
  { rewrite A2. destruct Hc as (_ & X & _). rewrite X. exact Hp. }
  assert (Pm : gameStateRef m = playing) by (rewrite A1; exact Hpm).
  assert (Rm : playerRef m <> None) by (rewrite A4; exact Hpl).
  split.
  - intros Eo.
    destruct (checkPlayerCollisions_fatal m Pm Rm Eo) as (F1 & F2 & _).
    cbv zeta in *. rewrite E. split; [exact F1|]. split; [exact F2|].
    destruct (reachable_QueueInv _
                (reachable_step _ _ Hr (step_frame keys dragging g)))
      as [_ _ _ Hq].
    rewrite E in Hq. rewrite Hq, F1. reflexivity.
  - intros Eo. rewrite E, (checkPlayerCollisions_safe m Eo). exact Em.
Qed.

(** X18. The session changes state in two ways only.  A start makes it
    playing.  A frame of a playing session ends it exactly when, after the
    motion and the projectile-obstacle pass of that frame, the ship
    overlaps a block: then the session is over and only [updateRender]
    stays pending; otherwise the session goes on.  Every other event leaves
    [gameState] as it is: no timer, shot, spawn or drag ends or starts a
    session. *)
Theorem X18_session_transitions (g : Game) :
  reachable g ->
  (forall g', step g g' ->
     gameState g' = gameState g \/
     (g' = commitEffects (startGame g) /\ gameState g' = playing) \/
     (gameState g = playing /\ gameState g' = gameOver /\
      exists keys dragging,
        g' = runFrame keys dragging g /\
        let m := checkCollisions (afterMotion keys dragging g) in
        existsb (playerOverlapsBlock (positionRef m)) (blocksRef m) = true)) /\
  (gameState g = playing ->
   forall keys dragging,
     let m := checkCollisions (afterMotion keys dragging g) in
     let g' := runFrame keys dragging g in
     (existsb (playerOverlapsBlock (positionRef m)) (blocksRef m) = true ->
      gameState g' = gameOver /\ gameStateRef g' = gameOver /\
      rafQueue g' = [LRender]) /\
     (existsb (playerOverlapsBlock (positionRef m)) (blocksRef m) = false ->
      gameState g' = playing)) /\
  (gameState g <> playing ->
   forall keys dragging, runFrame keys dragging g = g).
Proof.
  intros Hr. split; [|split].
  - intros g' S. destruct S.
    + right. left. split; [reflexivity|].
      destruct (reachable_DifficultyInv g Hr) as [_ _ Hc _ _ _ _].
      unfold startGame.
      destruct (gameContainerRef g) as [[w h]|]; [|congruence].
      unfold commitEffects. cbn. reflexivity.
    + left. unfold commitEffects. repeat break_match; reflexivity.
    + left. rewrite fireBullet_shape. reflexivity.
    + left. unfold spawnBlock. repeat break_match; try reflexivity.
      rewrite spawnLoop_shape. reflexivity.
    + left. unfold gameTimerTick, spawnPowerUp.
      repeat break_match; reflexivity.
    + left. unfold powerUpTimerTick. repeat break_match; reflexivity.
    + destruct (gameState g) eqn:Eg.
      * left. rewrite runFrame_not_playing; [exact Eg|exact Hr|].
        rewrite Eg. discriminate.
      * destruct (runFrame_outcome keys dragging g Hr Eg) as [O1 O2].
        cbv zeta in O1, O2.
        destruct (existsb
                    (playerOverlapsBlock
                       (positionRef
                          (checkCollisions (afterMotion keys dragging g))))
                    (blocksRef
                       (checkCollisions (afterMotion keys dragging g))))
          eqn:Eo.
        -- right. right. split; [reflexivity|].
           split; [exact (proj1 (O1 eq_refl))|].
           exists keys, dragging. split; [reflexivity|exact Eo].
        -- left. exact (O2 eq_refl).
      * left. rewrite runFrame_not_playing; [exact Eg|exact Hr|].
        rewrite Eg. discriminate.
    + left. reflexivity.
    + left. unfold handleTouchStart. repeat break_match; reflexivity.
    + left. unfold handleTouchMove. repeat break_match; reflexivity.
    + left. unfold handleTouchEnd. repeat break_match; reflexivity.
    + left. reflexivity.
    + left. reflexivity.
  - intros Hp keys dragging. exact (runFrame_outcome keys dragging g Hr Hp).
  - intros Hn keys dragging. apply runFrame_not_playing; assumption.
Qed.

(** The cells of [c1_state] that decide the next frame: after the motion
    and the pass the ship overlaps the block. *)
Lemma c1_state_overlap :
  let m := checkCollisions (afterMotion noKeys false c1_state) in
  existsb (playerOverlapsBlock (positionRef m)) (blocksRef m) = true.
Proof.
  cut (forall m, m = checkCollisions (afterMotion noKeys false c1_state) ->
         existsb (playerOverlapsBlock (positionRef m)) (blocksRef m) = true).
  { intros H. exact (H _ eq_refl). }
  intros m. unfold afterMotion, c1_state, c1_before_fire. eval_game.
  intros ->. cbn. unfold playerOverlapsBlock. cbn. rltb_goal. reflexivity.
Qed.

Lemma X18_session_transitions_witness :
  reachable c1_state /\ gameState c1_state = playing /\
  (let m := checkCollisions (afterMotion noKeys false c1_state) in
   existsb (playerOverlapsBlock (positionRef m)) (blocksRef m) = true) /\
  gameState (runFrame noKeys false c1_state) = gameOver /\
  rafQueue (runFrame noKeys false c1_state) = [LRender] /\
  reachable c3_before /\ gameState c3_before = playing /\
  gameState (fireBullet 5000 c3_before) = playing.
Proof.
  destruct c1_state_facts as (H1 & _ & _).
  pose proof (X18_session_transitions c1_state reachable_c1_state)
    as (_ & F & _).
  destruct (F H1 noKeys false) as [O _].
  destruct (O c1_state_overlap) as (G1 & _ & G3).
  pose proof (X18_session_transitions c3_before reachable_c3_before)
    as (T & _).
  destruct c3_before_facts as (K1 & _).
  split; [exact reachable_c1_state|]. split; [exact H1|].
  split; [exact c1_state_overlap|]. split; [exact G1|]. split; [exact G3|].
  split; [exact reachable_c3_before|]. split; [exact K1|].
  destruct (T _ (step_fire 5000 c3_before)) as [E|[[_ E]|(_ & E & _)]].
  - rewrite E. exact K1.
  - exact E.
  - exfalso.
    assert (S : gameState (fireBullet 5000 c3_before) = gameState c3_before)
      by (rewrite fireBullet_shape; reflexivity).
    rewrite S, K1 in E. discriminate E.
Defined.

(** ** The mute preference *)

(** X19. The mute preference survives a reload: what the effect stores is
    read back as the same value, whatever was stored before.  With nothing
    stored, or anything but the exact string ["true"], the game starts
    unmuted.  [toggleMute] flips the flag, gives the background music the
    new flag when the element exists, and two toggles restore the flag. *)
Theorem X19_mute_preference (isMuted : bool) (saved : option String.string) :
  initialMuted true (saveMuted true isMuted saved) = isMuted /\
  initialMuted true None = false /\
  (forall s, s <> "true"%string -> initialMuted true (Some s) = false) /\
  (forall bgm,
     fst (toggleMute isMuted bgm) = negb isMuted /\
     (forall m, bgm = Some m ->
                snd (toggleMute isMuted bgm) = Some (negb isMuted)) /\
     fst (toggleMute (fst (toggleMute isMuted bgm))
                     (snd (toggleMute isMuted bgm))) = isMuted).
Proof.
  split; [destruct isMuted; reflexivity|].
  split; [reflexivity|].
  split.
  - intros s Hs. unfold initialMuted.
    destruct (String.eqb_spec s "true"); [contradiction|reflexivity].
  - intros bgm. split; [reflexivity|]. split.
    + intros m ->. reflexivity.
    + unfold toggleMute. cbn. apply negb_involutive.
Qed.
